(** * pdf-translator-server: layout-preserving translation pipeline

    A shallow embedding of [translator.py], [reconstructor.py] and the
    parts of [utils.py] and [config.py] they use, with the properties of
    the pipeline stated and proved over it.

    Conventions of the embedding.
    - A Python [str] is a [string]; every character is read as a code point
      below 256, and [isspace] is Python's [str.isspace] on that range.
    - A Python [float] is a rational [Q]: the arithmetic is exact, so the
      development speaks about the clamping and branching logic of the code
      and not about rounding.
    - A Python [int] is a [Z].
    - [TextBlock] and [BoundingBox] are mutable objects: they live in a heap
      and lists hold references ([loc]) to them, so aliasing is visible.
    - The OpenAI client is an oracle: the answer to the k-th request, or
      [None] when the call (or reading its reply) raises.
    - PyMuPDF is a recorder: every drawing primitive appends the operation to
      the page it is called on and does not fail. *)

From Stdlib Require Import ZArith QArith Lqa Ascii String List Lia Permutation Sorted.
From stdpp Require Import base option list functions gmap strings.

Open Scope Z_scope.
Open Scope string_scope.
Open Scope list_scope.

(** ** Python built-ins on [str] and [list] *)

Module Py.

(** [str.isspace] for one character (code points 0..255). *)
Definition isspace (c : ascii) : bool :=
  let n := N_of_ascii c in
  (((9 <=? n) && (n <=? 13)) || ((28 <=? n) && (n <=? 32))
   || (n =? 133) || (n =? 160))%N.

Definition is_empty (s : string) : bool :=
  match s with EmptyString => true | String _ _ => false end.

Fixpoint lstrip (s : string) : string :=
  match s with
  | EmptyString => EmptyString
  | String c s' => if isspace c then lstrip s' else s
  end.

Fixpoint rstrip (s : string) : string :=
  match s with
  | EmptyString => EmptyString
  | String c s' =>
      let r := rstrip s' in
      if isspace c && is_empty r then EmptyString else String c r
  end.

(** [s.strip()] *)
Definition strip (s : string) : string := rstrip (lstrip s).

(** Truth value of a string: [if s:] *)
Definition truthy (s : string) : bool := negb (is_empty s).

(** [s[n:]] for [n >= 0] *)
Fixpoint drop_str (n : nat) (s : string) : string :=
  match n, s with
  | O, _ => s
  | S n', String _ s' => drop_str n' s'
  | S _, EmptyString => EmptyString
  end.

(** [s.startswith(tuple)] *)
Definition startswith_any (s : string) (prefixes : list string) : bool :=
  existsb (fun p => String.prefix p s) prefixes.

(** [sep.join(parts)] *)
Definition join (sep : string) (parts : list string) : string :=
  String.concat sep parts.

(** [s.split(sep)] for a non-empty separator: a left-to-right scan for
    non-overlapping occurrences.  [skip] counts the characters of a matched
    separator that are still to be passed over.  The head of the result is
    the segment under construction. *)
Fixpoint split_scan (sep : string) (skip : nat) (s : string) : list string :=
  match s with
  | EmptyString => [EmptyString]
  | String c s' =>
      match skip with
      | S k => split_scan sep k s'
      | O =>
          if String.prefix sep s
          then EmptyString :: split_scan sep (String.length sep - 1) s'
          else match split_scan sep 0 s' with
               | seg :: rest => String c seg :: rest
               | [] => [String c EmptyString]
               end
      end
  end.

Definition split (s sep : string) : list string := split_scan sep 0 s.

(** [s.split()]: maximal runs of non-whitespace characters. *)
Definition starts_word (s : string) : bool :=
  match s with
  | EmptyString => false
  | String c _ => negb (isspace c)
  end.

Fixpoint split_ws (s : string) : list string :=
  match s with
  | EmptyString => []
  | String c s' =>
      if isspace c then split_ws s'
      else if starts_word s'
           then match split_ws s' with
                | w :: ws => String c w :: ws
                | [] => [String c EmptyString]
                end
           else String c EmptyString :: split_ws s'
  end.

(** [l[:n]] with Python's reading of a negative bound. *)
Definition slice_to {A} (l : list A) (n : Z) : list A :=
  if (0 <=? n)%Z then firstn (Z.to_nat n) l
  else firstn (Z.to_nat (Z.of_nat (length l) + n)) l.

(** [l[i:j]] for [0 <= i <= j]. *)
Definition slice {A} (l : list A) (i j : Z) : list A :=
  firstn (Z.to_nat (j - i)) (skipn (Z.to_nat i) l).

(** [sorted(l, key=key)]: a stable sort; [lt] is [<] on the keys.  An
    element is inserted before the first one that is not smaller than it,
    so equal keys keep the order of the input, as Python guarantees. *)
Fixpoint insert_sorted {A K} (lt : K -> K -> bool) (key : A -> K)
    (x : A) (l : list A) : list A :=
  match l with
  | [] => [x]
  | y :: l' =>
      if lt (key y) (key x) then y :: insert_sorted lt key x l'
      else x :: y :: l'
  end.

Definition sorted {A K} (lt : K -> K -> bool) (key : A -> K) (l : list A)
  : list A :=
  fold_right (insert_sorted lt key) [] l.

(** [range(start, stop, step)]; [None] is the [ValueError] of a zero step. *)
Definition range3 (start stop step : Z) : option (list Z) :=
  if (step =? 0)%Z then None
  else
    let n :=
      if (0 <? step)%Z then (stop - start + step - 1) / step
      else (start - stop - step - 1) / (- step) in
    Some (map (fun k => start + Z.of_nat k * step) (seq 0 (Z.to_nat n))).

(** [range(n)] *)
Definition range (n : Z) : list Z :=
  map Z.of_nat (seq 0 (Z.to_nat n)).

End Py.

(** ** Data model ([utils.py], [config.py]) *)

(** References to heap objects. *)
Definition loc := nat.
Bind Scope nat_scope with loc.

Module BoundingBox.
Record t := mk { x0 : Q; y0 : Q; x1 : Q; y1 : Q }.
Definition width (self : t) : Q := (x1 self - x0 self)%Q.
Definition height (self : t) : Q := (y1 self - y0 self)%Q.
End BoundingBox.

Module TextBlock.
(** [bbox] is a reference: a [TextBlock] points to its [BoundingBox]. *)
Record t := mk {
  text : string;
  bbox : loc;
  font : string;
  size : Q;
  color : Q * Q * Q;
  page : Z;
  translated_text : string
}.
End TextBlock.

Module PageInfo.
Record t := mk { page_number : Z; width : Q; height : Q; rotation : Z }.
End PageInfo.

Module TranslatorConfig.
(** The fields the pipeline reads.  [translation_model] and [temperature]
    only parametrise the remote call and are part of the oracle. *)
Record t := mk {
  adjust_font_size : bool;
  max_font_reduction : Q;
  min_font_size : Q;
  batch_size : Z
}.
(** The dataclass defaults. *)
Definition default : t := mk true 0.8 6.0 10.
End TranslatorConfig.

(** ** The world: object heap, translation cache, call counter *)

Record World := mkWorld {
  blocks : loc -> TextBlock.t;
  next_block : loc;
  boxes : loc -> BoundingBox.t;
  next_box : loc;
  translation_cache : gmap string string;
  api_calls : nat
}.

(** What is sent to [client.chat.completions.create].  The system prompt and
    the user prompt are built from exactly these arguments by
    [_get_system_prompt], [_create_translation_prompt] and
    [_create_batch_translation_prompt]. *)
Inductive Request :=
| SingleRequest (text source_lang target_lang : string) (context : option string)
| BatchRequest (texts : list string) (source_lang target_lang context : string).

(** The remote service: [api k r] is [response.choices[0].message.content]
    for the [k]-th call of the run, [None] when that call raises. *)
Definition Client := nat -> Request -> option string.

(** A state monad over the world. *)
Definition M (A : Type) : Type := World -> A * World.

Definition ret {A} (a : A) : M A := fun w => (a, w).

Definition bind {A B} (c : M A) (k : A -> M B) : M B :=
  fun w => let (a, w') := c w in k a w'.

Notation "x <- c ;; k" := (bind c (fun x => k))
  (at level 100, c at next level, right associativity).
Notation "c ;;; k" := (bind c (fun _ => k))
  (at level 100, right associativity).

Definition get : M World := fun w => (w, w).

(** [for x in l: body x] *)
Fixpoint for_each {A} (l : list A) (body : A -> M unit) : M unit :=
  match l with
  | [] => ret tt
  | x :: l' => body x ;;; for_each l' body
  end.

(** [block.translated_text = v] *)
Definition set_translated_text (block : loc) (v : string) : M unit :=
  fun w =>
    let b := blocks w block in
    (tt, mkWorld
           (<[block := TextBlock.mk (TextBlock.text b) (TextBlock.bbox b)
                         (TextBlock.font b) (TextBlock.size b)
                         (TextBlock.color b) (TextBlock.page b) v]> (blocks w))
           (next_block w) (boxes w) (next_box w)
           (translation_cache w) (api_calls w)).

(** [self.translation_cache[key] = v] *)
Definition cache_store (key v : string) : M unit :=
  fun w =>
    (tt, mkWorld (blocks w) (next_block w) (boxes w) (next_box w)
           (<[key := v]> (translation_cache w)) (api_calls w)).

(** One remote call: the oracle is asked and the call is counted. *)
Definition create_completion (api : Client) (r : Request) : M (option string) :=
  fun w =>
    (api (api_calls w) r,
     mkWorld (blocks w) (next_block w) (boxes w) (next_box w)
       (translation_cache w) (S (api_calls w))).

(** [block.text] and [not block.text.strip()] read through the heap. *)
Definition text_of (w : World) (block : loc) : string :=
  TextBlock.text (blocks w block).

Definition bbox_of (w : World) (block : loc) : BoundingBox.t :=
  boxes w (TextBlock.bbox (blocks w block)).

Definition has_text (w : World) (block : loc) : bool :=
  Py.truthy (Py.strip (text_of w block)).

(** ** [translator.py] *)

(** [f"{text}:{source_lang}:{target_lang}"] *)
Definition cache_key (text source_lang target_lang : string) : string :=
  text +:+ ":" +:+ source_lang +:+ ":" +:+ target_lang.

Definition ordinals : list string :=
  ["1."; "2."; "3."; "4."; "5."; "6."; "7."; "8."; "9."].

(** The [while len(translations) < expected_count] loop.  It runs at most
    [expected_count] times, which is the fuel it is given. *)
Fixpoint pad_loop (fuel : nat) (translations : list string) (expected_count : Z)
  : list string :=
  if (Z.of_nat (length translations) <? expected_count)%Z then
    match fuel with
    | O => translations
    | S fuel' => pad_loop fuel' (translations ++ [""]) expected_count
    end
  else translations.

(** [if cleaned.startswith(('1.', ..., '9.')): cleaned = cleaned[2:].strip()] *)
Definition strip_ordinal (cleaned : string) : string :=
  if Py.startswith_any cleaned ordinals
  then Py.strip (Py.drop_str 2 cleaned) else cleaned.

(** Body of the [for part in parts] loop. *)
Definition parse_step (translations : list string) (part : string) : list string :=
  let cleaned := Py.strip part in
  if Py.truthy cleaned then
    let cleaned := strip_ordinal cleaned in
    translations ++ [cleaned]
  else translations.

Definition _parse_batch_response (response : string) (expected_count : Z)
  : list string :=
  let parts := Py.split response "---" in
  let translations := fold_left parse_step parts [] in
  let translations := pad_loop (Z.to_nat expected_count) translations expected_count in
  Py.slice_to translations expected_count.

(** Python's [<] on pairs of floats: the first components decide unless
    they are equal. *)
Definition Qlt_bool (a b : Q) : bool := negb (Qle_bool b a).

Definition tuple_lt (a b : Q * Q) : bool :=
  if Qeq_bool (fst a) (fst b) then Qlt_bool (snd a) (snd b)
  else Qlt_bool (fst a) (fst b).

(** The [pages] dict of [translate_text_blocks], in insertion order:
    [if k not in pages: pages[k] = []] and then [pages[k].append(v)]. *)
Fixpoint dict_append (pages : list (Z * list loc)) (k : Z) (v : loc)
  : list (Z * list loc) :=
  match pages with
  | [] => [(k, [v])]
  | (k', vs) :: rest =>
      if (k' =? k)%Z then (k', vs ++ [v]) :: rest
      else (k', vs) :: dict_append rest k v
  end.

Section Translator.

Variable config : TranslatorConfig.t.
Variable api : Client.

Definition translate_text (text source_lang target_lang : string)
    (context : option string) : M string :=
  if negb (Py.truthy (Py.strip text)) then ret text
  else
    let key := cache_key text source_lang target_lang in
    w <- get ;;
    match translation_cache w !! key with
    | Some cached => ret cached
    | None =>
        response <- create_completion api
                      (SingleRequest text source_lang target_lang context) ;;
        match response with
        | Some content =>
            let translated_text := Py.strip content in
            cache_store key translated_text ;;;
            ret translated_text
        | None => ret text
        end
    end.

Definition _translate_batch_individually (batch : list loc)
    (source_lang target_lang : string) : M (list loc) :=
  for_each batch (fun block =>
    w <- get ;;
    t <- translate_text (text_of w block) source_lang target_lang None ;;
    set_translated_text block t) ;;;
  ret batch.

(** The assignment loop of [_translate_batch_with_context]; [text_index]
    is the loop's counter. *)
Fixpoint apply_translations (batch : list loc) (translations : list string)
    (source_lang target_lang : string) (text_index : nat) : M unit :=
  match batch with
  | [] => ret tt
  | block :: rest =>
      w <- get ;;
      (if has_text w block then
         if (text_index <? length translations)%nat then
           let tr := nth text_index translations "" in
           set_translated_text block tr ;;;
           cache_store (cache_key (text_of w block) source_lang target_lang) tr ;;;
           apply_translations rest translations source_lang target_lang
             (S text_index)
         else
           set_translated_text block (text_of w block) ;;;
           apply_translations rest translations source_lang target_lang text_index
       else
         set_translated_text block (text_of w block) ;;;
         apply_translations rest translations source_lang target_lang text_index)
  end.

(** [[block.text for block in batch if block.text.strip()]] *)
Definition batch_texts (w : World) (batch : list loc) : list string :=
  map (text_of w) (List.filter (has_text w) batch).

Definition _translate_batch_with_context (batch : list loc)
    (source_lang target_lang context : string) : M (list loc) :=
  w <- get ;;
  let texts := batch_texts w batch in
  match texts with
  | [] => ret batch
  | _ :: _ =>
      response <- create_completion api
                    (BatchRequest texts source_lang target_lang context) ;;
      match response with
      | Some content =>
          let response_text := Py.strip content in
          let translations :=
            _parse_batch_response response_text (Z.of_nat (length texts)) in
          apply_translations batch translations source_lang target_lang 0 ;;;
          ret batch
      | None => _translate_batch_individually batch source_lang target_lang
      end
  end.

(** The stripped, non-blank texts of [all_blocks[lo:hi]]. *)
Definition context_texts (w : World) (all_blocks : list loc) (lo hi : Z)
  : list string :=
  map (fun b => Py.strip (text_of w b))
      (List.filter (has_text w) (Py.slice all_blocks lo hi)).

Definition _build_context (w : World) (all_blocks : list loc)
    (current_index batch_size : Z) : string :=
  let start_context := Z.max 0 (current_index - 3) in
  let before := context_texts w all_blocks start_context current_index in
  let end_context :=
    Z.min (Z.of_nat (length all_blocks)) (current_index + batch_size + 3) in
  let after :=
    context_texts w all_blocks (current_index + batch_size) end_context in
  let context_parts := before ++ after in
  match context_parts with
  | [] => ""
  | _ :: _ => Py.join " " context_parts
  end.

(** [(b.bbox.y0, b.bbox.x0)] *)
Definition sort_key (w : World) (b : loc) : Q * Q :=
  (BoundingBox.y0 (bbox_of w b), BoundingBox.x0 (bbox_of w b)).

(** The body of [for i in range(0, len(sorted_blocks), batch_size)],
    iterated over the start indices. *)
Fixpoint translate_batches (sorted_blocks : list loc) (batch_size : Z)
    (source_lang target_lang : string) (starts : list Z)
    (translated_blocks : list loc) : M (list loc) :=
  match starts with
  | [] => ret translated_blocks
  | i :: rest =>
      let batch := Py.slice sorted_blocks i (i + batch_size) in
      w <- get ;;
      let context := _build_context w sorted_blocks i batch_size in
      batch_translated <-
        _translate_batch_with_context batch source_lang target_lang context ;;
      translate_batches sorted_blocks batch_size source_lang target_lang rest
        (translated_blocks ++ batch_translated)
  end.

(** [None] is the [ValueError] raised by [range] when [batch_size] is 0;
    it is raised before any block is touched. *)
Definition _translate_page_blocks (page_blocks : list loc)
    (source_lang target_lang : string) : M (option (list loc)) :=
  w <- get ;;
  let sorted_blocks := Py.sorted tuple_lt (sort_key w) page_blocks in
  let batch_size := TranslatorConfig.batch_size config in
  match Py.range3 0 (Z.of_nat (length sorted_blocks)) batch_size with
  | None => ret None
  | Some starts =>
      translated_blocks <-
        translate_batches sorted_blocks batch_size source_lang target_lang
          starts [] ;;
      ret (Some translated_blocks)
  end.

(** [for page_num, page_blocks in pages.items()] *)
Fixpoint translate_pages (pages : list (Z * list loc))
    (source_lang target_lang : string) (translated_blocks : list loc)
    : M (option (list loc)) :=
  match pages with
  | [] => ret (Some translated_blocks)
  | (page_num, page_blocks) :: rest =>
      page_translated <-
        _translate_page_blocks page_blocks source_lang target_lang ;;
      match page_translated with
      | None => ret None
      | Some page_translated =>
          translate_pages rest source_lang target_lang
            (translated_blocks ++ page_translated)
      end
  end.

Definition translate_text_blocks (text_blocks : list loc)
    (source_lang target_lang : string) : M (option (list loc)) :=
  w <- get ;;
  let pages :=
    fold_left (fun pages block =>
                 dict_append pages (TextBlock.page (blocks w block)) block)
              text_blocks [] in
  translate_pages pages source_lang target_lang [].

End Translator.

(** ** [utils.py]: text width and line splitting *)

Definition estimate_text_width (text : string) (font_size avg_char_width : Q) : Q :=
  (inject_Z (Z.of_nat (String.length text)) * font_size * avg_char_width)%Q.

(** The state of the wrapping loops: [(lines, current_line)]. *)
Definition split_step (max_width font_size avg_char_width : Q)
    (st : list string * list string) (word : string)
  : list string * list string :=
  let '(lines, current_line) := st in
  let test_line := Py.join " " (current_line ++ [word]) in
  if Qle_bool (estimate_text_width test_line font_size avg_char_width) max_width
  then (lines, current_line ++ [word])
  else
    match current_line with
    | _ :: _ => (lines ++ [Py.join " " current_line], [word])
    | [] => (lines ++ [word], current_line)
    end.

(** [if current_line: lines.append(' '.join(current_line))] *)
Definition flush_line (st : list string * list string) : list string :=
  let '(lines, current_line) := st in
  match current_line with
  | _ :: _ => lines ++ [Py.join " " current_line]
  | [] => lines
  end.

Definition split_text_to_fit (text : string) (max_width font_size avg_char_width : Q)
  : list string :=
  let words := Py.split_ws text in
  flush_line (fold_left (split_step max_width font_size avg_char_width) words ([], [])).

(** ** [reconstructor.py] *)

(** What PyMuPDF is asked to draw on a page. *)
Definition Point : Type := Q * Q.
Definition Rect : Type := Q * Q * Q * Q.
Definition Color : Type := Q * Q * Q.

Inductive DrawOp :=
| show_pdf_page (rect : Rect) (pno : Z)
| draw_line (p1 p2 : Point) (color : Color) (width : Q)
| insert_text (point : Point) (text : string) (fontsize : Q) (color : Color)
    (fontname : option string)
| draw_rect (rect : Rect) (fill : Color)
| write_text (pos : Point) (text : string) (fontfile : string) (fontsize : Q)
    (color : Color).

Module Page.
Record t := mk { width : Q; height : Q; ops : list DrawOp }.
End Page.

Definition Document : Type := list Page.t.

(** A saved batch: the page range in its file name
    [translated_pages_{start+1:03d}-{end:03d}.pdf], and its content. *)
Definition BatchFile : Type := (Z * Z) * Document.

(** [copy.deepcopy(text_block)]: a new block with a new bounding box. *)
Definition deepcopy (text_block : loc) : M loc :=
  fun w =>
    let b := blocks w text_block in
    let new_block := next_block w in
    let new_box := next_box w in
    (new_block,
     mkWorld
       (<[new_block := TextBlock.mk (TextBlock.text b) new_box (TextBlock.font b)
                         (TextBlock.size b) (TextBlock.color b) (TextBlock.page b)
                         (TextBlock.translated_text b)]> (blocks w))
       (S new_block)
       (<[new_box := boxes w (TextBlock.bbox b)]> (boxes w))
       (S new_box)
       (translation_cache w) (api_calls w)).

(** [block.bbox.x0 += dx] and [block.bbox.x1 += dx] *)
Definition shift_x0 (block : loc) (dx : Q) : M unit :=
  fun w =>
    let r := TextBlock.bbox (blocks w block) in
    let b := boxes w r in
    (tt, mkWorld (blocks w) (next_block w)
           (<[r := BoundingBox.mk (BoundingBox.x0 b + dx)%Q (BoundingBox.y0 b)
                     (BoundingBox.x1 b) (BoundingBox.y1 b)]> (boxes w))
           (next_box w) (translation_cache w) (api_calls w)).

Definition shift_x1 (block : loc) (dx : Q) : M unit :=
  fun w =>
    let r := TextBlock.bbox (blocks w block) in
    let b := boxes w r in
    (tt, mkWorld (blocks w) (next_block w)
           (<[r := BoundingBox.mk (BoundingBox.x0 b) (BoundingBox.y0 b)
                     (BoundingBox.x1 b + dx)%Q (BoundingBox.y1 b)]> (boxes w))
           (next_box w) (translation_cache w) (api_calls w)).

(** Python's [min] and [max] return the first of equal arguments. *)
Definition Qmin_py (a b : Q) : Q := if Qlt_bool b a then b else a.
Definition Qmax_py (a b : Q) : Q := if Qlt_bool a b then b else a.

Section Reconstructor.

Variable config : TranslatorConfig.t.
(** [self.unicode_font]: the font file found at start-up, if any. *)
Variable unicode_font : option string.

Definition _wrap_step (font_size max_width : Q)
    (st : list string * list string) (word : string)
  : list string * list string :=
  let '(lines, current_line) := st in
  let test_line := Py.join " " (current_line ++ [word]) in
  let estimated_width :=
    (inject_Z (Z.of_nat (String.length test_line)) * font_size * 0.55)%Q in
  if Qle_bool estimated_width max_width
  then (lines, current_line ++ [word])
  else
    match current_line with
    | _ :: _ => (lines ++ [Py.join " " current_line], [word])
    | [] => (lines ++ [word], current_line)
    end.

Definition _wrap_text (text : string) (font_size max_width : Q) : list string :=
  if negb (Py.truthy (Py.strip text)) then []
  else
    let words := Py.split_ws text in
    let lines := flush_line (fold_left (_wrap_step font_size max_width) words ([], [])) in
    match lines with
    | _ :: _ => lines
    | [] => [text]
    end.

(** The estimates of [_calculate_font_size] and its two tests. *)
Definition estimated_width (text : string) (original_size : Q) : Q :=
  let avg_char_width := 0.55%Q in
  (inject_Z (Z.of_nat (String.length text)) * original_size * avg_char_width)%Q.

Definition estimated_height (original_size : Q) : Q := (original_size * 1.2)%Q.

Definition available_width (bbox : BoundingBox.t) : Q :=
  (BoundingBox.width bbox * 0.95)%Q.

Definition available_height (bbox : BoundingBox.t) : Q :=
  (BoundingBox.height bbox * 0.90)%Q.

(** [estimated_width <= available_width and estimated_height <= available_height] *)
Definition fits (text : string) (bbox : BoundingBox.t) (original_size : Q) : bool :=
  Qle_bool (estimated_width text original_size) (available_width bbox)
  && Qle_bool (estimated_height original_size) (available_height bbox).

(** [min(width_scale, height_scale, 1.0)] *)
Definition fit_scale (text : string) (bbox : BoundingBox.t) (original_size : Q) : Q :=
  let width_scale :=
    if Qlt_bool 0 (estimated_width text original_size)
    then (available_width bbox / estimated_width text original_size)%Q
    else 1.0%Q in
  let height_scale :=
    if Qlt_bool 0 (estimated_height original_size)
    then (available_height bbox / estimated_height original_size)%Q
    else 1.0%Q in
  Qmin_py (Qmin_py width_scale height_scale) 1.0.

Definition _calculate_font_size (text : string) (bbox : BoundingBox.t)
    (original_size : Q) : Q :=
  if negb (Py.truthy (Py.strip text)) then original_size
  else if fits text bbox original_size then original_size
  else
    let scale := fit_scale text bbox original_size in
    let scale := Qmax_py scale (TranslatorConfig.max_font_reduction config) in
    let new_size := (original_size * scale)%Q in
    let new_size := Qmax_py new_size (TranslatorConfig.min_font_size config) in
    new_size.

(** The [for line in lines] loop of [_add_translated_text], with its
    [break]. *)
Fixpoint write_lines (lines : list string) (x y_offset line_height : Q)
    (y1 : Q) (fontfile : string) (font_size : Q) (color : Color)
  : list DrawOp :=
  match lines with
  | [] => []
  | line :: rest =>
      if Qlt_bool y1 y_offset then []
      else write_text (x, y_offset) line fontfile font_size color
           :: write_lines rest x (y_offset + line_height)%Q line_height y1
                fontfile font_size color
  end.

(** [text_block.translated_text or text_block.text] *)
Definition rendered_text (b : TextBlock.t) : string :=
  if Py.truthy (TextBlock.translated_text b)
  then TextBlock.translated_text b else TextBlock.text b.

(** The operations [_add_translated_text] performs on [page]. *)
Definition _add_translated_text (w : World) (text_block : loc) : list DrawOp :=
  let b := blocks w text_block in
  let text := rendered_text b in
  if negb (Py.truthy (Py.strip text)) then []
  else
    let font_size := TextBlock.size b in
    let color := TextBlock.color b in
    let bbox := boxes w (TextBlock.bbox b) in
    let font_size :=
      if TranslatorConfig.adjust_font_size config
      then _calculate_font_size text bbox font_size else font_size in
    let insert_y := (BoundingBox.y0 bbox + font_size * 0.75)%Q in
    let insert_point := ((BoundingBox.x0 bbox + 1)%Q, insert_y) in
    match unicode_font with
    | Some fontfile =>
        let max_width := (BoundingBox.width bbox - 2)%Q in
        let lines := _wrap_text text font_size max_width in
        let line_height := (font_size * 1.2)%Q in
        write_lines lines (fst insert_point) (snd insert_point) line_height
          (BoundingBox.y1 bbox) fontfile font_size color
    | None =>
        [insert_text insert_point text font_size color (Some "helv")]
    end.

(** [[b for b in text_blocks if b.page == page_num]], then
    [.sort(key=lambda b: (b.bbox.y0, b.bbox.x0))]. *)
Definition page_text_blocks (w : World) (text_blocks : list loc) (page_num : Z)
  : list loc :=
  Py.sorted tuple_lt (sort_key w)
    (List.filter (fun b => (TextBlock.page (blocks w b) =? page_num)%Z) text_blocks).

(** The [for text_block in page_text_blocks] loop of the side-by-side
    page; the result is what it draws. *)
Fixpoint draw_translations (blocks_of_page : list loc) (offset_x : Q)
  : M (list DrawOp) :=
  match blocks_of_page with
  | [] => ret []
  | text_block :: rest =>
      w <- get ;;
      let bb := bbox_of w text_block in
      let rect := ((BoundingBox.x0 bb + offset_x - 1)%Q,
                   (BoundingBox.y0 bb - 1)%Q,
                   (BoundingBox.x1 bb + offset_x + 1)%Q,
                   (BoundingBox.y1 bb + 1)%Q) in
      shifted_block <- deepcopy text_block ;;
      shift_x0 shifted_block offset_x ;;;
      shift_x1 shifted_block offset_x ;;;
      w' <- get ;;
      let drawn := _add_translated_text w' shifted_block in
      more <- draw_translations rest offset_x ;;
      ret (draw_rect rect (1, 1, 1)%Q :: drawn ++ more)
  end.

(** One iteration of [for page_info in pages_to_process]. *)
Definition side_by_side_page (text_blocks : list loc) (page_info : PageInfo.t)
  : M Page.t :=
  let page_num := PageInfo.page_number page_info in
  let pw := PageInfo.width page_info in
  let ph := PageInfo.height page_info in
  let separator_width := 10%Q in
  let new_width := (pw * 2 + separator_width)%Q in
  let new_height := ph in
  let sep_x := (pw + separator_width / 2)%Q in
  let label_font_size := 10%Q in
  let frame :=
    [ show_pdf_page (0, 0, pw, ph)%Q page_num;
      draw_line (sep_x, 0%Q) (sep_x, ph) (0.7, 0.7, 0.7)%Q 2;
      insert_text ((pw / 2 - 30)%Q, 15%Q) "Original" label_font_size
        (0.5, 0.5, 0.5)%Q None;
      insert_text ((pw + separator_width + pw / 2 - 30)%Q, 15%Q) "Translation"
        label_font_size (0.5, 0.5, 0.5)%Q None;
      show_pdf_page ((pw + separator_width)%Q, 0%Q, new_width, ph) page_num ] in
  w <- get ;;
  let blocks_of_page := page_text_blocks w text_blocks page_num in
  let offset_x := (pw + separator_width)%Q in
  drawn <- draw_translations blocks_of_page offset_x ;;
  ret (Page.mk new_width new_height (frame ++ drawn)).

Fixpoint compose_pages (text_blocks : list loc) (pages_to_process : list PageInfo.t)
  : M Document :=
  match pages_to_process with
  | [] => ret []
  | page_info :: rest =>
      page <- side_by_side_page text_blocks page_info ;;
      doc <- compose_pages text_blocks rest ;;
      ret (page :: doc)
  end.

(** The document that is saved to [output_path]. *)
Definition create_side_by_side_pdf (pages : list PageInfo.t)
    (text_blocks : list loc) (page_range : option (Z * Z)) : M Document :=
  let pages_to_process :=
    match page_range with
    | Some (start_page, end_page) =>
        List.filter (fun p => (start_page <=? PageInfo.page_number p)%Z
                              && (PageInfo.page_number p <? end_page)%Z) pages
    | None => pages
    end in
  compose_pages text_blocks pages_to_process.

(** The body of [for batch_idx in range(num_batches)]. *)
Fixpoint process_batches (pages : list PageInfo.t) (text_blocks : list loc)
    (pages_per_batch : Z) (batch_indices : list Z) : M (list BatchFile) :=
  match batch_indices with
  | [] => ret []
  | batch_idx :: rest =>
      let total_pages := Z.of_nat (length pages) in
      let start_page := batch_idx * pages_per_batch in
      let end_page := Z.min (start_page + pages_per_batch) total_pages in
      doc <- create_side_by_side_pdf pages text_blocks
               (Some (start_page, end_page)) ;;
      output_files <- process_batches pages text_blocks pages_per_batch rest ;;
      ret (((start_page + 1, end_page), doc) :: output_files)
  end.

(** [None] is the [ZeroDivisionError] of [pages_per_batch = 0]. *)
Definition process_large_pdf_in_batches (pages : list PageInfo.t)
    (text_blocks : list loc) (pages_per_batch : Z) : M (option (list BatchFile)) :=
  if (pages_per_batch =? 0)%Z then ret None
  else
    let total_pages := Z.of_nat (length pages) in
    let num_batches := (total_pages + pages_per_batch - 1) / pages_per_batch in
    output_files <-
      process_batches pages text_blocks pages_per_batch (Py.range num_batches) ;;
    ret (Some output_files).

(** [final_doc.insert_pdf(doc)] for every batch file, in list order. *)
Definition merge_batch_pdfs (batch_files : list BatchFile) : Document :=
  fold_left (fun final_doc f => final_doc ++ snd f) batch_files [].

(** The [for text_block in page_text_blocks] loop of the overlay page:
    the block itself is handed to [_add_translated_text]. *)
Fixpoint cover_translations (blocks_of_page : list loc) : M (list DrawOp) :=
  match blocks_of_page with
  | [] => ret []
  | text_block :: rest =>
      w <- get ;;
      let bb := bbox_of w text_block in
      let rect := ((BoundingBox.x0 bb - 1)%Q,
                   (BoundingBox.y0 bb - 1)%Q,
                   (BoundingBox.x1 bb + 1)%Q,
                   (BoundingBox.y1 bb + 1)%Q) in
      let drawn := _add_translated_text w text_block in
      more <- cover_translations rest ;;
      ret (draw_rect rect (1, 1, 1)%Q :: drawn ++ more)
  end.

Definition overlay_page (text_blocks : list loc) (page_info : PageInfo.t)
  : M Page.t :=
  let page_num := PageInfo.page_number page_info in
  let pw := PageInfo.width page_info in
  let ph := PageInfo.height page_info in
  w <- get ;;
  let blocks_of_page := page_text_blocks w text_blocks page_num in
  drawn <- cover_translations blocks_of_page ;;
  ret (Page.mk pw ph (show_pdf_page (0, 0, pw, ph)%Q page_num :: drawn)).

Fixpoint overlay_pages (text_blocks : list loc) (pages : list PageInfo.t)
  : M Document :=
  match pages with
  | [] => ret []
  | page_info :: rest =>
      page <- overlay_page text_blocks page_info ;;
      doc <- overlay_pages text_blocks rest ;;
      ret (page :: doc)
  end.

Definition create_translation_only_pdf (pages : list PageInfo.t)
    (text_blocks : list loc) : M Document :=
  overlay_pages text_blocks pages.

End Reconstructor.

(** [extract_all] of [extractor.py], as far as pages go: one [PageInfo] per
    page of the opened document, numbered from 0 in document order.
    [page_rects] gives the width, height and rotation of each page. *)
Definition extract_pages (page_rects : list (Q * Q * Z)) : list PageInfo.t :=
  imap (fun page_num r => PageInfo.mk (Z.of_nat page_num) (fst (fst r)) (snd (fst r)) (snd r))
       page_rects.

(** ** Vocabulary of the properties *)

(** A word: non-empty and free of whitespace. *)
Fixpoint no_space (s : string) : bool :=
  match s with
  | EmptyString => true
  | String c s' => negb (Py.isspace c) && no_space s'
  end.

Definition is_word (s : string) : Prop :=
  Py.is_empty s = false /\ no_space s = true.

(** The three moves of the greedy loop: extend the current line, close it
    and start a new one, or emit an over-long word on a line of its own. *)
Inductive wrap_move (word : string)
  : list string * list string -> list string * list string -> Prop :=
| move_extend lines current_line :
    wrap_move word (lines, current_line) (lines, current_line ++ [word])
| move_close lines current_line :
    current_line <> [] ->
    wrap_move word (lines, current_line)
      (lines ++ [Py.join " " current_line], [word])
| move_alone lines :
    wrap_move word (lines, []) (lines ++ [word], []).

(** The lines closed so far are the joins of consecutive non-empty groups of
    the words consumed so far; the words not yet on a line are the current
    line. *)
Definition wrap_inv (consumed : list string) (st : list string * list string) : Prop :=
  exists groups : list (list string),
    fst st = map (Py.join " ") groups
    /\ Forall (fun g => g <> []) groups
    /\ concat groups ++ snd st = consumed.

(** What a wrapping function owes its input: the lines are the joins of
    consecutive non-empty groups of the input's words. *)
Definition wraps (text : string) (lines : list string) : Prop :=
  exists groups : list (list string),
    lines = map (Py.join " ") groups
    /\ Forall (fun g => g <> []) groups
    /\ concat groups = Py.split_ws text.

(** [part.strip()] is not empty. *)
Definition nonblank (part : string) : bool := Py.truthy (Py.strip part).

(** The sentence of C2 as a property of the parser: the entry at position
    [i] is the cleaned [i]-th segment, so a segment that trims to nothing
    stands at its position as the empty string. *)
Definition segments_keep_their_place : Prop :=
  forall (response : string) (n : Z) (i : nat) (part : string),
    0 <= n -> Z.of_nat i < n ->
    Py.split response "---" !! i = Some part ->
    _parse_batch_response response n !! i = Some (strip_ordinal (Py.strip part)).

(** The first half of C4 as a property of [_calculate_font_size]. *)
Definition font_floor_on_all_inputs : Prop :=
  forall (config : TranslatorConfig.t) (text : string) (bbox : BoundingBox.t)
         (original_size : Q),
    (TranslatorConfig.min_font_size config
     <= _calculate_font_size config text bbox original_size)%Q.

(** [b'] differs from [b] at most in its [translated_text]. *)
Definition same_source (b b' : TextBlock.t) : Prop :=
  TextBlock.text b' = TextBlock.text b
  /\ TextBlock.bbox b' = TextBlock.bbox b
  /\ TextBlock.font b' = TextBlock.font b
  /\ TextBlock.size b' = TextBlock.size b
  /\ TextBlock.color b' = TextBlock.color b
  /\ TextBlock.page b' = TextBlock.page b.

(** From [w] to [w'] nothing was written to the heap but the
    [translated_text] of blocks in [touched]; no object was created. *)
Record writes_translations (touched : list loc) (w w' : World) : Prop := {
  wt_source : forall l, same_source (blocks w l) (blocks w' l);
  wt_other : forall l, l ∉ touched -> blocks w' l = blocks w l;
  wt_boxes : boxes w' = boxes w;
  wt_next_block : next_block w' = next_block w;
  wt_next_box : next_box w' = next_box w
}.

(** From [w] to [w'] every object that existed in [w] is as it was; the
    cache and the call counter are as they were. *)
Record preserves_heap (w w' : World) : Prop := {
  ph_blocks : forall l, (l < next_block w)%nat -> blocks w' l = blocks w l;
  ph_boxes : forall r, (r < next_box w)%nat -> boxes w' r = boxes w r;
  ph_next_block : (next_block w <= next_block w')%nat;
  ph_next_box : (next_box w <= next_box w')%nat;
  ph_cache : translation_cache w' = translation_cache w;
  ph_calls : api_calls w' = api_calls w
}.

(** [TextBlock(text=..., bbox=BoundingBox.from_tuple(...), ...)] as the
    extractor calls it: two new objects, [translated_text] at its default. *)
Definition new_text_block (text : string) (bbox : BoundingBox.t) (font : string)
    (size : Q) (color : Q * Q * Q) (page : Z) : M loc :=
  fun w =>
    let new_block := next_block w in
    let new_box := next_box w in
    (new_block,
     mkWorld
       (<[new_block := TextBlock.mk text new_box font size color page ""]> (blocks w))
       (S new_block)
       (<[new_box := bbox]> (boxes w))
       (S new_box)
       (translation_cache w) (api_calls w)).

(** A run starts with no objects, an empty cache and no call made. *)
Definition empty_world : World :=
  mkWorld (fun _ => TextBlock.mk "" 0 "" 0 (0, 0, 0)%Q 0 "") 0
          (fun _ => BoundingBox.mk 0 0 0 0) 0 ∅ 0.

(** Three lines of one page, out of reading order, the second one blank. *)
Definition sample_world : World :=
  snd ((new_text_block "world" (BoundingBox.mk 10 100 90 112) "Arial" 12 (0, 0, 0)%Q 0 ;;;
        new_text_block "  " (BoundingBox.mk 10 75 90 87) "Arial" 12 (0, 0, 0)%Q 0 ;;;
        new_text_block "hello" (BoundingBox.mk 10 50 90 62) "Arial" 12 (0, 0, 0)%Q 0)
         empty_world).

(** Services used in examples: one that is down, one that answers every
    request with the same reply, one whose first call fails. *)
Definition api_down : Client := fun _ _ => None.
Definition api_const (reply : string) : Client := fun _ _ => Some reply.
Definition api_flaky (reply : string) : Client :=
  fun k _ => match k with O => None | S _ => Some reply end.

(** A service that fails every batch request and knows one text only: a
    single-text request for [text] is answered with [reply]. *)
Definition api_knows (text reply : string) : Client :=
  fun _ r =>
    match r with
    | SingleRequest t _ _ _ => if String.eqb t text then Some reply else None
    | BatchRequest _ _ _ _ => None
    end.

(** Reading order: [a] is not after [b] under the key [(y0, x0)]. *)
Definition reads_before (w : World) (a b : loc) : Prop :=
  tuple_lt (sort_key w b) (sort_key w a) = false.

(** The start index of the [k]-th batch of a page, and the world the first
    [k] iterations of the batch loop of [_translate_page_blocks] leave. *)
Definition batch_start (batch_size : Z) (k : nat) : Z := Z.of_nat k * batch_size.

Definition after_batches (api : Client) (sorted_blocks : list loc) (batch_size : Z)
    (source_lang target_lang : string) (k : nat) (w : World) : World :=
  snd (translate_batches api sorted_blocks batch_size source_lang target_lang
         (map (batch_start batch_size) (seq 0 k)) [] w).

(** The world the loop of [_translate_batch_individually] has reached
    from [w] when the first [i] blocks of [batch] have been retried. *)
Definition after_retries (api : Client) (batch : list loc)
    (source_lang target_lang : string) (i : nat) (w : World) : World :=
  snd (_translate_batch_individually api (take i batch) source_lang target_lang w).

(** The sentence of C7 as a property of [translate_text]: two calls with
    the same arguments return the same text and cost at most one remote
    call between them. *)
Definition cache_idempotent : Prop :=
  forall (api : Client) (text source_lang target_lang : string)
         (context : option string) (w : World),
    Py.truthy (Py.strip text) = true ->
    let first := translate_text api text source_lang target_lang context w in
    let second := translate_text api text source_lang target_lang context (snd first) in
    fst second = fst first
    /\ (api_calls (snd second) <= S (api_calls w))%nat.

(** The pages of [l] are numbered consecutively from [o]. *)
Definition numbered (o : Z) (l : list PageInfo.t) : Prop :=
  forall (i : nat) (p : PageInfo.t),
    l !! i = Some p -> PageInfo.page_number p = o + Z.of_nat i.

(** The page of the original that an output page shows on its left. *)
Definition shown_page (page : Page.t) : option Z :=
  match Page.ops page with
  | show_pdf_page _ pno :: _ => Some pno
  | _ => None
  end.

(** ** The rest of [utils.py] *)

(** The other members of [BoundingBox]. *)
Module Geometry.

Definition area (self : BoundingBox.t) : Q :=
  (BoundingBox.width self * BoundingBox.height self)%Q.

Definition center (self : BoundingBox.t) : Q * Q :=
  (((BoundingBox.x0 self + BoundingBox.x1 self) / 2)%Q,
   ((BoundingBox.y0 self + BoundingBox.y1 self) / 2)%Q).

Definition to_tuple (self : BoundingBox.t) : Q * Q * Q * Q :=
  (BoundingBox.x0 self, BoundingBox.y0 self, BoundingBox.x1 self, BoundingBox.y1 self).

Definition from_tuple (bbox : Q * Q * Q * Q) : BoundingBox.t :=
  let '(b0, b1, b2, b3) := bbox in BoundingBox.mk b0 b1 b2 b3.

Definition overlaps (self other : BoundingBox.t) : bool :=
  negb (Qlt_bool (BoundingBox.x1 self) (BoundingBox.x0 other)
        || Qlt_bool (BoundingBox.x1 other) (BoundingBox.x0 self)
        || Qlt_bool (BoundingBox.y1 self) (BoundingBox.y0 other)
        || Qlt_bool (BoundingBox.y1 other) (BoundingBox.y0 self)).

Definition contains_point (self : BoundingBox.t) (x y : Q) : bool :=
  Qle_bool (BoundingBox.x0 self) x && Qle_bool x (BoundingBox.x1 self)
  && Qle_bool (BoundingBox.y0 self) y && Qle_bool y (BoundingBox.y1 self).

End Geometry.

(** [s[:n]] on a string, with Python's reading of a negative bound. *)
Fixpoint take_str (n : nat) (s : string) : string :=
  match n, s with
  | S n', String c s' => String c (take_str n' s')
  | _, _ => EmptyString
  end.

Definition str_slice_to (s : string) (n : Z) : string :=
  if (0 <=? n)%Z then take_str (Z.to_nat n) s
  else take_str (Z.to_nat (Z.of_nat (String.length s) + n)) s.

Definition vendor_prefixes : list string := ["ABCDEE+"; "BCDFEE+"; "CDFGHI+"].

(** Body of [for prefix in [...]] in [normalize_font_name]. *)
Definition strip_prefix (font_name prefix : string) : string :=
  if String.prefix prefix font_name
  then Py.drop_str (String.length prefix) font_name
  else font_name.

Definition normalize_font_name (font_name : string) : string :=
  let font_name := fold_left strip_prefix vendor_prefixes font_name in
  let base_name := hd "" (Py.split (hd "" (Py.split font_name ",")) "-") in
  base_name.

Definition truncate_text (text : string) (max_length : Z) : string :=
  if (Z.of_nat (String.length text) <=? max_length)%Z then text
  else str_slice_to text (max_length - 3) +:+ "...".

(** ** The rest of [config.py] *)

(** [str.lower] for one character (code points 0..255): the ASCII capitals
    and the Latin-1 capitals other than the multiplication sign. *)
Definition lower_char (c : ascii) : ascii :=
  let n := N_of_ascii c in
  if (((65 <=? n) && (n <=? 90))
      || ((192 <=? n) && (n <=? 222) && negb (n =? 215)))%N
  then ascii_of_N (n + 32) else c.

Fixpoint lower (s : string) : string :=
  match s with
  | EmptyString => EmptyString
  | String c s' => String (lower_char c) (lower s')
  end.

(** The items of the [LANGUAGE_CODES] literal, in source order. *)
Definition LANGUAGE_CODES_items : list (string * string) :=
  [ ("english", "en"); ("russian", "ru"); ("spanish", "es"); ("french", "fr");
    ("german", "de"); ("italian", "it"); ("portuguese", "pt"); ("chinese", "zh");
    ("japanese", "ja"); ("korean", "ko"); ("arabic", "ar"); ("hindi", "hi");
    ("turkish", "tr"); ("polish", "pl"); ("dutch", "nl"); ("swedish", "sv");
    ("norwegian", "no"); ("danish", "da"); ("finnish", "fi"); ("czech", "cs");
    ("greek", "el"); ("hebrew", "he"); ("thai", "th"); ("vietnamese", "vi");
    ("indonesian", "id"); ("malay", "ms"); ("ukrainian", "uk") ].

(** A dict built by assigning the items in order: a later item wins. *)
Definition dict_of (items : list (string * string)) : gmap string string :=
  fold_left (fun d kv => <[fst kv := snd kv]> d) items ∅.

Definition LANGUAGE_CODES : gmap string string := dict_of LANGUAGE_CODES_items.

(** [{v: k for k, v in LANGUAGE_CODES.items()}] *)
Definition LANGUAGE_NAMES : gmap string string :=
  dict_of (map (fun kv => (snd kv, fst kv)) LANGUAGE_CODES_items).

Definition get_language_code (language : string) : string :=
  let language_lower := lower language in
  match LANGUAGE_CODES !! language_lower with
  | Some code => code
  | None =>
      if bool_decide (language ∈ map snd LANGUAGE_CODES_items) then language
      else language
  end.

(** [LANGUAGE_NAMES.get(code, code)] *)
Definition get_language_name (code : string) : string :=
  default code (LANGUAGE_NAMES !! code).

(** ** [extractor.py]: colours *)

(** [color_int >> 16 & 0xFF] and so on, each over 255.0. *)
Definition _int_to_rgb (color_int : Z) : Q * Q * Q :=
  let r := (inject_Z (Z.land (Z.shiftr color_int 16) 255) / 255)%Q in
  let g := (inject_Z (Z.land (Z.shiftr color_int 8) 255) / 255)%Q in
  let b := (inject_Z (Z.land color_int 255) / 255)%Q in
  (r, g, b).

(** ** Vocabulary of the further properties *)

(** [c in s] *)
Fixpoint contains_char (c : ascii) (s : string) : bool :=
  match s with
  | EmptyString => false
  | String a s' => if Ascii.eqb a c then true else contains_char c s'
  end.

(** A rectangle whose corners are in order. *)
Definition well_formed (b : BoundingBox.t) : Prop :=
  (BoundingBox.x0 b <= BoundingBox.x1 b)%Q /\ (BoundingBox.y0 b <= BoundingBox.y1 b)%Q.

(** The [pages] dict that [translate_text_blocks] builds before it
    translates: the blocks of each page, pages in order of first
    appearance. *)
Definition group_by_page (w : World) (text_blocks : list loc) : list (Z * list loc) :=
  fold_left (fun pages block =>
               dict_append pages (TextBlock.page (blocks w block)) block)
            text_blocks [].

(** A world in which [key] is already in the translation cache. *)
Definition with_cached (key v : string) (w : World) : World :=
  snd (cache_store key v w).

(** A line is acceptable for a width limit when its estimate is within the
    limit or when it is a single word. *)
Definition line_fits (width : string -> Q) (max_width : Q) (line : string) : Prop :=
  (width line <= max_width)%Q \/ is_word line.

(** The width estimate of [_wrap_text]. *)
Definition wrap_width (font_size : Q) (line : string) : Q :=
  (inject_Z (Z.of_nat (String.length line)) * font_size * 0.55)%Q.

(** The value of [y_offset] after [k] rounds of [y_offset += line_height]. *)
Fixpoint nth_baseline (y_offset line_height : Q) (k : nat) : Q :=
  match k with
  | O => y_offset
  | S k' => nth_baseline (y_offset + line_height)%Q line_height k'
  end.

(** The rectangles that a list of operations fills, in drawing order. *)
Fixpoint drawn_rects (ops : list DrawOp) : list Rect :=
  match ops with
  | [] => []
  | draw_rect rect _ :: ops' => rect :: drawn_rects ops'
  | _ :: ops' => drawn_rects ops'
  end.

(** The rectangle that hides a block on a page whose content is moved
    [offset_x] to the right. *)
Definition cover_rect (bb : BoundingBox.t) (offset_x : Q) : Rect :=
  ((BoundingBox.x0 bb + offset_x - 1)%Q, (BoundingBox.y0 bb - 1)%Q,
   (BoundingBox.x1 bb + offset_x + 1)%Q, (BoundingBox.y1 bb + 1)%Q).

(** The block and its bounding box are objects of the heap of [w]. *)
Definition allocated (w : World) (block : loc) : Prop :=
  (block < next_block w)%nat /\ (TextBlock.bbox (blocks w block) < next_box w)%nat.

(** ** [extractor.py]: text lines *)

(** A span of [page.get_text("dict")]; a key the dict does not have is
    [None]. *)
Module Span.
Record t := mk {
  text : option string;
  font : option string;
  size : option Q;
  color : option Z;
  bbox : option Rect
}.
End Span.

(** A block of the dict: its ["type"] and, for each of its lines, the
    spans of the line. *)
Module Block.
Record t := mk { type : option Z; lines : list (list Span.t) }.
End Block.

(** The variables of the loop over the spans of one line. *)
Record LineVars := mkLineVars {
  line_text : string;
  line_bbox : option Rect;
  line_font : option string;
  line_size : option Q;
  line_color : option Color
}.

(** Body of [for span in line.get("spans", [])]. *)
Definition span_step (st : LineVars) (span : Span.t) : LineVars :=
  let span_text := default "" (Span.text span) in
  if negb (Py.truthy (Py.strip span_text)) then st
  else
    let line_text := line_text st +:+ span_text in
    let '(line_font, line_size, line_color) :=
      match line_font st with
      | None =>
          (Some (normalize_font_name (default "Arial" (Span.font span))),
           Some (default 12.0%Q (Span.size span)),
           Some (_int_to_rgb (default 0 (Span.color span))))
      | Some _ => (line_font st, line_size st, line_color st)
      end in
    let line_bbox :=
      match Span.bbox span with
      | Some (s0, s1, s2, s3) =>
          match line_bbox st with
          | None => Some (s0, s1, s2, s3)
          | Some (l0, l1, l2, l3) =>
              Some (Qmin_py l0 s0, Qmin_py l1 s1, Qmax_py l2 s2, Qmax_py l3 s3)
          end
      | None => line_bbox st
      end in
    mkLineVars line_text line_bbox line_font line_size line_color.

(** [line_font or "Arial"] and [line_size or 12.0] *)
Definition or_font (line_font : option string) : string :=
  match line_font with
  | Some f => if Py.truthy f then f else "Arial"
  | None => "Arial"
  end.

Definition or_size (line_size : option Q) : Q :=
  match line_size with
  | Some s => if Qeq_bool s 0 then 12.0%Q else s
  | None => 12.0%Q
  end.

(** Body of [for line in block.get("lines", [])]: the blocks it appends to
    [text_blocks]. *)
Definition extract_line (page_num : Z) (spans : list Span.t) : M (list loc) :=
  let st := fold_left span_step spans (mkLineVars "" None None None None) in
  match line_bbox st with
  | Some bbox =>
      if Py.truthy (Py.strip (line_text st))
      then
        text_block <-
          new_text_block (line_text st) (Geometry.from_tuple bbox)
            (or_font (line_font st)) (or_size (line_size st))
            (default (0.0, 0.0, 0.0)%Q (line_color st)) page_num ;;
        ret [text_block]
      else ret []
  | None => ret []
  end.

Fixpoint extract_lines (page_num : Z) (lines : list (list Span.t)) : M (list loc) :=
  match lines with
  | [] => ret []
  | spans :: rest =>
      new_blocks <- extract_line page_num spans ;;
      more <- extract_lines page_num rest ;;
      ret (new_blocks ++ more)
  end.

(** [extract_text_blocks(page_num)], given the blocks of the page's text
    dict. *)
Fixpoint extract_text_blocks (page_num : Z) (dict_blocks : list Block.t)
  : M (list loc) :=
  match dict_blocks with
  | [] => ret []
  | block :: rest =>
      match Block.type block with
      | Some 0 =>
          new_blocks <- extract_lines page_num (Block.lines block) ;;
          more <- extract_text_blocks page_num rest ;;
          ret (new_blocks ++ more)
      | _ => extract_text_blocks page_num rest
      end
  end.

(** A page of the opened document: width, height and rotation, and the
    blocks of its text dict. *)
Definition SourcePage : Type := (Q * Q * Z) * list Block.t.

(** The loop [for page_num in range(self.page_count)] of [extract_all],
    from page [page_num] on: the [pages] and the [text_blocks] it
    collects. *)
Fixpoint extract_all_from (page_num : nat) (doc : list SourcePage)
  : M (list PageInfo.t * list loc) :=
  match doc with
  | [] => ret ([], [])
  | (rect, dict_blocks) :: rest =>
      let page_info :=
        PageInfo.mk (Z.of_nat page_num) (fst (fst rect)) (snd (fst rect)) (snd rect) in
      text_blocks <- extract_text_blocks (Z.of_nat page_num) dict_blocks ;;
      more <- extract_all_from (S page_num) rest ;;
      ret (page_info :: fst more, text_blocks ++ snd more)
  end.

Definition extract_all (doc : list SourcePage) : M (list PageInfo.t * list loc) :=
  extract_all_from 0 doc.

(** [span.get("text", "")], and the spans of a line that are not blank:
    the only ones the extractor looks at. *)
Definition span_text (span : Span.t) : string := default "" (Span.text span).

Definition contributes (span : Span.t) : bool :=
  Py.truthy (Py.strip (span_text span)).

(** The texts of the spans, one after the other. *)
Definition joined_text (spans : list Span.t) : string :=
  fold_right String.append "" (map span_text spans).

(** The rectangle [r] lies inside the box [outer]. *)
Definition encloses (outer : BoundingBox.t) (r : Rect) : Prop :=
  let '(r0, r1, r2, r3) := r in
  (BoundingBox.x0 outer <= r0)%Q /\ (BoundingBox.y0 outer <= r1)%Q
  /\ (r2 <= BoundingBox.x1 outer)%Q /\ (r3 <= BoundingBox.y1 outer)%Q.

(** A block as the extractor makes it: text that is not blank, no
    translation yet, a font name and a size that are not empty or zero, and
    a page for which [on_page] holds. *)
Definition extracted (on_page : Z -> Prop) (b : TextBlock.t) : Prop :=
  Py.truthy (Py.strip (TextBlock.text b)) = true
  /\ TextBlock.translated_text b = ""
  /\ TextBlock.font b <> ""
  /\ ~ (TextBlock.size b == 0)%Q
  /\ on_page (TextBlock.page b).

(** A run from [w] that returned [fst r] created exactly these blocks, one
    new block and one new box each, in order, all of them [extracted], and
    left what was there before as it was. *)
Definition creates (on_page : Z -> Prop) (w : World) (r : list loc * World) : Prop :=
  fst r = seq (next_block w) (length (fst r))
  /\ map (fun l => TextBlock.bbox (blocks (snd r) l)) (fst r)
     = seq (next_box w) (length (fst r))
  /\ next_block (snd r) = (next_block w + length (fst r))%nat
  /\ next_box (snd r) = (next_box w + length (fst r))%nat
  /\ preserves_heap w (snd r)
  /\ Forall (fun l => extracted on_page (blocks (snd r) l)) (fst r).

(** * Properties *)

(** ** Strings *)

Example split_ex1 : Py.split "a------b" "---" = ["a"; ""; "b"].
Proof. reflexivity. Qed.

Example split_ex2 : Py.split "----" "---" = [""; "-"].
Proof. reflexivity. Qed.

Example split_ex3 : Py.split "" "---" = [""].
Proof. reflexivity. Qed.

Example split_ws_ex : Py.split_ws "  ab  c d " = ["ab"; "c"; "d"].
Proof. reflexivity. Qed.

Example strip_ex : Py.strip "  a b  " = "a b".
Proof. reflexivity. Qed.

Lemma split_ws_words s : Forall is_word (Py.split_ws s).
Proof.
  induction s as [|c s IH]; simpl; [constructor|].
  destruct (Py.isspace c) eqn:Hc; [exact IH|].
  assert (Hone : is_word (String c EmptyString)).
  { split; [reflexivity|]. simpl. by rewrite Hc. }
  destruct (Py.starts_word s).
  - destruct (Py.split_ws s) as [|w ws]; [by constructor|].
    inversion IH as [|? ? [Hw1 Hw2] Hws]; subst.
    constructor; [|exact Hws].
    split; [reflexivity|]. simpl. by rewrite Hc, Hw2.
  - by constructor.
Qed.

Lemma split_ws_word w : is_word w -> Py.split_ws w = [w].
Proof.
  induction w as [|c w IH]; intros [Hne Hns]; [discriminate|].
  simpl in *. apply andb_true_iff in Hns as [Hc Hns].
  apply negb_true_iff in Hc. rewrite Hc.
  destruct w as [|c' w]; [reflexivity|].
  assert (Hw : is_word (String c' w)) by (split; [reflexivity|exact Hns]).
  rewrite (IH Hw).
  simpl in Hns. apply andb_true_iff in Hns as [Hc' _].
  simpl. by rewrite Hc'.
Qed.

Lemma split_ws_word_then_space w c rest :
  is_word w -> Py.isspace c = true ->
  Py.split_ws (w +:+ String c rest) = w :: Py.split_ws rest.
Proof.
  intros Hw Hsp. induction w as [|a w IH]; destruct Hw as [Hne Hns]; [discriminate|].
  simpl in Hns. apply andb_true_iff in Hns as [Ha Hns].
  apply negb_true_iff in Ha.
  destruct w as [|a' w].
  - simpl. by rewrite Ha, Hsp.
  - assert (Hw : is_word (String a' w)) by (split; [reflexivity|exact Hns]).
    specialize (IH Hw).
    change (String a (String a' w) +:+ String c rest)
      with (String a (String a' w +:+ String c rest)).
    cbn [Py.split_ws]. rewrite Ha, IH.
    simpl in Hns. apply andb_true_iff in Hns as [Ha' _].
    simpl. by rewrite Ha'.
Qed.

Lemma space_is_space : Py.isspace " "%char = true.
Proof. reflexivity. Qed.

Lemma split_ws_join ws :
  Forall is_word ws -> Py.split_ws (Py.join " " ws) = ws.
Proof.
  induction ws as [|w ws IH]; intros Hall; [reflexivity|].
  inversion Hall as [|? ? Hw Hws]; subst.
  destruct ws as [|w2 ws].
  - simpl. by apply split_ws_word.
  - change (Py.join " " (w :: w2 :: ws))
      with (w +:+ String " "%char (Py.join " " (w2 :: ws))).
    rewrite (split_ws_word_then_space _ _ _ Hw space_is_space).
    by rewrite (IH Hws).
Qed.

(** A text is blank for [strip] exactly when [split] finds no word in it. *)
Lemma rstrip_empty_iff s :
  Py.is_empty (Py.rstrip s) = true <-> Py.split_ws s = [].
Proof.
  induction s as [|c s IH]; simpl; [done|].
  destruct (Py.isspace c) eqn:Hc; simpl.
  - destruct (Py.is_empty (Py.rstrip s)) eqn:He; simpl.
    + split; [intros _; by apply IH|done].
    + split; [done|]. intros H. apply IH in H. congruence.
  - split; [done|].
    destruct (Py.starts_word s); [destruct (Py.split_ws s)|]; done.
Qed.

Lemma lstrip_split_ws s : Py.split_ws (Py.lstrip s) = Py.split_ws s.
Proof.
  induction s as [|c s IH]; [reflexivity|].
  simpl. destruct (Py.isspace c) eqn:Hc; [exact IH|].
  simpl. by rewrite Hc.
Qed.

Lemma strip_blank_iff s :
  Py.truthy (Py.strip s) = false <-> Py.split_ws s = [].
Proof.
  unfold Py.truthy, Py.strip. rewrite negb_false_iff, rstrip_empty_iff.
  by rewrite lstrip_split_ws.
Qed.

(** ** Word wrapping *)

Lemma split_step_move max_width font_size avg_char_width st word :
  wrap_move word st (split_step max_width font_size avg_char_width st word).
Proof.
  destruct st as [lines cur]. unfold split_step.
  destruct (Qle_bool _ _); [constructor|].
  destruct cur; [constructor|]. by constructor.
Qed.

Lemma _wrap_step_move font_size max_width st word :
  wrap_move word st (_wrap_step font_size max_width st word).
Proof.
  destruct st as [lines cur]. unfold _wrap_step.
  destruct (Qle_bool _ _); [constructor|].
  destruct cur; [constructor|]. by constructor.
Qed.

Lemma wrap_inv_move consumed st st' word :
  wrap_inv consumed st -> wrap_move word st st' ->
  wrap_inv (consumed ++ [word]) st'.
Proof.
  intros (groups & Hl & Hne & Hc) Hm.
  destruct Hm as [lines cur|lines cur Hcur|lines]; simpl in *; subst.
  - exists groups. simpl. split_and!; [done..|]. by rewrite app_assoc.
  - exists (groups ++ [cur]). simpl. split_and!.
    + by rewrite map_app.
    + apply Forall_app; split; [done|]. by constructor.
    + rewrite concat_app. simpl. by rewrite app_nil_r.
  - exists (groups ++ [[word]]). simpl. split_and!.
    + by rewrite map_app.
    + apply Forall_app; split; [done|]. by constructor.
    + rewrite concat_app. simpl. by rewrite !app_nil_r.
Qed.

Lemma wrap_inv_fold (step : list string * list string -> string -> list string * list string) :
  (forall st word, wrap_move word st (step st word)) ->
  forall words consumed st,
    wrap_inv consumed st ->
    wrap_inv (consumed ++ words) (fold_left step words st).
Proof.
  intros Hstep words. induction words as [|word words IH]; intros consumed st Hinv.
  - by rewrite app_nil_r.
  - simpl. replace (consumed ++ word :: words) with ((consumed ++ [word]) ++ words)
      by (by rewrite <- app_assoc).
    apply IH. eapply wrap_inv_move; [exact Hinv|apply Hstep].
Qed.

Lemma wrap_inv_flush words st :
  wrap_inv words st ->
  exists groups : list (list string),
    flush_line st = map (Py.join " ") groups
    /\ Forall (fun g => g <> []) groups
    /\ concat groups = words.
Proof.
  destruct st as [lines cur]. intros (groups & Hl & Hne & Hc). simpl in *. subst.
  destruct cur as [|w cur].
  - exists groups. by rewrite app_nil_r.
  - exists (groups ++ [w :: cur]). split_and!.
    + by rewrite map_app.
    + apply Forall_app; split; [done|]. by constructor.
    + rewrite concat_app. simpl. by rewrite app_nil_r.
Qed.

Lemma wraps_flush_fold step text :
  (forall st word, wrap_move word st (step st word)) ->
  wraps text (flush_line (fold_left step (Py.split_ws text) ([], []))).
Proof.
  intros Hstep. apply wrap_inv_flush.
  apply (wrap_inv_fold step Hstep (Py.split_ws text) [] ([], [])).
  exists []. by simpl.
Qed.

Lemma wraps_words text lines :
  wraps text lines ->
  concat (map Py.split_ws lines) = Py.split_ws text.
Proof.
  intros (groups & -> & _ & Hc).
  pose proof (split_ws_words text) as Hw. rewrite <- Hc in Hw. rewrite <- Hc.
  clear Hc. induction groups as [|g groups IH]; [reflexivity|].
  simpl in *. apply Forall_app in Hw as [Hg Hgs].
  by rewrite (split_ws_join g Hg), (IH Hgs).
Qed.

Lemma wraps_nonempty text lines :
  wraps text lines -> Py.split_ws text <> [] -> lines <> [].
Proof.
  intros (groups & -> & _ & Hc) Hne. by destruct groups.
Qed.

Lemma split_text_to_fit_wraps text max_width font_size avg_char_width :
  wraps text (split_text_to_fit text max_width font_size avg_char_width).
Proof. apply wraps_flush_fold, split_step_move. Qed.

Lemma _wrap_text_wraps text font_size max_width :
  wraps text (_wrap_text text font_size max_width).
Proof.
  unfold _wrap_text.
  destruct (Py.truthy (Py.strip text)) eqn:Hb; simpl.
  - pose proof (wraps_flush_fold (_wrap_step font_size max_width) text
                  (_wrap_step_move font_size max_width)) as Hw.
    destruct (flush_line _) eqn:Hf; [|exact Hw].
    exfalso. eapply wraps_nonempty; [exact Hw| |reflexivity].
    intros Hnil. apply strip_blank_iff in Hnil. congruence.
  - apply strip_blank_iff in Hb. exists []. by rewrite Hb.
Qed.

(** C10. Both word-wrapping functions, [_wrap_text] and [split_text_to_fit],
    lose, duplicate and reorder nothing: the whitespace-split words of the
    output lines, concatenated in order, are exactly the whitespace-split
    words of the input; the output is non-empty whenever the input has a
    word; and every line is the join of whole consecutive input words, so
    no word is split across two lines. *)
Theorem wrap_preserves_words :
  forall (text : string) (max_width font_size avg_char_width : Q),
    let wrapped := _wrap_text text font_size max_width in
    let fitted := split_text_to_fit text max_width font_size avg_char_width in
    concat (map Py.split_ws wrapped) = Py.split_ws text
    /\ concat (map Py.split_ws fitted) = Py.split_ws text
    /\ (Py.split_ws text <> [] -> wrapped <> [] /\ fitted <> [])
    /\ wraps text wrapped
    /\ wraps text fitted.
Proof.
  intros text max_width font_size avg_char_width wrapped fitted.
  pose proof (_wrap_text_wraps text font_size max_width) as Hw.
  pose proof (split_text_to_fit_wraps text max_width font_size avg_char_width) as Hf.
  split_and!; try done.
  - by apply wraps_words.
  - by apply wraps_words.
  - intros Hne. split; eapply wraps_nonempty; eauto.
Qed.

Lemma wrap_preserves_words_witness :
  Py.split_ws "hello wide world" <> []
  /\ _wrap_text "hello wide world" 12 40 <> []
  /\ split_text_to_fit "hello wide world" 40 12 0.5 <> [].
Proof.
  assert (Hne : Py.split_ws "hello wide world" <> []) by discriminate.
  split; [exact Hne|].
  exact (proj1 (proj2 (proj2 (wrap_preserves_words "hello wide world" 40 12 0.5))) Hne).
Defined.

Example wrap_ex :
  _wrap_text "hello wide world" 12 40 = ["hello"; "wide"; "world"]
  /\ _wrap_text "hello wide world" 6 40 = ["hello wide"; "world"]
  /\ split_text_to_fit "a verylongwordindeed b" 20 10 0.5 = ["a"; "verylongwordindeed"; "b"].
Proof. vm_compute. done. Qed.

(** ** Parsing a batch reply *)

Example parse_ex1 :
  _parse_batch_response "1. Hola
---
2. Mundo" 2 = ["Hola"; "Mundo"].
Proof. reflexivity. Qed.

Example parse_ex2 : _parse_batch_response "uno---dos" 3 = ["uno"; "dos"; ""].
Proof. reflexivity. Qed.

Example parse_ex3 : _parse_batch_response "uno---dos---tres" 2 = ["uno"; "dos"].
Proof. reflexivity. Qed.

Lemma fold_parse_step parts acc :
  fold_left parse_step parts acc
  = acc ++ map (fun part => strip_ordinal (Py.strip part)) (List.filter nonblank parts).
Proof.
  revert acc. induction parts as [|part parts IH]; intros acc; simpl.
  - by rewrite app_nil_r.
  - rewrite IH. unfold parse_step, nonblank.
    destruct (Py.truthy (Py.strip part)); simpl; [|done].
    by rewrite <- app_assoc.
Qed.

(** The padding loop stops because the list is long enough, not because
    its fuel ran out. *)
Lemma pad_loop_spec fuel translations n :
  (Z.to_nat n - length translations <= fuel)%nat ->
  pad_loop fuel translations n
  = translations ++ replicate (Z.to_nat n - length translations) "".
Proof.
  revert translations. induction fuel as [|fuel IH]; intros l Hf; simpl.
  - replace (Z.to_nat n - length l)%nat with 0%nat by lia.
    simpl. rewrite app_nil_r. by destruct (_ <? _)%Z.
  - destruct (Z.of_nat (length l) <? n)%Z eqn:Hlt.
    + apply Z.ltb_lt in Hlt. rewrite IH by (rewrite length_app; simpl; lia).
      rewrite <- app_assoc. f_equal. rewrite length_app. simpl.
      replace (Z.to_nat n - length l)%nat
        with (S (Z.to_nat n - (length l + 1)))%nat by lia.
      reflexivity.
    + apply Z.ltb_ge in Hlt.
      replace (Z.to_nat n - length l)%nat with 0%nat by lia.
      simpl. by rewrite app_nil_r.
Qed.

Lemma parse_batch_response_eq response n :
  0 <= n ->
  _parse_batch_response response n
  = take (Z.to_nat n)
      (fold_left parse_step (Py.split response "---") []
       ++ replicate
            (Z.to_nat n - length (fold_left parse_step (Py.split response "---") []))
            "").
Proof.
  intros Hn. unfold _parse_batch_response, Py.slice_to.
  rewrite pad_loop_spec by lia.
  destruct (0 <=? n)%Z eqn:H0; [done|]. apply Z.leb_gt in H0. lia.
Qed.

Lemma parse_length response n :
  0 <= n -> length (_parse_batch_response response n) = Z.to_nat n.
Proof.
  intros Hn. rewrite parse_batch_response_eq by done.
  rewrite length_take, length_app, length_replicate. lia.
Qed.

(** C3. For every reply and every expected count [n >= 0] the parser
    returns a list of exactly [n] entries: the cleaned segments it kept,
    followed by empty strings when there are fewer than [n], cut after the
    [n]-th when there are more.  The parser is a total function: no input
    makes it raise. *)
Theorem parse_batch_response_length :
  forall (response : string) (n : Z),
    0 <= n ->
    let kept := fold_left parse_step (Py.split response "---") [] in
    length (_parse_batch_response response n) = Z.to_nat n
    /\ _parse_batch_response response n
       = take (Z.to_nat n) (kept ++ replicate (Z.to_nat n - length kept) "").
Proof.
  intros response n Hn kept. split.
  - by apply parse_length.
  - by apply parse_batch_response_eq.
Qed.

Lemma parse_batch_response_length_witness :
  0 <= 3
  /\ length (_parse_batch_response "uno---dos" 3) = 3%nat
  /\ length (_parse_batch_response "a---b---c---d---e" 3) = 3%nat.
Proof.
  split; [lia|]. split.
  - exact (proj1 (parse_batch_response_length "uno---dos" 3 ltac:(lia))).
  - exact (proj1 (parse_batch_response_length "a---b---c---d---e" 3 ltac:(lia))).
Defined.

Example blank_segment_example :
  Py.split "a--- ---b" "---" = ["a"; " "; "b"]
  /\ _parse_batch_response "a--- ---b" 3 = ["a"; "b"; ""].
Proof. split; reflexivity. Qed.

(** C2, refuted: in the reply [a--- ---b] the second segment trims to
    nothing and is dropped, so [b] moves up to the second position. *)
Lemma blank_segment_is_dropped : ~ segments_keep_their_place.
Proof.
  intros H.
  specialize (H "a--- ---b" 3 1%nat " " ltac:(lia) ltac:(lia) eq_refl).
  vm_compute in H. discriminate H.
Qed.

(** C2, amended. Segments that trim to nothing are dropped before
    positions are counted: for [i < n] the [i]-th entry is the cleaned
    [i]-th segment among those that are not blank, and the empty string
    when the reply has no such segment. *)
Theorem parse_batch_response_positions :
  forall (response : string) (n : Z) (i : nat),
    0 <= n -> Z.of_nat i < n ->
    _parse_batch_response response n !! i
    = Some match List.filter nonblank (Py.split response "---") !! i with
           | Some part => strip_ordinal (Py.strip part)
           | None => ""
           end.
Proof.
  intros response n i Hn Hi.
  rewrite parse_batch_response_eq by done.
  rewrite lookup_take_lt by lia.
  rewrite fold_parse_step. simpl.
  set (kept := List.filter nonblank (Py.split response "---")).
  destruct (kept !! i) as [part|] eqn:Hk.
  - rewrite lookup_app_l.
    + by rewrite list_lookup_fmap, Hk.
    + rewrite length_map. by apply lookup_lt_Some in Hk.
  - apply lookup_ge_None in Hk.
    rewrite lookup_app_r by (rewrite length_map; lia).
    rewrite length_map. apply lookup_replicate_2. lia.
Qed.

Lemma parse_batch_response_positions_witness :
  0 <= 3 /\ Z.of_nat 1 < 3
  /\ _parse_batch_response "a--- ---b" 3 !! 1%nat = Some "b".
Proof.
  split; [lia|]. split; [lia|].
  exact (parse_batch_response_positions "a--- ---b" 3 1%nat ltac:(lia) ltac:(lia)).
Defined.

(** ** Font fitting *)

Lemma Qlt_bool_true a b : Qlt_bool a b = true <-> (a < b)%Q.
Proof.
  unfold Qlt_bool. rewrite negb_true_iff. split.
  - intros H. apply Qnot_le_lt. intros Hle.
    apply Qle_bool_iff in Hle. congruence.
  - intros H. destruct (Qle_bool b a) eqn:E; [|done].
    apply Qle_bool_iff in E. exfalso. by apply (Qlt_not_le a b).
Qed.

Lemma Qlt_bool_false a b : Qlt_bool a b = false <-> (b <= a)%Q.
Proof.
  unfold Qlt_bool. rewrite negb_false_iff. apply Qle_bool_iff.
Qed.

Lemma Qmax_py_l a b : (a <= Qmax_py a b)%Q.
Proof.
  unfold Qmax_py. destruct (Qlt_bool a b) eqn:E.
  - apply Qlt_bool_true in E. by apply Qlt_le_weak.
  - apply Qle_refl.
Qed.

Lemma Qmax_py_r a b : (b <= Qmax_py a b)%Q.
Proof.
  unfold Qmax_py. destruct (Qlt_bool a b) eqn:E.
  - apply Qle_refl.
  - by apply Qlt_bool_false in E.
Qed.

Lemma Qmax_py_lt a b : (a < b)%Q -> Qmax_py a b = b.
Proof. intros H. unfold Qmax_py. apply Qlt_bool_true in H. by rewrite H. Qed.

Example small_text_that_fits :
  _calculate_font_size TranslatorConfig.default "a"
    (BoundingBox.mk 0 0 100 100) 4 = 4%Q.
Proof. reflexivity. Qed.

(** C4, refuted: a 4pt text that fits its box keeps its 4pt, below the
    6pt floor of the default configuration. *)
Lemma font_floor_counterexample : ~ font_floor_on_all_inputs.
Proof.
  intros H.
  specialize (H TranslatorConfig.default "a" (BoundingBox.mk 0 0 100 100) 4%Q).
  vm_compute in H. by apply H.
Qed.

(** The size is left alone when there is nothing to render or the text
    fits, whatever the configured floor. *)
Lemma font_size_unchanged config text bbox original_size :
  Py.truthy (Py.strip text) = false \/ fits text bbox original_size = true ->
  _calculate_font_size config text bbox original_size = original_size.
Proof.
  unfold _calculate_font_size. intros [H|H].
  - by rewrite H.
  - rewrite H. by destruct (negb _).
Qed.

(** C4, amended. The computed size is at least [min_font_size] whenever the
    original size is, or the text is not blank and does not fit its box at
    the original size; it is at least
    [original_size * max_font_reduction] whenever the fit scale
    [min(width_scale, height_scale, 1.0)] would force a smaller value.
    Blank text and text that fits keep the original size, even when that
    is below [min_font_size]. *)
Theorem font_size_floor :
  forall (config : TranslatorConfig.t) (text : string) (bbox : BoundingBox.t)
         (original_size : Q),
    let new_size := _calculate_font_size config text bbox original_size in
    let min_font_size := TranslatorConfig.min_font_size config in
    let max_font_reduction := TranslatorConfig.max_font_reduction config in
    ((min_font_size <= original_size)%Q
     \/ (Py.truthy (Py.strip text) = true /\ fits text bbox original_size = false) ->
     (min_font_size <= new_size)%Q)
    /\ (Py.truthy (Py.strip text) = true ->
        fits text bbox original_size = false ->
        (fit_scale text bbox original_size < max_font_reduction)%Q ->
        (original_size * max_font_reduction <= new_size)%Q)
    /\ (Py.truthy (Py.strip text) = false \/ fits text bbox original_size = true ->
        new_size = original_size).
Proof.
  intros config text bbox original_size new_size min_font_size max_font_reduction.
  subst new_size min_font_size max_font_reduction.
  split_and!.
  - intros Hcase.
    destruct (Py.truthy (Py.strip text)) eqn:Hne;
      [destruct (fits text bbox original_size) eqn:Hfit|].
    + rewrite font_size_unchanged by auto.
      destruct Hcase as [H|[_ H]]; [done|discriminate].
    + unfold _calculate_font_size. rewrite Hne, Hfit. simpl. apply Qmax_py_r.
    + rewrite font_size_unchanged by auto.
      destruct Hcase as [H|[H _]]; [done|discriminate].
  - intros Hne Hfit Hlt.
    unfold _calculate_font_size. rewrite Hne, Hfit. simpl.
    rewrite (Qmax_py_lt _ _ Hlt). apply Qmax_py_l.
  - apply font_size_unchanged.
Qed.

Lemma font_size_floor_witness :
  Py.truthy (Py.strip "a translated line that is far too long for its box") = true
  /\ fits "a translated line that is far too long for its box"
       (BoundingBox.mk 0 0 40 12) 12 = false
  /\ (6.0 <= _calculate_font_size TranslatorConfig.default
               "a translated line that is far too long for its box"
               (BoundingBox.mk 0 0 40 12) 12)%Q.
Proof.
  split; [reflexivity|]. split; [reflexivity|].
  exact (proj1 (font_size_floor TranslatorConfig.default
                  "a translated line that is far too long for its box"
                  (BoundingBox.mk 0 0 40 12) 12%Q)
               (or_intror (conj eq_refl eq_refl))).
Defined.

Example long_text_in_small_box :
  Qeq_bool
    (_calculate_font_size TranslatorConfig.default
       "a translated line that is far too long for its box"
       (BoundingBox.mk 0 0 40 12) 12) 9.6 = true.
Proof. reflexivity. Qed.

(** ** The translator writes nothing but [translated_text] *)

Lemma same_source_refl b : same_source b b.
Proof. by repeat split. Qed.

Lemma same_source_trans b1 b2 b3 :
  same_source b1 b2 -> same_source b2 b3 -> same_source b1 b3.
Proof.
  intros (?&?&?&?&?&?) (?&?&?&?&?&?). repeat split; congruence.
Qed.

Lemma writes_refl touched w : writes_translations touched w w.
Proof. split; auto using same_source_refl. Qed.

Lemma writes_trans touched w1 w2 w3 :
  writes_translations touched w1 w2 -> writes_translations touched w2 w3 ->
  writes_translations touched w1 w3.
Proof.
  intros [S1 O1 B1 N1 X1] [S2 O2 B2 N2 X2]. split; try congruence.
  - intros l. eapply same_source_trans; eauto.
  - intros l Hl. rewrite O2, O1; auto.
Qed.

Lemma writes_mono touched touched' w w' :
  (forall l, l ∈ touched -> l ∈ touched') ->
  writes_translations touched w w' -> writes_translations touched' w w'.
Proof. intros Hsub [S O B N X]. split; auto. Qed.

Lemma writes_text_of touched w w' l :
  writes_translations touched w w' -> text_of w' l = text_of w l.
Proof. intros [S _ _ _ _]. unfold text_of. by destruct (S l) as [-> _]. Qed.

Lemma writes_has_text touched w w' l :
  writes_translations touched w w' -> has_text w' l = has_text w l.
Proof. intros H. unfold has_text. by rewrite (writes_text_of _ _ _ _ H). Qed.

Lemma writes_bbox_of touched w w' l :
  writes_translations touched w w' -> bbox_of w' l = bbox_of w l.
Proof.
  intros [S _ B _ _]. unfold bbox_of. rewrite B.
  by destruct (S l) as (_ & -> & _).
Qed.

Lemma set_translated_text_writes block v w :
  writes_translations [block] w (snd (set_translated_text block v w)).
Proof.
  split; simpl; try done.
  - intros l. destruct (decide (block = l)) as [->|Hne].
    + rewrite fn_lookup_insert. by repeat split.
    + rewrite fn_lookup_insert_ne by done. apply same_source_refl.
  - intros l Hl. rewrite fn_lookup_insert_ne; [done|].
    intros ->. apply Hl. by left.
Qed.

Lemma set_translated_text_value block v w :
  TextBlock.translated_text (blocks (snd (set_translated_text block v w)) block) = v.
Proof. simpl. by rewrite fn_lookup_insert. Qed.

Lemma bind_run {A B} (c : M A) (k : A -> M B) w :
  bind c k w = k (fst (c w)) (snd (c w)).
Proof. unfold bind. by destruct (c w). Qed.

(** Run the binds at the head of a computation. *)
Ltac run_monad := rewrite ?bind_run; cbn [get ret fst snd].

Create HintDb frame.

Lemma translate_text_writes api text source_lang target_lang context w :
  writes_translations [] w
    (snd (translate_text api text source_lang target_lang context w)).
Proof.
  unfold translate_text.
  destruct (negb _); [apply writes_refl|].
  rewrite bind_run. simpl. destruct (translation_cache w !! _); [apply writes_refl|].
  rewrite bind_run. simpl. destruct (api _ _); simpl; split; simpl; auto using same_source_refl.
Qed.

Lemma for_each_writes {A} (touched : list loc) (l : list A) (body : A -> M unit) :
  (forall x w, x ∈ l -> writes_translations touched w (snd (body x w))) ->
  forall w, writes_translations touched w (snd (for_each l body w)).
Proof.
  induction l as [|x l IH]; intros Hbody w; simpl; [apply writes_refl|].
  rewrite bind_run.
  eapply writes_trans.
  - apply (Hbody x w). by left.
  - apply IH. intros y w' Hy. apply Hbody. by right.
Qed.

Lemma writes_nil touched w w' :
  writes_translations [] w w' -> writes_translations touched w w'.
Proof. apply writes_mono. intros l Hl. by apply elem_of_nil in Hl. Qed.

Lemma _translate_batch_individually_writes api batch source_lang target_lang w :
  writes_translations batch w
    (snd (_translate_batch_individually api batch source_lang target_lang w)).
Proof.
  unfold _translate_batch_individually. rewrite bind_run. simpl.
  apply for_each_writes. intros block w0 Hin.
  rewrite bind_run. simpl. rewrite bind_run.
  eapply writes_trans.
  - apply writes_nil, translate_text_writes.
  - eapply writes_mono; [|apply set_translated_text_writes].
    intros l Hl. apply list_elem_of_singleton in Hl. by subst.
Qed.

Lemma _translate_batch_individually_result api batch source_lang target_lang w :
  fst (_translate_batch_individually api batch source_lang target_lang w) = batch.
Proof.
  unfold _translate_batch_individually. by rewrite bind_run.
Qed.

Lemma filter_has_text_writes touched w w' (l : list loc) :
  writes_translations touched w w' ->
  List.filter (has_text w') l = List.filter (has_text w) l.
Proof.
  intros H. apply List.filter_ext. intros x. by apply (writes_has_text touched).
Qed.

Lemma batch_texts_writes touched w w' batch :
  writes_translations touched w w' -> batch_texts w' batch = batch_texts w batch.
Proof.
  intros H. unfold batch_texts. rewrite (filter_has_text_writes _ _ _ _ H).
  apply map_ext. intros x. by apply (writes_text_of touched).
Qed.

Lemma _build_context_writes touched w w' all_blocks i batch_size :
  writes_translations touched w w' ->
  _build_context w' all_blocks i batch_size = _build_context w all_blocks i batch_size.
Proof.
  intros H. unfold _build_context, context_texts.
  rewrite !(filter_has_text_writes _ _ _ _ H).
  assert (Hmap : forall l : list loc,
             map (fun b => Py.strip (text_of w' b)) l
             = map (fun b => Py.strip (text_of w b)) l).
  { intros l. apply map_ext. intros x. by rewrite (writes_text_of _ _ _ _ H). }
  by rewrite !Hmap.
Qed.

Lemma cache_store_writes key v w :
  writes_translations [] w (snd (cache_store key v w)).
Proof. split; simpl; auto using same_source_refl. Qed.

Lemma create_completion_writes api r w :
  writes_translations [] w (snd (create_completion api r w)).
Proof. split; simpl; auto using same_source_refl. Qed.

(** One step of the assignment loop, as a function on worlds. *)
Lemma apply_translations_cons block rest translations source_lang target_lang k w :
  apply_translations (block :: rest) translations source_lang target_lang k w
  = if has_text w block then
      if (k <? length translations)%nat then
        apply_translations rest translations source_lang target_lang (S k)
          (snd (cache_store (cache_key (text_of w block) source_lang target_lang)
                  (nth k translations "")
                  (snd (set_translated_text block (nth k translations "") w))))
      else
        apply_translations rest translations source_lang target_lang k
          (snd (set_translated_text block (text_of w block) w))
    else
      apply_translations rest translations source_lang target_lang k
        (snd (set_translated_text block (text_of w block) w)).
Proof.
  cbn [apply_translations]. rewrite bind_run. simpl.
  destruct (has_text w block); [destruct (k <? _)%nat|]; by rewrite ?bind_run.
Qed.

Lemma apply_translations_writes batch translations source_lang target_lang k w :
  writes_translations batch w
    (snd (apply_translations batch translations source_lang target_lang k w)).
Proof.
  revert k w. induction batch as [|block rest IH]; intros k w.
  - apply writes_refl.
  - rewrite apply_translations_cons.
    assert (Hset : forall v, writes_translations (block :: rest) w
                               (snd (set_translated_text block v w))).
    { intros v. eapply writes_mono; [|apply set_translated_text_writes].
      intros l Hl. apply list_elem_of_singleton in Hl. subst. by left. }
    assert (Hrest : forall k' w', writes_translations (block :: rest) w'
              (snd (apply_translations rest translations source_lang target_lang k' w'))).
    { intros k' w'. eapply writes_mono; [|apply IH]. intros l Hl. by right. }
    destruct (has_text w block); [destruct (k <? _)%nat|].
    + eapply writes_trans; [|apply Hrest].
      eapply writes_trans; [apply Hset|]. apply writes_nil, cache_store_writes.
    + eapply writes_trans; [apply Hset|apply Hrest].
    + eapply writes_trans; [apply Hset|apply Hrest].
Qed.

Lemma apply_translations_calls batch translations source_lang target_lang k w :
  api_calls (snd (apply_translations batch translations source_lang target_lang k w))
  = api_calls w.
Proof.
  revert k w. induction batch as [|block rest IH]; intros k w; [done|].
  rewrite apply_translations_cons.
  destruct (has_text w block); [destruct (k <? _)%nat|]; by rewrite IH.
Qed.

(** The assignment loop pairs by position: the [i]-th block with text gets
    the translation at index [k + i]; a blank block gets its own text. *)
Lemma apply_translations_assigns batch translations source_lang target_lang :
  forall k w, NoDup batch ->
    let w' := snd (apply_translations batch translations source_lang target_lang k w) in
    (forall i l, List.filter (has_text w) batch !! i = Some l ->
                 (k + i < length translations)%nat ->
                 TextBlock.translated_text (blocks w' l) = nth (k + i) translations "")
    /\ (forall l, l ∈ batch -> has_text w l = false ->
                  TextBlock.translated_text (blocks w' l) = text_of w l).
Proof.
  induction batch as [|block rest IH]; intros k w Hnd; cbv zeta.
  - split; [intros i l Hl; simpl in Hl; by rewrite lookup_nil in Hl|].
    intros l Hl. by apply elem_of_nil in Hl.
  - apply NoDup_cons in Hnd as [Hnotin Hnd].
    rewrite apply_translations_cons. cbn [List.filter].
    set (w1 := snd (set_translated_text block (text_of w block) w)).
    set (w2 := snd (cache_store (cache_key (text_of w block) source_lang target_lang)
                      (nth k translations "")
                      (snd (set_translated_text block (nth k translations "") w)))).
    assert (H1 : writes_translations [block] w w1)
      by apply set_translated_text_writes.
    assert (H2 : writes_translations [block] w w2).
    { eapply writes_trans; [apply set_translated_text_writes|].
      apply writes_nil, cache_store_writes. }
    assert (Hkeep : forall k' w0,
               blocks (snd (apply_translations rest translations source_lang
                              target_lang k' w0)) block = blocks w0 block).
    { intros k' w0.
      apply (wt_other _ _ _ (apply_translations_writes rest translations
                               source_lang target_lang k' w0)), Hnotin. }
    destruct (has_text w block) eqn:Hb.
    + destruct (k <? length translations)%nat eqn:Hk.
      * destruct (IH (S k) w2 Hnd) as [IHa IHb]. split.
        -- intros [|i] l Hl Hlt; simpl in Hl.
           ++ injection Hl as <-. rewrite Hkeep. unfold w2. simpl.
              rewrite fn_lookup_insert. simpl. by rewrite Nat.add_0_r.
           ++ rewrite <- (filter_has_text_writes _ _ _ rest H2) in Hl.
              rewrite (IHa i l Hl) by lia. f_equal. lia.
        -- intros l Hl Hblank. apply elem_of_cons in Hl as [->|Hl]; [congruence|].
           rewrite (IHb l Hl) by (by rewrite (writes_has_text _ _ _ _ H2)).
           by apply (writes_text_of [block]).
      * apply Nat.ltb_ge in Hk. destruct (IH k w1 Hnd) as [IHa IHb]. split.
        -- intros i l Hl Hlt. lia.
        -- intros l Hl Hblank. apply elem_of_cons in Hl as [->|Hl]; [congruence|].
           rewrite (IHb l Hl) by (by rewrite (writes_has_text _ _ _ _ H1)).
           by apply (writes_text_of [block]).
    + destruct (IH k w1 Hnd) as [IHa IHb]. split.
      * intros i l Hl Hlt.
        rewrite <- (filter_has_text_writes _ _ _ rest H1) in Hl.
        by apply IHa.
      * intros l Hl Hblank. apply elem_of_cons in Hl as [->|Hl].
        -- rewrite Hkeep. unfold w1. simpl. by rewrite fn_lookup_insert.
        -- rewrite (IHb l Hl) by (by rewrite (writes_has_text _ _ _ _ H1)).
           by apply (writes_text_of [block]).
Qed.

(** ** One batch *)

Lemma _translate_batch_with_context_run api batch source_lang target_lang context w :
  _translate_batch_with_context api batch source_lang target_lang context w
  = match batch_texts w batch with
    | [] => (batch, w)
    | _ :: _ =>
        let request :=
          BatchRequest (batch_texts w batch) source_lang target_lang context in
        let w1 := snd (create_completion api request w) in
        match api (api_calls w) request with
        | Some content =>
            (batch,
             snd (apply_translations batch
                    (_parse_batch_response (Py.strip content)
                       (Z.of_nat (length (batch_texts w batch))))
                    source_lang target_lang 0 w1))
        | None => _translate_batch_individually api batch source_lang target_lang w1
        end
    end.
Proof.
  unfold _translate_batch_with_context. rewrite bind_run. simpl.
  destruct (batch_texts w batch) as [|t ts] eqn:Ht; [done|].
  rewrite bind_run. simpl. destruct (api _ _); [|done].
  by rewrite bind_run.
Qed.

Lemma _translate_batch_with_context_result api batch source_lang target_lang context w :
  fst (_translate_batch_with_context api batch source_lang target_lang context w) = batch.
Proof.
  rewrite _translate_batch_with_context_run.
  destruct (batch_texts w batch); [done|]. cbv zeta.
  destruct (api _ _); [done|]. apply _translate_batch_individually_result.
Qed.

Lemma _translate_batch_with_context_writes api batch source_lang target_lang context w :
  writes_translations batch w
    (snd (_translate_batch_with_context api batch source_lang target_lang context w)).
Proof.
  rewrite _translate_batch_with_context_run.
  destruct (batch_texts w batch); [apply writes_refl|]. cbv zeta.
  destruct (api _ _); cbn [snd].
  - eapply writes_trans; [|apply apply_translations_writes].
    apply writes_nil, create_completion_writes.
  - eapply writes_trans; [|apply _translate_batch_individually_writes].
    apply writes_nil, create_completion_writes.
Qed.

Lemma translate_text_calls api text source_lang target_lang context w :
  (api_calls w <= api_calls (snd (translate_text api text source_lang target_lang context w)))%nat.
Proof.
  unfold translate_text. destruct (negb _); [done|].
  rewrite bind_run. simpl. destruct (translation_cache w !! _); [done|].
  rewrite bind_run. simpl. destruct (api _ _); simpl; lia.
Qed.

Lemma for_each_calls {A} (l : list A) (body : A -> M unit) :
  (forall x w, (api_calls w <= api_calls (snd (body x w)))%nat) ->
  forall w, (api_calls w <= api_calls (snd (for_each l body w)))%nat.
Proof.
  intros Hbody. induction l as [|x l IH]; intros w; simpl; [done|].
  rewrite bind_run. etrans; [apply (Hbody x w)|apply IH].
Qed.

Lemma _translate_batch_individually_calls api batch source_lang target_lang w :
  (api_calls w
   <= api_calls (snd (_translate_batch_individually api batch source_lang target_lang w)))%nat.
Proof.
  unfold _translate_batch_individually. rewrite bind_run. simpl.
  apply for_each_calls. intros block w0.
  rewrite bind_run. simpl. rewrite bind_run. simpl.
  apply translate_text_calls.
Qed.

Lemma _translate_batch_with_context_calls api batch source_lang target_lang context w :
  (api_calls w
   <= api_calls (snd (_translate_batch_with_context api batch source_lang target_lang
                        context w)))%nat.
Proof.
  rewrite _translate_batch_with_context_run.
  destruct (batch_texts w batch); [done|]. cbv zeta.
  destruct (api _ _); cbn [snd].
  - rewrite apply_translations_calls. simpl. lia.
  - etrans; [|apply _translate_batch_individually_calls]. simpl. lia.
Qed.

Lemma length_batch_texts w batch :
  length (batch_texts w batch) = length (List.filter (has_text w) batch).
Proof. unfold batch_texts. by rewrite length_map. Qed.

(** A batch whose call succeeds: translations go to the blocks with text,
    in order, by position. *)
Lemma _translate_batch_with_context_assigns api batch source_lang target_lang context w reply :
  NoDup batch ->
  batch_texts w batch <> [] ->
  api (api_calls w)
    (BatchRequest (batch_texts w batch) source_lang target_lang context) = Some reply ->
  let w' := snd (_translate_batch_with_context api batch source_lang target_lang context w) in
  let translations :=
    _parse_batch_response (Py.strip reply) (Z.of_nat (length (batch_texts w batch))) in
  (forall i l, List.filter (has_text w) batch !! i = Some l ->
               TextBlock.translated_text (blocks w' l) = nth i translations "")
  /\ (forall l, l ∈ batch -> has_text w l = false ->
                TextBlock.translated_text (blocks w' l) = text_of w l).
Proof.
  intros Hnd Hne Hapi w' translations. subst w'.
  rewrite _translate_batch_with_context_run.
  destruct (batch_texts w batch) as [|t ts] eqn:Ht; [done|].
  cbv zeta. rewrite Hapi. cbn [snd].
  set (w1 := snd (create_completion api _ w)).
  assert (H1 : writes_translations [] w w1) by apply create_completion_writes.
  destruct (apply_translations_assigns batch translations source_lang target_lang
              0 w1 Hnd) as [Ha Hb].
  split.
  - intros i l Hl.
    rewrite <- (filter_has_text_writes _ _ _ batch H1) in Hl.
    apply Ha; [done|]. simpl.
    apply lookup_lt_Some in Hl.
    rewrite (filter_has_text_writes _ _ _ batch H1), <- length_batch_texts, Ht in Hl.
    assert (Hlen : length translations = length (t :: ts)).
    { unfold translations.
      rewrite parse_length by apply Nat2Z.is_nonneg.
      apply Nat2Z.id. }
    lia.
  - intros l Hl Hblank.
    rewrite <- (writes_text_of [] w w1 l H1).
    apply Hb; [done|]. by rewrite (writes_has_text _ _ _ _ H1).
Qed.

(** ** Sorting by [(y0, x0)] *)

Lemma tuple_lt_spec a b :
  tuple_lt a b = true
  <-> (fst a < fst b)%Q \/ (fst a == fst b /\ snd a < snd b)%Q.
Proof.
  unfold tuple_lt. destruct (Qeq_bool (fst a) (fst b)) eqn:E.
  - apply Qeq_bool_iff in E. rewrite Qlt_bool_true. split; [auto|].
    intros [H|[_ H]]; [lra|done].
  - apply Qeq_bool_neq in E. rewrite Qlt_bool_true. split; [auto|].
    intros [H|[H _]]; [done|contradiction].
Qed.

Lemma tuple_lt_false a b :
  tuple_lt a b = false
  <-> (fst b < fst a)%Q \/ (fst a == fst b /\ snd b <= snd a)%Q.
Proof.
  destruct (tuple_lt a b) eqn:E.
  - apply tuple_lt_spec in E. split; [done|]. lra.
  - split; [intros _|done].
    destruct (Qlt_le_dec (fst b) (fst a)) as [H|H]; [by left|right].
    destruct (Qlt_le_dec (fst a) (fst b)) as [H1|H1].
    + assert (tuple_lt a b = true) by (apply tuple_lt_spec; by left). congruence.
    + assert (Heq : (fst a == fst b)%Q) by lra. split; [done|].
      destruct (Qlt_le_dec (snd a) (snd b)) as [H2|H2]; [|done].
      assert (tuple_lt a b = true) by (apply tuple_lt_spec; by right). congruence.
Qed.

Lemma tuple_lt_asym a b : tuple_lt a b = true -> tuple_lt b a = false.
Proof. rewrite tuple_lt_spec, tuple_lt_false. lra. Qed.

Lemma reads_before_trans w a b c :
  reads_before w a b -> reads_before w b c -> reads_before w a c.
Proof. unfold reads_before. rewrite !tuple_lt_false. lra. Qed.

Lemma insert_sorted_perm {A K} (lt : K -> K -> bool) (key : A -> K) x l :
  Permutation (x :: l) (Py.insert_sorted lt key x l).
Proof.
  induction l as [|y l IH]; simpl; [done|].
  destruct (lt (key y) (key x)); [|done].
  rewrite <- IH. apply perm_swap.
Qed.

Lemma sorted_perm {A K} (lt : K -> K -> bool) (key : A -> K) l :
  Permutation l (Py.sorted lt key l).
Proof.
  induction l as [|x l IH]; simpl; [done|].
  rewrite <- insert_sorted_perm. by constructor.
Qed.

Lemma insert_sorted_Sorted w x l :
  Sorted (reads_before w) l ->
  Sorted (reads_before w) (Py.insert_sorted tuple_lt (sort_key w) x l).
Proof.
  induction 1 as [|y l Hs IH Hhd]; simpl; [by repeat constructor|].
  destruct (tuple_lt (sort_key w y) (sort_key w x)) eqn:E.
  - constructor; [exact IH|].
    destruct l as [|z l]; simpl.
    + constructor. by apply tuple_lt_asym.
    + destruct (tuple_lt (sort_key w z) (sort_key w x)).
      * inversion Hhd; subst. by constructor.
      * constructor. by apply tuple_lt_asym.
  - constructor; [by constructor|]. by constructor.
Qed.

Lemma sorted_Sorted w l :
  StronglySorted (reads_before w) (Py.sorted tuple_lt (sort_key w) l).
Proof.
  apply Sorted_StronglySorted.
  - intros a b c. apply reads_before_trans.
  - induction l as [|x l IH]; simpl; [constructor|].
    by apply insert_sorted_Sorted.
Qed.

Lemma sorted_NoDup {A K} (lt : K -> K -> bool) (key : A -> K) (l : list A) :
  NoDup l -> NoDup (Py.sorted lt key l).
Proof. intros H. by rewrite <- sorted_perm. Qed.

Lemma sorted_elem_of {A K} (lt : K -> K -> bool) (key : A -> K) (l : list A) x :
  x ∈ Py.sorted lt key l <-> x ∈ l.
Proof. by rewrite <- sorted_perm. Qed.

(** ** Cutting a list into consecutive windows *)

Lemma concat_windows {A} (l : list A) (b m : nat) :
  concat (map (fun k => take b (drop (k * b) l)) (seq 0 m)) = take (m * b) l.
Proof.
  induction m as [|m IH]; [done|].
  rewrite seq_S, map_app, concat_app, IH. simpl. rewrite app_nil_r.
  rewrite take_take_drop. f_equal. lia.
Qed.

Lemma ceil_div_covers n b : 0 < b -> 0 <= n -> n <= (n + b - 1) / b * b.
Proof.
  intros Hb Hn.
  pose proof (Z.div_mod (n + b - 1) b ltac:(lia)) as Hdm.
  pose proof (Z.mod_pos_bound (n + b - 1) b Hb). nia.
Qed.

Lemma concat_all_windows {A} (l : list A) (b : Z) :
  0 < b ->
  concat (map (fun k => take (Z.to_nat b) (drop (k * Z.to_nat b) l))
            (seq 0 (Z.to_nat ((Z.of_nat (length l) + b - 1) / b)))) = l.
Proof.
  intros Hb. rewrite concat_windows. apply take_ge.
  pose proof (ceil_div_covers (Z.of_nat (length l)) b Hb ltac:(lia)) as H.
  assert (0 <= (Z.of_nat (length l) + b - 1) / b) by (apply Z.div_pos; lia).
  nia.
Qed.

(** ** The batches of a page *)

Lemma slice_elem_of {A} (l : list A) i j x : x ∈ Py.slice l i j -> x ∈ l.
Proof.
  unfold Py.slice. intros H. apply elem_of_take in H as (k & Hk & _).
  rewrite lookup_drop in Hk. by eapply list_elem_of_lookup_2.
Qed.

Section Batches.

Variable api : Client.
Variables (sorted_blocks : list loc) (batch_size : Z).
Variables (source_lang target_lang : string).

(** The batch that starts at index [i], and the batch loop. *)
Local Abbreviation batch_at i := (Py.slice sorted_blocks i (i + batch_size)).
Local Abbreviation run :=
  (translate_batches api sorted_blocks batch_size source_lang target_lang).

Lemma translate_batches_cons i rest acc w :
  run (i :: rest) acc w
  = run rest (acc ++ batch_at i)
      (snd (_translate_batch_with_context api (batch_at i) source_lang target_lang
              (_build_context w sorted_blocks i batch_size) w)).
Proof.
  cbn [translate_batches]. rewrite bind_run. simpl.
  rewrite bind_run. by rewrite _translate_batch_with_context_result.
Qed.

Lemma translate_batches_app starts1 starts2 acc w :
  run (starts1 ++ starts2) acc w
  = run starts2 (fst (run starts1 acc w)) (snd (run starts1 acc w)).
Proof.
  revert acc w. induction starts1 as [|i starts1 IH]; intros acc w; [done|].
  cbn [app]. by rewrite !translate_batches_cons, IH.
Qed.

Lemma translate_batches_result starts acc w :
  fst (run starts acc w) = acc ++ concat (map (fun i => batch_at i) starts).
Proof.
  revert acc w. induction starts as [|i starts IH]; intros acc w.
  - simpl. by rewrite app_nil_r.
  - rewrite translate_batches_cons, IH. simpl. by rewrite <- app_assoc.
Qed.

Lemma translate_batches_writes starts acc w :
  writes_translations (concat (map (fun i => batch_at i) starts)) w (snd (run starts acc w)).
Proof.
  revert acc w. induction starts as [|i starts IH]; intros acc w.
  - apply writes_refl.
  - rewrite translate_batches_cons. simpl. eapply writes_trans.
    + eapply writes_mono; [|apply _translate_batch_with_context_writes].
      intros l Hl. apply elem_of_app. by left.
    + eapply writes_mono; [|apply IH].
      intros l Hl. apply elem_of_app. by right.
Qed.

Lemma translate_batches_calls starts acc w :
  (api_calls w <= api_calls (snd (run starts acc w)))%nat.
Proof.
  revert acc w. induction starts as [|i starts IH]; intros acc w; [done|].
  rewrite translate_batches_cons.
  etrans; [|apply IH]. apply _translate_batch_with_context_calls.
Qed.

(** The [k]-th batch of a page is sent in the world the first [k] batches
    leave behind; when its call succeeds, what it assigns by position is
    still there when the page is done. *)
Lemma translate_batches_assigns starts w k start reply :
  NoDup (concat (map (fun i => batch_at i) starts)) ->
  starts !! k = Some start ->
  let w_k := snd (run (take k starts) [] w) in
  let w' := snd (run starts [] w) in
  let texts := batch_texts w (batch_at start) in
  texts <> [] ->
  api (api_calls w_k)
    (BatchRequest texts source_lang target_lang
       (_build_context w sorted_blocks start batch_size)) = Some reply ->
  let translations := _parse_batch_response (Py.strip reply) (Z.of_nat (length texts)) in
  (forall i l, List.filter (has_text w) (batch_at start) !! i = Some l ->
               TextBlock.translated_text (blocks w' l) = nth i translations "")
  /\ (forall l, l ∈ batch_at start -> has_text w l = false ->
                TextBlock.translated_text (blocks w' l) = text_of w l).
Proof.
  intros Hnd Hk w_k w' texts Hne Hapi translations.
  assert (Hw : writes_translations (concat (map (fun i => batch_at i) (take k starts))) w w_k)
    by apply translate_batches_writes.
  pose proof (take_drop_middle _ _ _ Hk) as Hsplit.
  rewrite <- Hsplit in Hnd.
  rewrite map_app, concat_app in Hnd. simpl in Hnd.
  apply NoDup_app in Hnd as (_ & _ & Hnd).
  apply NoDup_app in Hnd as (Hnd_batch & Hdisj & _).
  subst w'.
  replace (run starts [] w)
    with (run (take k starts ++ start :: drop (S k) starts) [] w)
    by (by rewrite Hsplit).
  rewrite translate_batches_app. fold w_k.
  rewrite translate_batches_cons.
  set (w1 := snd (_translate_batch_with_context api (batch_at start) _ _ _ w_k)).
  assert (Hlater : forall l, l ∈ batch_at start ->
            blocks (snd (run (drop (S k) starts)
                           (fst (run (take k starts) [] w) ++ batch_at start) w1)) l
            = blocks w1 l).
  { intros l Hl. apply (wt_other _ _ _ (translate_batches_writes _ _ _)).
    by apply Hdisj. }
  assert (Htexts : batch_texts w_k (batch_at start) = texts)
    by apply (batch_texts_writes _ _ _ _ Hw).
  assert (Hctx : _build_context w_k sorted_blocks start batch_size
                 = _build_context w sorted_blocks start batch_size)
    by apply (_build_context_writes _ _ _ _ _ _ Hw).
  destruct (_translate_batch_with_context_assigns api (batch_at start)
              source_lang target_lang
              (_build_context w_k sorted_blocks start batch_size) w_k reply
              Hnd_batch) as [Ha Hb].
  { by rewrite Htexts. }
  { by rewrite Htexts, Hctx. }
  rewrite Htexts in Ha. fold w1 in Ha, Hb.
  split.
  - intros i l Hl.
    assert (Hin : l ∈ batch_at start).
    { apply list_elem_of_lookup_2 in Hl. apply list_elem_of_In in Hl.
      apply List.filter_In in Hl as [Hl _]. by apply list_elem_of_In. }
    rewrite (Hlater l Hin). apply Ha.
    by rewrite (filter_has_text_writes _ _ _ _ Hw).
  - intros l Hl Hblank. rewrite (Hlater l Hl).
    rewrite <- (writes_text_of _ _ _ l Hw). apply Hb; [done|].
    by rewrite (writes_has_text _ _ _ _ Hw).
Qed.

End Batches.

(** ** One page *)

Lemma range3_batches n batch_size :
  0 < batch_size ->
  Py.range3 0 n batch_size
  = Some (map (batch_start batch_size)
            (seq 0 (Z.to_nat ((n + batch_size - 1) / batch_size)))).
Proof.
  intros Hb. unfold Py.range3.
  destruct (batch_size =? 0)%Z eqn:E0; [apply Z.eqb_eq in E0; lia|].
  destruct (0 <? batch_size)%Z eqn:E1; [|apply Z.ltb_ge in E1; lia].
  by rewrite Z.sub_0_r.
Qed.

Lemma slice_batch {A} (l : list A) batch_size k :
  0 < batch_size ->
  Py.slice l (batch_start batch_size k) (batch_start batch_size k + batch_size)
  = take (Z.to_nat batch_size) (drop (k * Z.to_nat batch_size) l).
Proof.
  intros Hb. unfold Py.slice, batch_start. f_equal; [f_equal; lia|].
  f_equal. rewrite Z2Nat.inj_mul by lia. by rewrite Nat2Z.id.
Qed.

Lemma concat_batches {A} (l : list A) batch_size :
  0 < batch_size ->
  concat (map (fun i => Py.slice l i (i + batch_size))
            (map (batch_start batch_size)
               (seq 0 (Z.to_nat ((Z.of_nat (length l) + batch_size - 1) / batch_size)))))
  = l.
Proof.
  intros Hb. rewrite map_map.
  etrans; [|apply (concat_all_windows l batch_size Hb)].
  f_equal. apply map_ext. intros k. by apply slice_batch.
Qed.

Lemma _translate_page_blocks_run config api page_blocks source_lang target_lang w :
  0 < TranslatorConfig.batch_size config ->
  let sorted_blocks := Py.sorted tuple_lt (sort_key w) page_blocks in
  let batch_size := TranslatorConfig.batch_size config in
  let batches :=
    Z.to_nat ((Z.of_nat (length sorted_blocks) + batch_size - 1) / batch_size) in
  _translate_page_blocks config api page_blocks source_lang target_lang w
  = (Some sorted_blocks,
     after_batches api sorted_blocks batch_size source_lang target_lang batches w).
Proof.
  intros Hb sorted_blocks batch_size batches.
  unfold _translate_page_blocks. rewrite bind_run. simpl.
  fold sorted_blocks. fold batch_size.
  rewrite (range3_batches _ _ Hb). rewrite bind_run. simpl.
  rewrite translate_batches_result. simpl.
  unfold after_batches. fold batches. f_equal. f_equal.
  by apply concat_batches.
Qed.

Lemma elem_of_concat_map {A B} (f : A -> list B) (l : list A) (x : B) :
  x ∈ concat (map f l) -> exists a, a ∈ l /\ x ∈ f a.
Proof.
  induction l as [|a l IH]; simpl; intros H; [by apply elem_of_nil in H|].
  apply elem_of_app in H as [H|H].
  - exists a. split; [by left|done].
  - destruct (IH H) as (a' & Ha' & Hx). exists a'. split; [by right|done].
Qed.

Lemma _translate_page_blocks_writes config api page_blocks source_lang target_lang w :
  writes_translations page_blocks w
    (snd (_translate_page_blocks config api page_blocks source_lang target_lang w)).
Proof.
  unfold _translate_page_blocks. rewrite bind_run. simpl.
  destruct (Py.range3 _ _ _) as [starts|]; [|apply writes_refl].
  rewrite bind_run. simpl.
  eapply writes_mono; [|apply translate_batches_writes].
  intros l Hl. apply elem_of_concat_map in Hl as (i & _ & Hl).
  apply slice_elem_of in Hl. by apply sorted_elem_of in Hl.
Qed.

(** C1. The blocks of a page are translated in the order of the key
    [(bbox.y0, bbox.x0)]: [_translate_page_blocks] returns the page's blocks
    sorted by that key, cut into consecutive batches of [batch_size].  When
    the call for the [k]-th batch succeeds, the [i]-th parsed translation of
    its reply is, at the end of the page, the translated text of the [i]-th
    block of that batch whose text is not blank, whatever the texts are; a
    blank block of the batch has its own text. *)
Theorem translation_follows_reading_order :
  forall (config : TranslatorConfig.t) (api : Client) (page_blocks : list loc)
         (source_lang target_lang : string) (w : World),
    0 < TranslatorConfig.batch_size config ->
    NoDup page_blocks ->
    let batch_size := TranslatorConfig.batch_size config in
    let sorted_blocks := Py.sorted tuple_lt (sort_key w) page_blocks in
    let result := _translate_page_blocks config api page_blocks source_lang target_lang w in
    fst result = Some sorted_blocks
    /\ Permutation page_blocks sorted_blocks
    /\ StronglySorted (reads_before w) sorted_blocks
    /\ forall (k : nat) (reply : string),
         let start := batch_start batch_size k in
         let batch := Py.slice sorted_blocks start (start + batch_size) in
         let texts := batch_texts w batch in
         let w_k := after_batches api sorted_blocks batch_size source_lang target_lang k w in
         texts <> [] ->
         api (api_calls w_k)
           (BatchRequest texts source_lang target_lang
              (_build_context w sorted_blocks start batch_size)) = Some reply ->
         let translations :=
           _parse_batch_response (Py.strip reply) (Z.of_nat (length texts)) in
         (forall (i : nat) (l : loc),
             List.filter (has_text w) batch !! i = Some l ->
             TextBlock.translated_text (blocks (snd result) l) = nth i translations "")
         /\ (forall l : loc,
               l ∈ batch -> has_text w l = false ->
               TextBlock.translated_text (blocks (snd result) l) = text_of w l).
Proof.
  intros config api page_blocks source_lang target_lang w Hb Hnd
         batch_size sorted_blocks result.
  pose proof (_translate_page_blocks_run config api page_blocks source_lang
                target_lang w Hb) as Hrun.
  cbv zeta in Hrun. fold sorted_blocks batch_size in Hrun.
  set (batches := Z.to_nat ((Z.of_nat (length sorted_blocks) + batch_size - 1)
                            / batch_size)) in Hrun.
  split_and!.
  - unfold result. by rewrite Hrun.
  - apply sorted_perm.
  - apply sorted_Sorted.
  - intros k reply start batch texts w_k Hne Hapi translations.
    assert (Hk : (k < batches)%nat).
    { destruct (decide (k < batches)%nat) as [|Hge]; [done|]. exfalso.
      apply Hne. unfold texts, batch, start.
      rewrite slice_batch by done.
      rewrite drop_ge; [by rewrite take_nil|].
      pose proof (ceil_div_covers (Z.of_nat (length sorted_blocks)) batch_size Hb
                    ltac:(lia)) as Hc.
      assert (0 <= (Z.of_nat (length sorted_blocks) + batch_size - 1) / batch_size)
        by (apply Z.div_pos; lia).
      unfold batches in Hge. nia. }
    unfold result. rewrite Hrun. cbn [snd]. unfold after_batches.
    set (starts := map (batch_start batch_size) (seq 0 batches)).
    assert (Hstart : starts !! k = Some start).
    { unfold starts. rewrite list_lookup_fmap, lookup_seq_lt by done. done. }
    assert (Htake : take k starts = map (batch_start batch_size) (seq 0 k)).
    { unfold starts. rewrite firstn_map, take_seq. do 2 f_equal. lia. }
    pose proof (translate_batches_assigns api sorted_blocks batch_size source_lang
                  target_lang starts w k start reply) as Hassign.
    cbv zeta in Hassign. rewrite Htake in Hassign.
    apply Hassign; try done.
    unfold starts, batches. rewrite concat_batches by done.
    by apply sorted_NoDup.
Qed.

Example page_example :
  let w' := snd (_translate_page_blocks TranslatorConfig.default
                   (api_const "1. hola
---
2. mundo") [0; 1; 2]%nat "en" "es" sample_world) in
  map (fun l => TextBlock.translated_text (blocks w' l)) [0; 1; 2]%nat
  = ["mundo"; "  "; "hola"]
  /\ api_calls w' = 1%nat.
Proof. vm_compute. done. Qed.

Lemma translation_follows_reading_order_witness :
  0 < TranslatorConfig.batch_size TranslatorConfig.default
  /\ NoDup [0; 1; 2]%nat
  /\ fst (_translate_page_blocks TranslatorConfig.default (api_const "hola---mundo")
            [0; 1; 2]%nat "en" "es" sample_world) = Some [2; 1; 0]%nat
  /\ TextBlock.translated_text
       (blocks (snd (_translate_page_blocks TranslatorConfig.default
                       (api_const "hola---mundo") [0; 1; 2]%nat "en" "es"
                       sample_world)) 0%nat) = "mundo".
Proof.
  assert (Hb : 0 < TranslatorConfig.batch_size TranslatorConfig.default)
    by reflexivity.
  assert (Hnd : NoDup [0; 1; 2]%nat) by (refine (bool_decide_unpack _ _); exact I).
  split; [exact Hb|]. split; [exact Hnd|].
  destruct (translation_follows_reading_order TranslatorConfig.default
              (api_const "hola---mundo") [0; 1; 2]%nat "en" "es" sample_world
              Hb Hnd) as (Hsorted & _ & _ & Hassign).
  split; [exact Hsorted|].
  assert (Htexts : batch_texts sample_world [2; 1; 0]%nat <> []) by discriminate.
  exact (proj1 (Hassign 0%nat "hola---mundo" Htexts eq_refl) 1%nat 0%nat eq_refl).
Defined.

(** ** Failures and the cache *)

Lemma translate_text_blank api text source_lang target_lang context w :
  Py.truthy (Py.strip text) = false ->
  translate_text api text source_lang target_lang context w = (text, w).
Proof. intros H. unfold translate_text. by rewrite H. Qed.

Lemma translate_text_cached api text source_lang target_lang context w cached :
  Py.truthy (Py.strip text) = true ->
  translation_cache w !! cache_key text source_lang target_lang = Some cached ->
  translate_text api text source_lang target_lang context w = (cached, w).
Proof.
  intros H Hc. unfold translate_text. rewrite H. simpl.
  rewrite bind_run. simpl. by rewrite Hc.
Qed.

Lemma translate_text_miss api text source_lang target_lang context w :
  Py.truthy (Py.strip text) = true ->
  translation_cache w !! cache_key text source_lang target_lang = None ->
  translate_text api text source_lang target_lang context w
  = match api (api_calls w) (SingleRequest text source_lang target_lang context) with
    | Some content =>
        (Py.strip content,
         mkWorld (blocks w) (next_block w) (boxes w) (next_box w)
           (<[cache_key text source_lang target_lang := Py.strip content]>
              (translation_cache w))
           (S (api_calls w)))
    | None =>
        (text,
         mkWorld (blocks w) (next_block w) (boxes w) (next_box w)
           (translation_cache w) (S (api_calls w)))
    end.
Proof.
  intros H Hc. unfold translate_text. rewrite H. simpl.
  rewrite bind_run. simpl. rewrite Hc. rewrite bind_run. simpl.
  destruct (api _ _); [|done]. by rewrite bind_run.
Qed.

(** When the service is down, no text is cached and every text comes
    back as it went in, unless the cache already had a translation. *)
Lemma translate_text_down api text source_lang target_lang context w :
  (forall k r, api k r = None) ->
  translation_cache w !! cache_key text source_lang target_lang = None ->
  fst (translate_text api text source_lang target_lang context w) = text
  /\ translation_cache (snd (translate_text api text source_lang target_lang context w))
     = translation_cache w.
Proof.
  intros Hdown Hc.
  destruct (Py.truthy (Py.strip text)) eqn:Hb.
  - rewrite translate_text_miss by done. by rewrite Hdown.
  - by rewrite translate_text_blank.
Qed.

Lemma individually_passthrough api source_lang target_lang batch :
  (forall k r, api k r = None) ->
  forall w,
    (forall l, l ∈ batch ->
       translation_cache w !! cache_key (text_of w l) source_lang target_lang = None) ->
    let w' := snd (_translate_batch_individually api batch source_lang target_lang w) in
    (forall l, l ∈ batch -> TextBlock.translated_text (blocks w' l) = text_of w l)
    /\ translation_cache w' = translation_cache w.
Proof.
  intros Hdown. induction batch as [|block rest IH]; intros w Hc w'.
  - split; [|done]. intros l Hl. by apply elem_of_nil in Hl.
  - subst w'. unfold _translate_batch_individually in *.
    rewrite bind_run. cbn [for_each]. rewrite bind_run.
    rewrite (bind_run get). cbn [get fst snd]. rewrite bind_run.
    destruct (translate_text_down api (text_of w block) source_lang target_lang
                None w Hdown) as [Ht Hcache]; [apply Hc; by left|].
    rewrite Ht.
    set (w0 := snd (translate_text api (text_of w block) source_lang target_lang None w))
      in *.
    set (w1 := snd (set_translated_text block (text_of w block) w0)).
    assert (H01 : writes_translations [block] w w1).
    { eapply writes_trans; [apply writes_nil, translate_text_writes|].
      apply set_translated_text_writes. }
    assert (Hc1 : translation_cache w1 = translation_cache w) by done.
    specialize (IH w1). rewrite bind_run in IH. cbn [ret snd] in IH.
    destruct IH as [IHa IHb].
    { intros l Hl. rewrite Hc1, (writes_text_of _ _ _ _ H01). apply Hc. by right. }
    cbn [ret snd]. split; [|congruence].
    intros l Hl. destruct (decide (l ∈ rest)) as [Hin|Hnotin].
    + rewrite (IHa l Hin). by apply (writes_text_of [block]).
    + apply elem_of_cons in Hl as [->|Hl]; [|done].
      pose proof (_translate_batch_individually_writes api rest source_lang
                    target_lang w1) as Hw.
      unfold _translate_batch_individually in Hw.
      rewrite bind_run in Hw. cbn [ret snd] in Hw.
      rewrite (wt_other _ _ _ Hw block Hnotin).
      unfold w1. simpl. by rewrite fn_lookup_insert.
Qed.

(** The fallback loop on two lists in a row, and on one block. *)
Lemma individually_app api batch1 batch2 source_lang target_lang w :
  snd (_translate_batch_individually api (batch1 ++ batch2) source_lang target_lang w)
  = snd (_translate_batch_individually api batch2 source_lang target_lang
           (snd (_translate_batch_individually api batch1 source_lang target_lang w))).
Proof.
  unfold _translate_batch_individually. rewrite !bind_run. cbn [ret snd].
  revert w. induction batch1 as [|block rest IH]; intros w; [done|].
  cbn [app for_each]. rewrite !bind_run. apply IH.
Qed.

Lemma individually_one api block source_lang target_lang w :
  snd (_translate_batch_individually api [block] source_lang target_lang w)
  = snd (set_translated_text block
           (fst (translate_text api (text_of w block) source_lang target_lang None w))
           (snd (translate_text api (text_of w block) source_lang target_lang None w))).
Proof.
  unfold _translate_batch_individually, for_each, bind, get, ret. cbn [fst snd].
  by destruct (translate_text api (text_of w block) source_lang target_lang None w).
Qed.

Lemma after_retries_S api batch source_lang target_lang i block w :
  batch !! i = Some block ->
  after_retries api batch source_lang target_lang (S i) w
  = snd (_translate_batch_individually api [block] source_lang target_lang
           (after_retries api batch source_lang target_lang i w)).
Proof.
  intros Hi. unfold after_retries.
  by rewrite (take_S_r _ _ _ Hi), individually_app.
Qed.

Lemma after_retries_all api batch source_lang target_lang i w :
  snd (_translate_batch_individually api batch source_lang target_lang w)
  = snd (_translate_batch_individually api (drop i batch) source_lang target_lang
           (after_retries api batch source_lang target_lang i w)).
Proof.
  unfold after_retries. by rewrite <- individually_app, take_drop.
Qed.

(** C6. A failed call never loses a fragment.  A single text whose call
    fails comes back unchanged from [translate_text], which is a total
    function.  A batch whose call fails is handed, whole, to
    [_translate_batch_individually], which retries the blocks one by one,
    in batch order, each with [translate_text] on the block's own text and
    without context.  The retry of a block alone decides the block's
    rendered text: a blank block keeps its text and a cached text is taken
    from the cache, both without a call; any other block costs exactly one
    single-text call, and the block gets the stripped reply, which is
    cached, when the service answers, and its own source text when it does
    not.  So when those calls fail too and the cache has nothing for the
    batch, the batch is returned as it was passed, every block has its own
    source text as rendered text, and no source text has changed. *)
Theorem failed_calls_pass_the_source_through :
  forall (api : Client) (source_lang target_lang : string) (w : World),
    (forall (text : string) (context : option string),
        translation_cache w !! cache_key text source_lang target_lang = None ->
        api (api_calls w) (SingleRequest text source_lang target_lang context) = None ->
        fst (translate_text api text source_lang target_lang context w) = text)
    /\ (forall (batch : list loc) (context : string),
          batch_texts w batch <> [] ->
          api (api_calls w)
            (BatchRequest (batch_texts w batch) source_lang target_lang context) = None ->
          _translate_batch_with_context api batch source_lang target_lang context w
          = _translate_batch_individually api batch source_lang target_lang
              (snd (create_completion api
                      (BatchRequest (batch_texts w batch) source_lang target_lang context)
                      w)))
    /\ (forall (batch : list loc) (context : string),
          (forall k r, api k r = None) ->
          batch_texts w batch <> [] ->
          (forall l, l ∈ batch ->
             translation_cache w !! cache_key (text_of w l) source_lang target_lang
             = None) ->
          let result :=
            _translate_batch_with_context api batch source_lang target_lang context w in
          fst result = batch
          /\ forall l, l ∈ batch ->
               TextBlock.translated_text (blocks (snd result) l) = text_of w l
               /\ text_of (snd result) l = text_of w l)
    /\ (forall (batch : list loc) (context : string),
          batch_texts w batch <> [] ->
          api (api_calls w)
            (BatchRequest (batch_texts w batch) source_lang target_lang context) = None ->
          let result :=
            _translate_batch_with_context api batch source_lang target_lang context w in
          let retried (i : nat) :=
            after_retries api batch source_lang target_lang i
              (snd (create_completion api
                      (BatchRequest (batch_texts w batch) source_lang target_lang context)
                      w)) in
          fst result = batch
          /\ snd result = retried (length batch)
          /\ api_calls (retried 0%nat) = S (api_calls w)
          /\ translation_cache (retried 0%nat) = translation_cache w
          /\ forall (i : nat) (l : loc),
               batch !! i = Some l ->
               let text := text_of w l in
               let key := cache_key text source_lang target_lang in
               let before := retried i in
               let after := retried (S i) in
               (has_text w l = false ->
                TextBlock.translated_text (blocks after l) = text
                /\ api_calls after = api_calls before
                /\ translation_cache after = translation_cache before)
               /\ (has_text w l = true ->
                   forall cached : string,
                     translation_cache before !! key = Some cached ->
                     TextBlock.translated_text (blocks after l) = cached
                     /\ api_calls after = api_calls before
                     /\ translation_cache after = translation_cache before)
               /\ (has_text w l = true ->
                   translation_cache before !! key = None ->
                   api_calls after = S (api_calls before)
                   /\ match api (api_calls before)
                              (SingleRequest text source_lang target_lang None) with
                      | Some content =>
                          TextBlock.translated_text (blocks after l) = Py.strip content
                          /\ translation_cache after
                             = <[key := Py.strip content]> (translation_cache before)
                      | None =>
                          TextBlock.translated_text (blocks after l) = text
                          /\ translation_cache after = translation_cache before
                      end)
               /\ (l ∉ drop (S i) batch -> blocks (snd result) l = blocks after l)
               /\ text_of (snd result) l = text).
Proof.
  intros api source_lang target_lang w. split_and!.
  - intros text context Hc Hfail.
    destruct (Py.truthy (Py.strip text)) eqn:Hb.
    + rewrite translate_text_miss by done. by rewrite Hfail.
    + by rewrite translate_text_blank.
  - intros batch context Hne Hfail.
    rewrite _translate_batch_with_context_run.
    destruct (batch_texts w batch); [done|]. cbv zeta. by rewrite Hfail.
  - intros batch context Hdown Hne Hc result.
    split; [apply _translate_batch_with_context_result|].
    intros l Hl. split.
    + unfold result. rewrite _translate_batch_with_context_run.
      destruct (batch_texts w batch) as [|t ts] eqn:Ht; [done|].
      cbv zeta. rewrite Hdown.
      set (w1 := snd (create_completion api _ w)).
      assert (H1 : writes_translations [] w w1) by apply create_completion_writes.
      rewrite <- (writes_text_of _ _ _ l H1).
      apply (individually_passthrough api source_lang target_lang batch Hdown w1);
        [|done].
      intros l' Hl'. rewrite (writes_text_of _ _ _ l' H1). by apply Hc.
    + eapply writes_text_of, _translate_batch_with_context_writes.
  - intros batch context Hne Hfail result retried.
    set (w1 := snd (create_completion api
                      (BatchRequest (batch_texts w batch) source_lang target_lang context)
                      w)) in *.
    assert (Hrun : snd result
                   = snd (_translate_batch_individually api batch source_lang
                            target_lang w1)).
    { unfold result. rewrite _translate_batch_with_context_run.
      destruct (batch_texts w batch); [done|]. cbv zeta. by rewrite Hfail. }
    assert (H1 : writes_translations [] w w1) by apply create_completion_writes.
    assert (Hretried : forall i, writes_translations batch w (retried i)).
    { intros i. eapply writes_trans; [apply writes_nil, H1|].
      unfold retried, after_retries.
      eapply writes_mono; [|apply _translate_batch_individually_writes].
      intros l Hl. apply list_elem_of_lookup in Hl as [j Hj].
      apply lookup_take_Some in Hj as [Hj _]. by eapply list_elem_of_lookup_2. }
    split_and!.
    + apply _translate_batch_with_context_result.
    + rewrite Hrun. unfold retried, after_retries. by rewrite firstn_all.
    + done.
    + done.
    + intros i l Hi text key before after.
      assert (Hafter : after
                = snd (set_translated_text l
                         (fst (translate_text api text source_lang target_lang None before))
                         (snd (translate_text api text source_lang target_lang None
                                 before)))).
      { unfold after, retried. rewrite (after_retries_S _ _ _ _ _ _ _ Hi).
        rewrite individually_one. fold (retried i). fold before.
        assert (Ht : text_of before l = text)
          by apply (writes_text_of _ _ _ l (Hretried i)).
        by rewrite Ht. }
      split_and!.
      * intros Hblank. rewrite Hafter.
        rewrite translate_text_blank by exact Hblank.
        cbn [fst snd set_translated_text blocks api_calls translation_cache].
        by rewrite fn_lookup_insert.
      * intros Htext cached Hcached. rewrite Hafter.
        rewrite (translate_text_cached _ _ _ _ _ _ _ Htext Hcached).
        cbn [fst snd set_translated_text blocks api_calls translation_cache].
        by rewrite fn_lookup_insert.
      * intros Htext Hmiss. rewrite Hafter. subst text key.
        rewrite (translate_text_miss _ _ _ _ _ _ Htext Hmiss).
        destruct (api (api_calls before)
                    (SingleRequest (text_of w l) source_lang target_lang None));
          cbn [fst snd set_translated_text blocks api_calls translation_cache];
          by rewrite fn_lookup_insert.
      * intros Hlater. rewrite Hrun.
        rewrite (after_retries_all api batch source_lang target_lang (S i) w1).
        fold (retried (S i)). fold after.
        apply (wt_other _ _ _
                 (_translate_batch_individually_writes api (drop (S i) batch)
                    source_lang target_lang after) l Hlater).
      * eapply writes_text_of, _translate_batch_with_context_writes.
Qed.

Lemma failed_calls_pass_the_source_through_witness :
  batch_texts sample_world [0; 1; 2]%nat <> []
  /\ (forall l, l ∈ [0; 1; 2]%nat ->
        TextBlock.translated_text
          (blocks (snd (_translate_batch_with_context api_down [0; 1; 2]%nat
                          "en" "es" "" sample_world)) l)
        = text_of sample_world l)
  /\ api_knows "hello" " hola " (api_calls sample_world)
       (BatchRequest (batch_texts sample_world [0; 1; 2]%nat) "en" "es" "") = None
  /\ (let retried :=
        snd (_translate_batch_with_context (api_knows "hello" " hola ")
               [0; 1; 2]%nat "en" "es" "" sample_world) in
      TextBlock.translated_text (blocks retried 0%nat) = "world"
      /\ TextBlock.translated_text (blocks retried 1%nat) = "  "
      /\ TextBlock.translated_text (blocks retried 2%nat) = "hola"
      /\ api_calls retried = 3%nat).
Proof.
  assert (Hne : batch_texts sample_world [0; 1; 2]%nat <> []) by discriminate.
  assert (Hfail : api_knows "hello" " hola " (api_calls sample_world)
                    (BatchRequest (batch_texts sample_world [0; 1; 2]%nat)
                       "en" "es" "") = None) by reflexivity.
  split; [exact Hne|]. split.
  - intros l Hl.
    refine (proj1 (proj2 (proj1 (proj2 (proj2 (failed_calls_pass_the_source_through
              api_down "en" "es" sample_world))) [0; 1; 2]%nat ""
              (fun _ _ => eq_refl) Hne _) l Hl)).
    intros l' _. apply lookup_empty.
  - split; [exact Hfail|].
    destruct (proj2 (proj2 (proj2 (failed_calls_pass_the_source_through
                (api_knows "hello" " hola ") "en" "es" sample_world)))
                [0; 1; 2]%nat "" Hne Hfail)
      as (_ & Hend & _ & _ & Hretry).
    destruct (Hretry 0%nat 0%nat eq_refl) as (_ & _ & H0 & Hkeep0 & _).
    destruct (Hretry 1%nat 1%nat eq_refl) as (H1 & _ & _ & Hkeep1 & _).
    destruct (Hretry 2%nat 2%nat eq_refl) as (_ & _ & H2 & Hkeep2 & _).
    cbv zeta in *.
    split_and!.
    + rewrite Hkeep0 by (refine (bool_decide_unpack _ _); exact I).
      exact (proj1 (proj2 (H0 eq_refl eq_refl))).
    + rewrite Hkeep1 by (refine (bool_decide_unpack _ _); exact I).
      exact (proj1 (H1 eq_refl)).
    + rewrite Hkeep2 by (refine (bool_decide_unpack _ _); exact I).
      exact (proj1 (proj2 (H2 eq_refl eq_refl))).
    + rewrite Hend. reflexivity.
Defined.

Example retry_outcomes_are_mixed :
  let result :=
    _translate_batch_with_context (api_knows "hello" " hola ") [0; 1; 2]%nat
      "en" "es" "" sample_world in
  map (fun l => TextBlock.translated_text (blocks (snd result) l)) [0; 1; 2]%nat
  = ["world"; "  "; "hola"]
  /\ api_calls (snd result) = 3%nat
  /\ translation_cache (snd result) !! "hello:en:es" = Some "hola"
  /\ translation_cache (snd result) !! "world:en:es" = None.
Proof. vm_compute. done. Qed.

(** C7, refuted: a first call that fails caches nothing, so the second
    call goes out again and may bring back another text. *)
Lemma failed_call_is_not_cached : ~ cache_idempotent.
Proof.
  intros H.
  destruct (H (api_flaky "hola") "hello" "en" "es" None empty_world eq_refl)
    as [Htext _].
  vm_compute in Htext. discriminate Htext.
Qed.

Example failed_call_costs_two :
  let first := translate_text (api_flaky "hola") "hello" "en" "es" None empty_world in
  let second := translate_text (api_flaky "hola") "hello" "en" "es" None (snd first) in
  fst first = "hello" /\ fst second = "hola" /\ api_calls (snd second) = 2%nat.
Proof. vm_compute. done. Qed.

(** C7, amended. For a text that is not blank: when the first call to
    [translate_text] is served from the cache or its remote call succeeds,
    a second call with the same text and languages - whatever its context -
    returns the same text and is served from the cache without a remote
    call, so the two together cost at most one. *)
Theorem translate_text_twice :
  forall (api : Client) (text source_lang target_lang : string)
         (context context' : option string) (w : World),
    Py.truthy (Py.strip text) = true ->
    is_Some (translation_cache w !! cache_key text source_lang target_lang)
    \/ is_Some (api (api_calls w) (SingleRequest text source_lang target_lang context)) ->
    let first := translate_text api text source_lang target_lang context w in
    let second := translate_text api text source_lang target_lang context' (snd first) in
    fst second = fst first
    /\ translation_cache (snd first) !! cache_key text source_lang target_lang
       = Some (fst first)
    /\ snd second = snd first
    /\ (api_calls (snd second) <= S (api_calls w))%nat.
Proof.
  intros api text source_lang target_lang context context' w Hb Hok first second.
  assert (Hfirst : translation_cache (snd first) !! cache_key text source_lang target_lang
                   = Some (fst first)
                   /\ (api_calls (snd first) <= S (api_calls w))%nat).
  { unfold first.
    destruct (translation_cache w !! cache_key text source_lang target_lang)
      as [cached|] eqn:Hc.
    - rewrite (translate_text_cached _ _ _ _ _ _ _ Hb Hc). simpl. split; [done|lia].
    - destruct Hok as [[? ?]|[content Hapi]]; [done|].
      rewrite (translate_text_miss _ _ _ _ _ _ Hb Hc), Hapi. simpl.
      split; [apply lookup_insert_eq|lia]. }
  destruct Hfirst as [Hcache Hcalls].
  unfold second. rewrite (translate_text_cached _ _ _ _ _ _ _ Hb Hcache).
  simpl. by split_and!.
Qed.

Lemma translate_text_twice_witness :
  Py.truthy (Py.strip "hello") = true
  /\ is_Some (api_const " hola " 0%nat (SingleRequest "hello" "en" "es" None))
  /\ fst (translate_text (api_const " hola ") "hello" "en" "es" (Some "again")
            (snd (translate_text (api_const " hola ") "hello" "en" "es" None
                    empty_world)))
     = fst (translate_text (api_const " hola ") "hello" "en" "es" None empty_world).
Proof.
  assert (Hs : is_Some (api_const " hola " 0%nat (SingleRequest "hello" "en" "es" None)))
    by (by eexists).
  split; [reflexivity|]. split; [exact Hs|].
  exact (proj1 (translate_text_twice (api_const " hola ") "hello" "en" "es" None
                  (Some "again") empty_world eq_refl (or_intror Hs))).
Defined.

Lemma filter_none {A} (f : A -> bool) (l : list A) :
  (forall x, x ∈ l -> f x = false) -> List.filter f l = [].
Proof.
  induction l as [|x l IH]; intros H; [done|].
  simpl. rewrite (H x) by (by left). apply IH. intros y Hy. apply H. by right.
Qed.

Lemma filter_all {A} (f : A -> bool) (l : list A) :
  (forall x, x ∈ l -> f x = true) -> List.filter f l = l.
Proof.
  induction l as [|x l IH]; intros H; [done|].
  simpl. rewrite (H x) by (by left). f_equal. apply IH.
  intros y Hy. apply H. by right.
Qed.

(** C9. A batch whose blocks are all blank costs no call: it is returned
    as it is and the world is untouched.  A block that has no translation
    yet, as the extractor creates it, therefore falls back to its own source
    text when it is rendered, and nothing is drawn for it. *)
Theorem blank_batch_is_passed_through :
  forall (config : TranslatorConfig.t) (unicode_font : option string)
         (api : Client) (batch : list loc)
         (source_lang target_lang context : string) (w : World),
    (forall l, l ∈ batch -> has_text w l = false) ->
    let result :=
      _translate_batch_with_context api batch source_lang target_lang context w in
    result = (batch, w)
    /\ api_calls (snd result) = api_calls w
    /\ forall l, l ∈ batch ->
         TextBlock.translated_text (blocks w l) = "" ->
         rendered_text (blocks (snd result) l) = text_of w l
         /\ _add_translated_text config unicode_font (snd result) l = [].
Proof.
  intros config unicode_font api batch source_lang target_lang context w Hblank result.
  assert (Hrun : result = (batch, w)).
  { unfold result. rewrite _translate_batch_with_context_run.
    assert (Hnil : batch_texts w batch = []).
    { unfold batch_texts. by rewrite (filter_none _ _ Hblank). }
    by rewrite Hnil. }
  rewrite Hrun. cbn [snd]. split_and!; try done.
  intros l Hl Hfresh.
  assert (Hr : rendered_text (blocks w l) = text_of w l).
  { unfold rendered_text. by rewrite Hfresh. }
  split; [exact Hr|].
  unfold _add_translated_text. rewrite Hr.
  specialize (Hblank l Hl). unfold has_text in Hblank. by rewrite Hblank.
Qed.

Lemma blank_batch_is_passed_through_witness :
  (forall l, l ∈ [1%nat] -> has_text sample_world l = false)
  /\ _translate_batch_with_context api_down [1%nat] "en" "es" "" sample_world
     = ([1%nat], sample_world).
Proof.
  assert (H : forall l, l ∈ [1%nat] -> has_text sample_world l = false).
  { intros l Hl. apply list_elem_of_singleton in Hl. by subst. }
  split; [exact H|].
  exact (proj1 (blank_batch_is_passed_through TranslatorConfig.default None
                  api_down [1%nat] "en" "es" "" sample_world H)).
Defined.

(** ** Page batches *)

Lemma filter_page_range (l : list PageInfo.t) :
  forall (o s e : Z),
    numbered o l ->
    List.filter (fun p => (s <=? PageInfo.page_number p)%Z
                          && (PageInfo.page_number p <? e)%Z) l
    = take (Z.to_nat (e - Z.max s o)) (drop (Z.to_nat (s - o)) l).
Proof.
  induction l as [|p l IH]; intros o s e Hnum.
  - by rewrite drop_nil, take_nil.
  - assert (Hp : PageInfo.page_number p = o).
    { rewrite (Hnum 0%nat p eq_refl). lia. }
    assert (Hl : numbered (o + 1) l).
    { intros i q Hq. rewrite (Hnum (S i) q Hq). lia. }
    cbn [List.filter]. rewrite Hp, (IH (o + 1) s e Hl).
    destruct (s <=? o)%Z eqn:Hs; [apply Z.leb_le in Hs|apply Z.leb_gt in Hs].
    + replace (Z.to_nat (s - o)) with 0%nat by lia.
      replace (Z.to_nat (s - (o + 1))) with 0%nat by lia.
      rewrite !drop_0.
      replace (Z.max s (o + 1)) with (o + 1) by lia.
      replace (Z.max s o) with o by lia.
      destruct (o <? e)%Z eqn:He; [apply Z.ltb_lt in He|apply Z.ltb_ge in He]; simpl.
      * replace (Z.to_nat (e - o)) with (S (Z.to_nat (e - (o + 1)))) by lia.
        done.
      * replace (Z.to_nat (e - o)) with 0%nat by lia.
        by replace (Z.to_nat (e - (o + 1))) with 0%nat by lia.
    + simpl.
      replace (Z.to_nat (s - o)) with (S (Z.to_nat (s - (o + 1)))) by lia.
      replace (Z.max s (o + 1)) with s by lia.
      by replace (Z.max s o) with s by lia.
Qed.

Lemma extract_pages_numbered page_rects : numbered 0 (extract_pages page_rects).
Proof.
  intros i p Hp. unfold extract_pages in Hp.
  rewrite list_lookup_imap in Hp.
  destruct (page_rects !! i) as [r|]; [|done].
  simpl in Hp. injection Hp as <-. simpl. lia.
Qed.

Lemma length_extract_pages page_rects :
  length (extract_pages page_rects) = length page_rects.
Proof. unfold extract_pages. apply length_imap. Qed.

(** The pages a batch selects by page number are the batch's window of
    the page list. *)
Lemma batch_pages_window (pages : list PageInfo.t) (pages_per_batch : Z) (k : nat) :
  0 < pages_per_batch ->
  numbered 0 pages ->
  let start_page := Z.of_nat k * pages_per_batch in
  let end_page := Z.min (start_page + pages_per_batch) (Z.of_nat (length pages)) in
  List.filter (fun p => (start_page <=? PageInfo.page_number p)%Z
                        && (PageInfo.page_number p <? end_page)%Z) pages
  = take (Z.to_nat pages_per_batch) (drop (k * Z.to_nat pages_per_batch) pages).
Proof.
  intros Hb Hnum start_page end_page.
  rewrite (filter_page_range pages 0 start_page end_page Hnum).
  replace (Z.to_nat (start_page - 0)) with (k * Z.to_nat pages_per_batch)%nat
    by (unfold start_page; nia).
  set (rest := drop (k * Z.to_nat pages_per_batch) pages).
  assert (Hlen : length rest = (length pages - k * Z.to_nat pages_per_batch)%nat)
    by apply length_drop.
  destruct (decide (start_page + pages_per_batch <= Z.of_nat (length pages))) as [Hle|Hgt].
  - f_equal. unfold end_page, start_page in *. nia.
  - rewrite !take_ge; [done| |].
    + rewrite Hlen. unfold start_page in *. nia.
    + rewrite Hlen. unfold end_page, start_page in *. nia.
Qed.

Section Composition.

Variable config : TranslatorConfig.t.
Variable unicode_font : option string.
Variable text_blocks : list loc.

Local Abbreviation compose := (compose_pages config unicode_font text_blocks).

Lemma compose_pages_app pages1 pages2 w :
  compose (pages1 ++ pages2) w
  = (fst (compose pages1 w) ++ fst (compose pages2 (snd (compose pages1 w))),
     snd (compose pages2 (snd (compose pages1 w)))).
Proof.
  revert w. induction pages1 as [|p pages1 IH]; intros w.
  - simpl. by destruct (compose pages2 w).
  - cbn [app compose_pages]. rewrite !bind_run.
    by rewrite IH.
Qed.

Lemma compose_pages_length pages w : length (fst (compose pages w)) = length pages.
Proof.
  revert w. induction pages as [|p pages IH]; intros w; [done|].
  cbn [compose_pages]. rewrite !bind_run. simpl.
  by rewrite IH.
Qed.

Lemma compose_pages_shown pages w :
  map shown_page (fst (compose pages w)) = map (fun p => Some (PageInfo.page_number p)) pages.
Proof.
  revert w. induction pages as [|p pages IH]; intros w; [done|].
  cbn [compose_pages]. rewrite !bind_run. simpl.
  rewrite IH. f_equal.
  unfold side_by_side_page. by rewrite !bind_run.
Qed.

Lemma merge_batch_pdfs_concat (batch_files : list BatchFile) :
  merge_batch_pdfs batch_files = concat (map snd batch_files).
Proof.
  unfold merge_batch_pdfs.
  assert (H : forall acc, fold_left (fun final_doc (f : BatchFile) => final_doc ++ snd f)
                            batch_files acc = acc ++ concat (map snd batch_files)).
  { induction batch_files as [|f fs IH]; intros acc; simpl.
    - by rewrite app_nil_r.
    - by rewrite IH, app_assoc. }
  apply (H []).
Qed.

(** Running the batches one after another is one run over the pages the
    batches select, in batch order. *)
Lemma process_batches_compose pages pages_per_batch batch_indices w :
  let selected (batch_idx : Z) :=
    let start_page := batch_idx * pages_per_batch in
    let end_page := Z.min (start_page + pages_per_batch) (Z.of_nat (length pages)) in
    List.filter (fun p => (start_page <=? PageInfo.page_number p)%Z
                          && (PageInfo.page_number p <? end_page)%Z) pages in
  let batched :=
    process_batches config unicode_font pages text_blocks pages_per_batch
      batch_indices w in
  let single := compose (concat (map selected batch_indices)) w in
  merge_batch_pdfs (fst batched) = fst single /\ snd batched = snd single.
Proof.
  intros selected. revert w.
  induction batch_indices as [|k ks IH]; intros w; [done|].
  cbv zeta in *. cbn [process_batches map concat].
  rewrite !bind_run. cbn [ret fst snd].
  rewrite compose_pages_app. cbn [fst snd].
  unfold create_side_by_side_pdf at 1. fold (selected k).
  set (w1 := snd (compose (selected k) w)).
  destruct (IH w1) as [IHa IHb].
  rewrite merge_batch_pdfs_concat in *. cbn [map concat snd fst].
  split; [|exact IHb]. f_equal. exact IHa.
Qed.

End Composition.

Lemma range_selects_all_pages (pages : list PageInfo.t) (pages_per_batch : Z) :
  0 < pages_per_batch ->
  numbered 0 pages ->
  let total_pages := Z.of_nat (length pages) in
  let num_batches := (total_pages + pages_per_batch - 1) / pages_per_batch in
  concat (map (fun batch_idx =>
                 let start_page := batch_idx * pages_per_batch in
                 let end_page := Z.min (start_page + pages_per_batch) total_pages in
                 List.filter (fun p => (start_page <=? PageInfo.page_number p)%Z
                                       && (PageInfo.page_number p <? end_page)%Z) pages)
            (Py.range num_batches))
  = pages.
Proof.
  intros Hb Hnum total_pages num_batches. unfold Py.range. rewrite map_map.
  etrans; [|apply (concat_all_windows pages pages_per_batch Hb)].
  f_equal. apply map_ext. intros k.
  by apply (batch_pages_window pages pages_per_batch k Hb Hnum).
Qed.

(** C5. For every document and every [pages_per_batch >= 1], composing the
    pages in page-range batches and merging the batch files in the order
    they were produced gives the very document a single pass over all pages
    gives: the same pages with the same content, in the same order - one
    output page per page of the original, the [i]-th showing page [i] - and
    the heap is left in the same state. *)
Theorem batches_merge_to_single_pass :
  forall (config : TranslatorConfig.t) (unicode_font : option string)
         (page_rects : list (Q * Q * Z)) (text_blocks : list loc)
         (pages_per_batch : Z) (w : World),
    1 <= pages_per_batch ->
    let pages := extract_pages page_rects in
    let single :=
      create_side_by_side_pdf config unicode_font pages text_blocks None w in
    let batched :=
      process_large_pdf_in_batches config unicode_font pages text_blocks
        pages_per_batch w in
    exists batch_files : list BatchFile,
      fst batched = Some batch_files
      /\ merge_batch_pdfs batch_files = fst single
      /\ snd batched = snd single
      /\ length (merge_batch_pdfs batch_files) = length page_rects
      /\ forall (i : nat) (page : Page.t),
           merge_batch_pdfs batch_files !! i = Some page ->
           shown_page page = Some (Z.of_nat i).
Proof.
  intros config unicode_font page_rects text_blocks pages_per_batch w Hb
         pages single batched.
  assert (Hnum : numbered 0 pages) by apply extract_pages_numbered.
  unfold batched, process_large_pdf_in_batches.
  destruct (pages_per_batch =? 0)%Z eqn:E0; [apply Z.eqb_eq in E0; lia|].
  rewrite bind_run. cbn [ret fst snd].
  destruct (process_batches_compose config unicode_font text_blocks pages
              pages_per_batch
              (Py.range ((Z.of_nat (length pages) + pages_per_batch - 1)
                         / pages_per_batch)) w) as [Hdoc Hworld].
  pose proof (range_selects_all_pages pages pages_per_batch ltac:(lia) Hnum) as Hsel.
  cbv zeta in Hsel, Hdoc, Hworld. rewrite Hsel in Hdoc, Hworld.
  eexists. split; [reflexivity|].
  split_and!.
  - exact Hdoc.
  - exact Hworld.
  - rewrite Hdoc. unfold single, create_side_by_side_pdf.
    rewrite compose_pages_length. apply length_extract_pages.
  - intros i page Hpage. rewrite Hdoc in Hpage.
    pose proof (compose_pages_shown config unicode_font text_blocks pages w) as Hs.
    apply (f_equal (fun l => l !! i)) in Hs.
    rewrite !list_lookup_fmap in Hs.
    unfold single, create_side_by_side_pdf in Hpage.
    assert (Hs' : shown_page <$> Some page
                  = (fun p => Some (PageInfo.page_number p)) <$> pages !! i)
      by (rewrite <- Hpage; exact Hs).
    destruct (pages !! i) as [p|] eqn:Hp; [|done].
    simpl in Hs'. injection Hs' as ->. f_equal.
    rewrite (Hnum i p Hp). lia.
Qed.

Lemma batches_merge_to_single_pass_witness :
  1 <= 5
  /\ exists batch_files : list BatchFile,
       fst (process_large_pdf_in_batches TranslatorConfig.default (Some "DejaVuSans.ttf")
              (extract_pages (replicate 12 (612%Q, 792%Q, 0))) [0; 1; 2]%nat 5
              sample_world) = Some batch_files
       /\ merge_batch_pdfs batch_files
          = fst (create_side_by_side_pdf TranslatorConfig.default (Some "DejaVuSans.ttf")
                   (extract_pages (replicate 12 (612%Q, 792%Q, 0))) [0; 1; 2]%nat None
                   sample_world).
Proof.
  assert (H : 1 <= 5) by lia.
  split; [exact H|].
  destruct (batches_merge_to_single_pass TranslatorConfig.default
              (Some "DejaVuSans.ttf") (replicate 12 (612%Q, 792%Q, 0)) [0; 1; 2]%nat 5
              sample_world H) as (batch_files & Hfiles & Hmerge & _).
  exists batch_files. split; [exact Hfiles|exact Hmerge].
Defined.

Example twelve_pages_by_five :
  option_map (map fst)
    (fst (process_large_pdf_in_batches TranslatorConfig.default None
            (extract_pages (replicate 12 (612%Q, 792%Q, 0))) [] 5 empty_world))
  = Some [(1, 5); (6, 10); (11, 12)].
Proof. vm_compute. done. Qed.

(** ** Composition leaves the blocks alone *)

Lemma preserves_refl w : preserves_heap w w.
Proof. by split. Qed.

#[local] Hint Resolve preserves_refl : frame.

Lemma preserves_trans w1 w2 w3 :
  preserves_heap w1 w2 -> preserves_heap w2 w3 -> preserves_heap w1 w3.
Proof.
  intros [B1 X1 NB1 NX1 C1 A1] [B2 X2 NB2 NX2 C2 A2]. split; try congruence; try lia.
  - intros l Hl. rewrite B2 by lia. by apply B1.
  - intros r Hr. rewrite X2 by lia. by apply X1.
Qed.

(** The copy is a new block with a new box; the shift lands on that box. *)
Lemma shifted_copy_preserves text_block offset_x w :
  let shifted_block := fst (deepcopy text_block w) in
  let w3 := snd (shift_x1 shifted_block offset_x
                   (snd (shift_x0 shifted_block offset_x
                           (snd (deepcopy text_block w))))) in
  preserves_heap w w3
  /\ shifted_block = next_block w
  /\ same_source (blocks w text_block)
       (TextBlock.mk (TextBlock.text (blocks w3 shifted_block))
          (TextBlock.bbox (blocks w text_block))
          (TextBlock.font (blocks w3 shifted_block))
          (TextBlock.size (blocks w3 shifted_block))
          (TextBlock.color (blocks w3 shifted_block))
          (TextBlock.page (blocks w3 shifted_block))
          (TextBlock.translated_text (blocks w3 shifted_block)))
  /\ bbox_of w3 shifted_block
     = BoundingBox.mk (BoundingBox.x0 (bbox_of w text_block) + offset_x)%Q
         (BoundingBox.y0 (bbox_of w text_block))
         (BoundingBox.x1 (bbox_of w text_block) + offset_x)%Q
         (BoundingBox.y1 (bbox_of w text_block)).
Proof.
  intros shifted_block w3. subst shifted_block w3.
  unfold deepcopy, shift_x0, shift_x1, bbox_of. cbn [fst snd blocks boxes
    next_block next_box translation_cache api_calls].
  rewrite !fn_lookup_insert.
  cbn [TextBlock.text TextBlock.bbox TextBlock.font TextBlock.size TextBlock.color
       TextBlock.page TextBlock.translated_text
       BoundingBox.x0 BoundingBox.y0 BoundingBox.x1 BoundingBox.y1].
  rewrite ?fn_lookup_insert.
  cbn [BoundingBox.x0 BoundingBox.y0 BoundingBox.x1 BoundingBox.y1].
  split_and!; try done.
  split; cbn [blocks boxes next_block next_box translation_cache api_calls];
    try done; try lia.
  - intros l Hl. rewrite fn_lookup_insert_ne; [done|lia].
  - intros r Hr. rewrite !fn_lookup_insert_ne; [done|lia..].
Qed.

Section Frame.

Variable config : TranslatorConfig.t.
Variable unicode_font : option string.

Lemma draw_translations_preserves blocks_of_page offset_x w :
  preserves_heap w
    (snd (draw_translations config unicode_font blocks_of_page offset_x w)).
Proof.
  revert w. induction blocks_of_page as [|text_block rest IH]; intros w.
  - auto with frame.
  - cbn [draw_translations]. run_monad.
    eapply preserves_trans; [|apply IH].
    apply (shifted_copy_preserves text_block offset_x w).
Qed.

Lemma side_by_side_page_preserves text_blocks page_info w :
  preserves_heap w
    (snd (side_by_side_page config unicode_font text_blocks page_info w)).
Proof.
  unfold side_by_side_page. run_monad.
  apply draw_translations_preserves.
Qed.

Lemma compose_pages_preserves text_blocks pages w :
  preserves_heap w (snd (compose_pages config unicode_font text_blocks pages w)).
Proof.
  revert w. induction pages as [|p pages IH]; intros w.
  - auto with frame.
  - cbn [compose_pages]. run_monad.
    eapply preserves_trans; [apply side_by_side_page_preserves|apply IH].
Qed.

Lemma create_side_by_side_pdf_preserves pages text_blocks page_range w :
  preserves_heap w
    (snd (create_side_by_side_pdf config unicode_font pages text_blocks page_range w)).
Proof. unfold create_side_by_side_pdf. apply compose_pages_preserves. Qed.

Lemma process_batches_preserves pages text_blocks pages_per_batch batch_indices w :
  preserves_heap w
    (snd (process_batches config unicode_font pages text_blocks pages_per_batch
            batch_indices w)).
Proof.
  revert w. induction batch_indices as [|k ks IH]; intros w.
  - auto with frame.
  - cbn [process_batches]. run_monad.
    eapply preserves_trans; [apply create_side_by_side_pdf_preserves|apply IH].
Qed.

Lemma process_large_pdf_in_batches_preserves pages text_blocks pages_per_batch w :
  preserves_heap w
    (snd (process_large_pdf_in_batches config unicode_font pages text_blocks
            pages_per_batch w)).
Proof.
  unfold process_large_pdf_in_batches.
  destruct (pages_per_batch =? 0)%Z; [apply preserves_refl|].
  rewrite bind_run. cbn [ret snd]. apply process_batches_preserves.
Qed.

Lemma cover_translations_reads blocks_of_page w :
  snd (cover_translations config unicode_font blocks_of_page w) = w.
Proof.
  revert w. induction blocks_of_page as [|b rest IH]; intros w; [done|].
  cbn [cover_translations]. run_monad. apply IH.
Qed.

Lemma create_translation_only_pdf_reads pages text_blocks w :
  snd (create_translation_only_pdf config unicode_font pages text_blocks w) = w.
Proof.
  unfold create_translation_only_pdf.
  revert w. induction pages as [|p pages IH]; intros w; [done|].
  cbn [overlay_pages]. run_monad.
  rewrite IH. unfold overlay_page. run_monad.
  apply cover_translations_reads.
Qed.

End Frame.

(** ** The whole translation step *)

Lemma dict_append_elem pages k v l :
  l ∈ concat (map snd (dict_append pages k v)) ->
  l = v \/ l ∈ concat (map snd pages).
Proof.
  induction pages as [|[k' vs] pages IH]; simpl.
  - rewrite ?app_nil_r. intros H. left. by apply list_elem_of_singleton in H.
  - destruct (k' =? k)%Z; simpl; rewrite !elem_of_app.
    + rewrite list_elem_of_singleton. tauto.
    + intros [H|H]; [tauto|]. destruct (IH H); tauto.
Qed.

Lemma grouped_elem (page_of : loc -> Z) text_blocks :
  forall pages l,
    l ∈ concat (map snd (fold_left (fun pages block =>
                                      dict_append pages (page_of block) block)
                           text_blocks pages)) ->
    l ∈ text_blocks \/ l ∈ concat (map snd pages).
Proof.
  induction text_blocks as [|b text_blocks IH]; intros pages l Hl; simpl in *.
  - by right.
  - destruct (IH _ _ Hl) as [H|H]; [left; by right|].
    apply dict_append_elem in H as [->|H]; [left; by left|by right].
Qed.

Lemma translate_pages_writes config api pages source_lang target_lang acc w :
  writes_translations (concat (map snd pages)) w
    (snd (translate_pages config api pages source_lang target_lang acc w)).
Proof.
  revert acc w. induction pages as [|[page_num page_blocks] pages IH]; intros acc w.
  - apply writes_refl.
  - cbn [translate_pages]. rewrite bind_run.
    pose proof (_translate_page_blocks_writes config api page_blocks source_lang
                  target_lang w) as Hpage.
    destruct (fst (_translate_page_blocks config api page_blocks source_lang
                     target_lang w)) as [page_translated|].
    + eapply writes_trans.
      * eapply writes_mono; [|exact Hpage].
        intros l Hl. simpl. apply elem_of_app. by left.
      * eapply writes_mono; [|apply IH].
        intros l Hl. simpl. apply elem_of_app. by right.
    + eapply writes_mono; [|exact Hpage].
      intros l Hl. simpl. apply elem_of_app. by left.
Qed.

Lemma translate_text_blocks_writes config api text_blocks source_lang target_lang w :
  writes_translations text_blocks w
    (snd (translate_text_blocks config api text_blocks source_lang target_lang w)).
Proof.
  unfold translate_text_blocks. rewrite bind_run. cbn [get fst snd].
  eapply writes_mono; [|apply translate_pages_writes].
  intros l Hl. apply grouped_elem in Hl as [H|H]; [done|].
  by apply elem_of_nil in H.
Qed.

(** C8. Nothing in the pipeline writes to a text block but its translated
    text.  Translation changes neither the source text, the bounding box
    (the reference and the box it points to), the font, the size, the
    colour nor the page of any block, creates no object, and leaves blocks
    it was not given untouched.  Side-by-side composition, in one pass or in
    page batches, leaves every existing block and box exactly as it was:
    the shifted coordinates are written to a fresh copy.  Overlay
    composition writes nothing at all. *)
Theorem pipeline_writes_only_translated_text :
  forall (config : TranslatorConfig.t) (api : Client) (unicode_font : option string)
         (text_blocks : list loc) (source_lang target_lang : string)
         (pages : list PageInfo.t) (page_range : option (Z * Z))
         (pages_per_batch : Z) (w : World),
    writes_translations text_blocks w
      (snd (translate_text_blocks config api text_blocks source_lang target_lang w))
    /\ preserves_heap w
         (snd (create_side_by_side_pdf config unicode_font pages text_blocks
                 page_range w))
    /\ preserves_heap w
         (snd (process_large_pdf_in_batches config unicode_font pages text_blocks
                 pages_per_batch w))
    /\ snd (create_translation_only_pdf config unicode_font pages text_blocks w) = w
    /\ (forall (text_block : loc) (offset_x : Q),
           let shifted_block := fst (deepcopy text_block w) in
           let w' := snd (shift_x1 shifted_block offset_x
                            (snd (shift_x0 shifted_block offset_x
                                    (snd (deepcopy text_block w))))) in
           (text_block < next_block w)%nat ->
           (TextBlock.bbox (blocks w text_block) < next_box w)%nat ->
           shifted_block <> text_block
           /\ blocks w' text_block = blocks w text_block
           /\ bbox_of w' text_block = bbox_of w text_block
           /\ BoundingBox.x0 (bbox_of w' shifted_block)
              = (BoundingBox.x0 (bbox_of w text_block) + offset_x)%Q).
Proof.
  intros config api unicode_font text_blocks source_lang target_lang pages
         page_range pages_per_batch w.
  split_and!.
  - apply translate_text_blocks_writes.
  - apply create_side_by_side_pdf_preserves.
  - apply process_large_pdf_in_batches_preserves.
  - apply create_translation_only_pdf_reads.
  - intros text_block offset_x shifted_block w' Hlive Hbox.
    destruct (shifted_copy_preserves text_block offset_x w)
      as (Hpres & Hnew & _ & Hshift).
    fold shifted_block in Hnew, Hshift. fold w' in Hpres, Hshift.
    split_and!.
    + lia.
    + by apply (ph_blocks _ _ Hpres).
    + unfold bbox_of. rewrite (ph_blocks _ _ Hpres) by done.
      by apply (ph_boxes _ _ Hpres).
    + by rewrite Hshift.
Qed.

Lemma pipeline_writes_only_translated_text_witness :
  (0 < next_block sample_world)%nat
  /\ (TextBlock.bbox (blocks sample_world 0%nat) < next_box sample_world)%nat
  /\ bbox_of (snd (shift_x1 (fst (deepcopy 0%nat sample_world)) 622
                     (snd (shift_x0 (fst (deepcopy 0%nat sample_world)) 622
                             (snd (deepcopy 0%nat sample_world)))))) 0%nat
     = bbox_of sample_world 0%nat.
Proof.
  assert (H1 : (0 < next_block sample_world)%nat) by (vm_compute; lia).
  assert (H2 : (TextBlock.bbox (blocks sample_world 0%nat) < next_box sample_world)%nat)
    by (vm_compute; lia).
  split; [exact H1|]. split; [exact H2|].
  exact (proj1 (proj2 (proj2 (proj2 (proj2 (proj2 (proj2
           (pipeline_writes_only_translated_text TranslatorConfig.default api_down None
              [0; 1; 2]%nat "en" "es" [] None 5 sample_world)))) 0%nat 622%Q H1 H2)))).
Defined.

Example side_by_side_example :
  let doc := fst (create_side_by_side_pdf TranslatorConfig.default (Some "DejaVuSans.ttf")
                    (extract_pages [(100%Q, 200%Q, 0)]) [0; 1; 2]%nat None
                    (snd (_translate_page_blocks TranslatorConfig.default
                            (api_const "hola---mundo") [0; 1; 2]%nat "en" "es"
                            sample_world))) in
  map (fun page => length (Page.ops page)) doc = [10%nat]
  /\ map shown_page doc = [Some 0].
Proof. vm_compute. done. Qed.

(** * Further properties *)

(** ** Rectangles *)

Lemma Qle_bool_true a b : Qle_bool a b = true <-> (a <= b)%Q.
Proof. apply Qle_bool_iff. Qed.

Lemma contains_point_spec b x y :
  Geometry.contains_point b x y = true
  <-> (BoundingBox.x0 b <= x <= BoundingBox.x1 b)%Q
      /\ (BoundingBox.y0 b <= y <= BoundingBox.y1 b)%Q.
Proof.
  unfold Geometry.contains_point.
  rewrite !andb_true_iff, !Qle_bool_true. tauto.
Qed.

Lemma overlaps_spec a b :
  Geometry.overlaps a b = true
  <-> (BoundingBox.x0 b <= BoundingBox.x1 a)%Q
      /\ (BoundingBox.x0 a <= BoundingBox.x1 b)%Q
      /\ (BoundingBox.y0 b <= BoundingBox.y1 a)%Q
      /\ (BoundingBox.y0 a <= BoundingBox.y1 b)%Q.
Proof.
  unfold Geometry.overlaps.
  rewrite negb_true_iff, !orb_false_iff, !Qlt_bool_false. tauto.
Qed.

(** X1. [overlaps] is symmetric, and it is the test for a common point: two
    rectangles that contain the same point overlap, and two well-formed
    rectangles that overlap both contain the point
    [(max x0, max y0)]. *)
Theorem overlaps_iff_common_point :
  forall a b : BoundingBox.t,
    Geometry.overlaps a b = Geometry.overlaps b a
    /\ (forall x y,
          Geometry.contains_point a x y = true ->
          Geometry.contains_point b x y = true ->
          Geometry.overlaps a b = true)
    /\ (well_formed a -> well_formed b ->
        Geometry.overlaps a b = true ->
        let x := Qmax_py (BoundingBox.x0 a) (BoundingBox.x0 b) in
        let y := Qmax_py (BoundingBox.y0 a) (BoundingBox.y0 b) in
        Geometry.contains_point a x y = true
        /\ Geometry.contains_point b x y = true).
Proof.
  intros a b. split_and!.
  - destruct (Geometry.overlaps a b) eqn:E1, (Geometry.overlaps b a) eqn:E2; try done.
    + apply overlaps_spec in E1. apply not_true_iff_false in E2.
      exfalso. apply E2, overlaps_spec. tauto.
    + apply overlaps_spec in E2. apply not_true_iff_false in E1.
      exfalso. apply E1, overlaps_spec. tauto.
  - intros x y Ha Hb. apply contains_point_spec in Ha, Hb.
    apply overlaps_spec. destruct Ha as [[? ?] [? ?]], Hb as [[? ?] [? ?]].
    split_and!; eapply Qle_trans; eauto.
  - intros [Hax Hay] [Hbx Hby] Hov x y. apply overlaps_spec in Hov.
    destruct Hov as (H1 & H2 & H3 & H4).
    assert (Hx : forall p q r : Q, (p <= r)%Q -> (q <= r)%Q -> (Qmax_py p q <= r)%Q).
    { intros p q r Hp Hq. unfold Qmax_py. by destruct (Qlt_bool p q). }
    split; apply contains_point_spec; subst x y;
      (split; (split; [apply Qmax_py_l || apply Qmax_py_r|by apply Hx])).
Qed.

Lemma overlaps_iff_common_point_witness :
  well_formed (BoundingBox.mk 0 0 10 10)
  /\ well_formed (BoundingBox.mk 5 5 20 20)
  /\ Geometry.overlaps (BoundingBox.mk 0 0 10 10) (BoundingBox.mk 5 5 20 20) = true
  /\ Geometry.contains_point (BoundingBox.mk 0 0 10 10) 5 5 = true.
Proof.
  assert (H1 : well_formed (BoundingBox.mk 0 0 10 10)) by (split; discriminate).
  assert (H2 : well_formed (BoundingBox.mk 5 5 20 20)) by (split; discriminate).
  split; [exact H1|]. split; [exact H2|]. split; [reflexivity|].
  exact (proj1 (proj2 (proj2 (overlaps_iff_common_point (BoundingBox.mk 0 0 10 10)
                                (BoundingBox.mk 5 5 20 20))) H1 H2 eq_refl)).
Defined.

(** X2. The centre of a well-formed rectangle lies inside it, its area is
    not negative, and a rectangle goes to a tuple and back unchanged. *)
Theorem center_inside :
  forall b : BoundingBox.t,
    Geometry.from_tuple (Geometry.to_tuple b) = b
    /\ (well_formed b ->
        Geometry.contains_point b (fst (Geometry.center b)) (snd (Geometry.center b))
        = true
        /\ (0 <= Geometry.area b)%Q).
Proof.
  intros [x0 y0 x1 y1]. split; [reflexivity|].
  intros [Hx Hy]. simpl in Hx, Hy. split.
  - apply contains_point_spec. simpl.
    split; (split; [apply Qle_shift_div_l|apply Qle_shift_div_r]);
      (reflexivity || lra).
  - unfold Geometry.area, BoundingBox.width, BoundingBox.height. simpl.
    apply Qmult_le_0_compat; lra.
Qed.

Lemma center_inside_witness :
  well_formed (BoundingBox.mk 0 0 10 4)
  /\ Geometry.contains_point (BoundingBox.mk 0 0 10 4) 5 2 = true.
Proof.
  assert (H : well_formed (BoundingBox.mk 0 0 10 4)) by (split; discriminate).
  split; [exact H|].
  exact (proj1 (proj2 (center_inside (BoundingBox.mk 0 0 10 4)) H)).
Defined.

(** ** Font names *)

Lemma prefix_trans p h s :
  String.prefix p h = true -> String.prefix h s = true -> String.prefix p s = true.
Proof.
  revert h s. induction p as [|a p IH]; intros h s Hp Hh; [by destruct s|].
  destruct h as [|b h]; [done|]. destruct s as [|c s]; [done|].
  simpl in *. destruct (ascii_dec a b) as [->|]; [|done].
  destruct (ascii_dec b c) as [->|]; [|done].
  destruct (ascii_dec c c); [|done]. by apply (IH h s).
Qed.

Lemma prefix_contains_char c h s :
  String.prefix h s = true -> contains_char c s = false -> contains_char c h = false.
Proof.
  revert s. induction h as [|a h IH]; intros s Hp Hs; [done|].
  destruct s as [|b s]; [done|]. simpl in *.
  destruct (ascii_dec a b) as [->|]; [|done].
  destruct (Ascii.eqb b c); [done|]. by apply (IH s).
Qed.

Lemma prefix_refl s : String.prefix s s = true.
Proof. induction s as [|a s IH]; [done|]. simpl. by destruct (ascii_dec a a). Qed.

(** The first segment of a split on one character: a prefix of the string
    that stops before the first occurrence of the character. *)
Lemma first_segment c s :
  let h := hd "" (Py.split s (String c "")) in
  contains_char c h = false
  /\ String.prefix h s = true
  /\ (contains_char c s = false -> h = s).
Proof.
  assert (Hnil : forall t, String.prefix "" t = true) by (by intros []).
  unfold Py.split. induction s as [|a s IH]; [done|].
  cbn [Py.split_scan String.prefix String.length Nat.sub].
  destruct (ascii_dec c a) as [->|Hne].
  - rewrite Hnil. simpl. rewrite Ascii.eqb_refl. split_and!; try done.
  - destruct s as [|b s].
    + simpl in *. assert (Ascii.eqb a c = false) as ->
        by (apply Ascii.eqb_neq; congruence).
      destruct (ascii_dec a a); done.
    + destruct IH as (IH1 & IH2 & IH3).
      destruct (Py.split_scan (String c "") 0 (String b s)) as [|seg rest] eqn:E.
      * simpl in *. assert (Ascii.eqb a c = false) as ->
          by (apply Ascii.eqb_neq; congruence).
        destruct (ascii_dec a a); [|done]. split_and!; try done.
        intros H. by apply IH3 in H.
      * simpl in IH1, IH2, IH3 |- *.
        assert (Ascii.eqb a c = false) as Hac
          by (apply Ascii.eqb_neq; congruence).
        rewrite Hac. destruct (ascii_dec a a); [|done].
        split_and!; try done. intros Hs. f_equal. by apply IH3.
Qed.

Lemma normalize_font_name_prefix font_name :
  String.prefix (normalize_font_name font_name)
    (fold_left strip_prefix vendor_prefixes font_name) = true.
Proof.
  unfold normalize_font_name.
  set (name := fold_left strip_prefix vendor_prefixes font_name).
  destruct (first_segment "," name) as (_ & Hp1 & _).
  destruct (first_segment "-" (hd "" (Py.split name ","))) as (_ & Hp2 & _).
  eapply prefix_trans; eauto.
Qed.

Lemma normalize_font_name_facts font_name :
  contains_char "," (normalize_font_name font_name) = false
  /\ contains_char "-" (normalize_font_name font_name) = false.
Proof.
  unfold normalize_font_name.
  set (name := fold_left strip_prefix vendor_prefixes font_name).
  destruct (first_segment "," name) as (Hc & _ & _).
  destruct (first_segment "-" (hd "" (Py.split name ","))) as (Hd & Hp & _).
  split; [|done]. eapply prefix_contains_char; eauto.
Qed.

(** X3. A normalized font name contains neither a comma nor a hyphen, and
    it is a prefix of the name that is left after the vendor prefixes are
    removed. *)
Theorem normalize_font_name_plain :
  forall font_name : string,
    contains_char "," (normalize_font_name font_name) = false
    /\ contains_char "-" (normalize_font_name font_name) = false
    /\ String.prefix (normalize_font_name font_name)
         (fold_left strip_prefix vendor_prefixes font_name) = true.
Proof.
  intros font_name.
  destruct (normalize_font_name_facts font_name) as [Hc Hd].
  split_and!; [done|done|apply normalize_font_name_prefix].
Qed.

Example normalize_font_name_ex :
  normalize_font_name "ABCDEE+Times-Bold,Italic" = "Times"
  /\ normalize_font_name "ABCDEE+ABCDEE+Arial" = "ABCDEE+Arial"
  /\ normalize_font_name "CDFGHI+ABCDEE+Arial" = "ABCDEE+Arial"
  /\ normalize_font_name "ABCDEE+CDFGHI+Arial" = "Arial"
  /\ normalize_font_name "-Bold" = "".
Proof. vm_compute. done. Qed.

(** X4. Normalizing is idempotent on a name that does not start with one of
    the vendor prefixes (on others it need not be: the prefixes are tried
    once each, in a fixed order). *)
Theorem normalize_font_name_idempotent :
  forall font_name : string,
    (forall p, p ∈ vendor_prefixes -> String.prefix p font_name = false) ->
    normalize_font_name (normalize_font_name font_name) = normalize_font_name font_name.
Proof.
  intros font_name Hno.
  assert (Hfold : forall name,
             (forall p, p ∈ vendor_prefixes -> String.prefix p name = false) ->
             fold_left strip_prefix vendor_prefixes name = name).
  { intros name H. unfold vendor_prefixes in *. simpl. unfold strip_prefix.
    rewrite (H "ABCDEE+") by (by left).
    rewrite (H "BCDFEE+") by (right; by left).
    rewrite (H "CDFGHI+") by (right; right; by left). done. }
  pose proof (normalize_font_name_facts font_name) as (Hcomma & Hdash).
  pose proof (normalize_font_name_prefix font_name) as Hpre.
  rewrite (Hfold font_name Hno) in Hpre.
  set (out := normalize_font_name font_name) in *.
  unfold normalize_font_name at 1.
  rewrite Hfold.
  - pose proof (first_segment "," out) as (_ & _ & H1). cbv zeta in H1.
    rewrite (H1 Hcomma).
    pose proof (first_segment "-" out) as (_ & _ & H2). cbv zeta in H2.
    by rewrite (H2 Hdash).
  - intros p Hp. destruct (String.prefix p out) eqn:E; [|done].
    rewrite <- (Hno p Hp). symmetry. by apply (prefix_trans p out font_name).
Qed.

Lemma normalize_font_name_idempotent_witness :
  (forall p, p ∈ vendor_prefixes -> String.prefix p "Times-Bold" = false)
  /\ normalize_font_name (normalize_font_name "Times-Bold")
     = normalize_font_name "Times-Bold".
Proof.
  assert (H : forall p, p ∈ vendor_prefixes -> String.prefix p "Times-Bold" = false).
  { intros p Hp. unfold vendor_prefixes in Hp.
    repeat (apply elem_of_cons in Hp as [->|Hp]; [reflexivity|]).
    by apply elem_of_nil in Hp. }
  split; [exact H|]. exact (normalize_font_name_idempotent "Times-Bold" H).
Defined.

(** ** Truncation *)

Lemma length_take_str n s : String.length (take_str n s) = Nat.min n (String.length s).
Proof.
  revert s. induction n as [|n IH]; intros [|c s]; simpl; try done.
  by rewrite IH.
Qed.

Lemma take_str_prefix n s : String.prefix (take_str n s) s = true.
Proof.
  revert s. induction n as [|n IH]; intros [|c s]; simpl; try done.
  destruct (ascii_dec c c); [apply IH|done].
Qed.

Lemma length_append_str a b :
  String.length (a +:+ b) = (String.length a + String.length b)%nat.
Proof. induction a as [|c a IH]; simpl; [done|]. by rewrite IH. Qed.

Example truncate_text_ex :
  truncate_text "a rather long sentence" 10 = "a rathe..."
  /\ truncate_text "short" 10 = "short"
  /\ truncate_text "abcdef" 2 = "abcde...".
Proof. vm_compute. done. Qed.

(** X5. For [max_length >= 3] the truncated text is never longer than
    [max_length]: a text that fits is returned as it is, a longer one is cut
    to its first [max_length - 3] characters followed by three dots. *)
Theorem truncate_text_fits :
  forall (text : string) (max_length : Z),
    3 <= max_length ->
    Z.of_nat (String.length (truncate_text text max_length)) <= max_length
    /\ (Z.of_nat (String.length text) <= max_length ->
        truncate_text text max_length = text)
    /\ (max_length < Z.of_nat (String.length text) ->
        exists kept : string,
          truncate_text text max_length = kept +:+ "..."
          /\ String.prefix kept text = true
          /\ Z.of_nat (String.length kept) = max_length - 3).
Proof.
  intros text max_length Hmax. unfold truncate_text, str_slice_to.
  destruct (Z.of_nat (String.length text) <=? max_length)%Z eqn:E;
    [apply Z.leb_le in E|apply Z.leb_gt in E].
  - split_and!; [done|done|lia].
  - assert ((0 <=? max_length - 3)%Z = true) as -> by (apply Z.leb_le; lia).
    split_and!; [|lia|].
    + rewrite length_append_str, length_take_str. simpl. lia.
    + intros _. exists (take_str (Z.to_nat (max_length - 3)) text).
      split_and!; [done|apply take_str_prefix|].
      rewrite length_take_str. lia.
Qed.

Lemma truncate_text_fits_witness :
  3 <= 10
  /\ Z.of_nat (String.length (truncate_text "a rather long sentence" 10)) <= 10.
Proof.
  assert (H : 3 <= 10) by lia.
  split; [exact H|].
  exact (proj1 (truncate_text_fits "a rather long sentence" 10 H)).
Defined.

(** ** Language names and codes *)

Lemma dict_of_lookup items k v :
  dict_of items !! k = Some v -> (k, v) ∈ items.
Proof.
  unfold dict_of.
  assert (H : forall (d : gmap string string),
             fold_left (fun d kv => <[fst kv := snd kv]> d) items d !! k = Some v ->
             (k, v) ∈ items \/ d !! k = Some v).
  { induction items as [|[k' v'] items IH]; intros d Hd; simpl in *; [by right|].
    destruct (IH _ Hd) as [H|H]; [left; by right|].
    destruct (decide (k' = k)) as [->|Hne].
    - rewrite lookup_insert_eq in H. injection H as ->. left. by left.
    - rewrite lookup_insert_ne in H by done. by right. }
  intros Hd. destruct (H ∅ Hd) as [?|Hempty]; [done|].
  by rewrite lookup_empty in Hempty.
Qed.

Lemma lower_char_idempotent c : lower_char (lower_char c) = lower_char c.
Proof. destruct c as [[] [] [] [] [] [] [] []]; reflexivity. Qed.

Lemma lower_idempotent s : lower (lower s) = lower s.
Proof.
  induction s as [|c s IH]; [done|]. simpl. by rewrite lower_char_idempotent, IH.
Qed.

Lemma codes_are_not_names :
  Forall (fun code => LANGUAGE_CODES !! lower code = None)
    (map snd LANGUAGE_CODES_items).
Proof. repeat (constructor; [vm_compute; reflexivity|]). constructor. Qed.

Lemma language_table_round_trip :
  Forall (fun kv =>
            get_language_code (fst kv) = snd kv
            /\ get_language_name (snd kv) = fst kv
            /\ LANGUAGE_CODES !! fst kv = Some (snd kv))
    LANGUAGE_CODES_items.
Proof. repeat (constructor; [vm_compute; done|]). constructor. Qed.

Example get_language_code_ex :
  get_language_code "Russian" = "ru"
  /\ get_language_code "ru" = "ru"
  /\ get_language_code "klingon" = "klingon"
  /\ get_language_name "ru" = "russian"
  /\ get_language_name "xx" = "xx".
Proof. vm_compute. done. Qed.

(** X6. [get_language_code] is idempotent on every string: a language name
    goes to its code, and a code - or any unknown string - is left as it
    is, so a value that was normalized once can be normalized again. *)
Theorem get_language_code_idempotent :
  forall language : string,
    get_language_code (get_language_code language) = get_language_code language.
Proof.
  intros language. unfold get_language_code at 2 3.
  destruct (LANGUAGE_CODES !! lower language) as [code|] eqn:E.
  - apply dict_of_lookup in E.
    assert (Hin : code ∈ map snd LANGUAGE_CODES_items).
    { apply list_elem_of_fmap. by exists (lower language, code). }
    pose proof codes_are_not_names as Hall.
    rewrite Forall_forall in Hall. specialize (Hall code Hin).
    unfold get_language_code. rewrite Hall. by destruct (bool_decide _).
  - assert (Hsame : (if bool_decide (language ∈ map snd LANGUAGE_CODES_items)
                     then language else language) = language)
      by (by destruct (bool_decide _)).
    rewrite Hsame. unfold get_language_code. by rewrite E, Hsame.
Qed.

(** X7. The table of languages is a bijection that both functions follow:
    for each of its entries, [get_language_code] takes the name - in any
    capitalisation - to the code, and [get_language_name] takes the code
    back to the name. *)
Theorem language_names_and_codes :
  forall (language name code : string),
    (name, code) ∈ LANGUAGE_CODES_items ->
    lower language = name ->
    get_language_code language = code
    /\ get_language_name (get_language_code language) = name
    /\ get_language_code (get_language_name code) = code.
Proof.
  intros language name code Hin Hlow.
  pose proof language_table_round_trip as Hall.
  rewrite Forall_forall in Hall.
  destruct (Hall (name, code) Hin) as (Hcode & Hname & Hlook). simpl in *.
  assert (Hc : get_language_code language = code).
  { unfold get_language_code. by rewrite Hlow, Hlook. }
  rewrite Hc, Hname. by split_and!.
Qed.

Lemma language_names_and_codes_witness :
  ("french", "fr") ∈ LANGUAGE_CODES_items
  /\ lower "FRENCH" = "french"
  /\ get_language_code "FRENCH" = "fr".
Proof.
  assert (H : ("french", "fr") ∈ LANGUAGE_CODES_items).
  { unfold LANGUAGE_CODES_items. do 3 right. by left. }
  split; [exact H|]. split; [reflexivity|].
  exact (proj1 (language_names_and_codes "FRENCH" "french" "fr" H eq_refl)).
Defined.

(** ** Colours *)

Lemma land_255 a : 0 <= Z.land a 255 <= 255.
Proof.
  change 255 with (Z.ones 8). rewrite Z.land_ones by lia.
  pose proof (Z.mod_pos_bound a (2 ^ 8) ltac:(lia)). change (Z.ones 8) with 255. lia.
Qed.

Lemma channel_range n : 0 <= n <= 255 -> (0 <= inject_Z n / 255 <= 1)%Q.
Proof.
  intros [H0 H1]. split.
  - apply Qle_shift_div_l; [reflexivity|]. rewrite Qmult_0_l.
    change 0%Q with (inject_Z 0). by rewrite <- Zle_Qle.
  - apply Qle_shift_div_r; [reflexivity|]. rewrite Qmult_1_l.
    change 255%Q with (inject_Z 255). by rewrite <- Zle_Qle.
Qed.

Lemma channel_back n : (inject_Z n / 255 * 255 == inject_Z n)%Q.
Proof. field. Qed.

Example _int_to_rgb_ex :
  _int_to_rgb 16711680 = (255 / 255, 0 / 255, 0 / 255)%Q
  /\ _int_to_rgb (-1) = (255 / 255, 255 / 255, 255 / 255)%Q.
Proof. vm_compute. done. Qed.

(** X8. Every integer colour gives three channels between 0 and 1, and for
    a 24-bit colour nothing is lost: the channels, scaled back by 255,
    reassemble the integer. *)
Theorem _int_to_rgb_channels :
  forall color_int : Z,
    let '(r, g, b) := _int_to_rgb color_int in
    (0 <= r <= 1)%Q /\ (0 <= g <= 1)%Q /\ (0 <= b <= 1)%Q
    /\ (0 <= color_int < 2 ^ 24 ->
        (inject_Z color_int == r * 255 * 65536 + g * 255 * 256 + b * 255)%Q).
Proof.
  intros color_int. unfold _int_to_rgb. cbv zeta.
  split_and!; try (apply channel_range, land_255).
  intros Hrange. rewrite !channel_back.
  change 65536%Q with (inject_Z 65536). change 256%Q with (inject_Z 256).
  rewrite <- !inject_Z_mult, <- !inject_Z_plus. apply inject_Z_injective.
  change 255 with (Z.ones 8). rewrite !Z.land_ones by lia.
  rewrite !Z.shiftr_div_pow2 by lia.
  change (2 ^ 16) with 65536. change (2 ^ 8) with 256. change (2 ^ 24) with 16777216 in Hrange.
  Z.div_mod_to_equations. lia.
Qed.

Lemma _int_to_rgb_channels_witness :
  0 <= 16711935 < 2 ^ 24
  /\ (inject_Z 16711935
      == fst (fst (_int_to_rgb 16711935)) * 255 * 65536
         + snd (fst (_int_to_rgb 16711935)) * 255 * 256
         + snd (_int_to_rgb 16711935) * 255)%Q.
Proof.
  assert (H : 0 <= 16711935 < 2 ^ 24) by (split; [discriminate|reflexivity]).
  split; [exact H|].
  exact (proj2 (proj2 (proj2 (_int_to_rgb_channels 16711935))) H).
Defined.

(** ** Cache keys *)

Lemma contains_char_app c a b :
  contains_char c (a +:+ String c b) = true.
Proof.
  induction a as [|x a IH].
  - change (contains_char c (String c b) = true). simpl. by rewrite Ascii.eqb_refl.
  - change (contains_char c (String x (a +:+ String c b)) = true). simpl.
    by destruct (Ascii.eqb x c).
Qed.

(** A string is cut at its last colon in one way only. *)
Lemma last_colon_unique a a' t t' :
  contains_char ":" t = false -> contains_char ":" t' = false ->
  a +:+ String ":" t = a' +:+ String ":" t' -> a = a' /\ t = t'.
Proof.
  intros Ht Ht'. revert a'. induction a as [|c a IH]; intros [|c' a'] H.
  - change (String ":" t = String ":" t') in H. injection H as ->. done.
  - change (String ":" t = String c' (a' +:+ String ":" t')) in H.
    injection H as <- ->. by rewrite contains_char_app in Ht.
  - change (String c (a +:+ String ":" t) = String ":" t') in H.
    injection H as -> <-. by rewrite contains_char_app in Ht'.
  - change (String c (a +:+ String ":" t) = String c' (a' +:+ String ":" t')) in H.
    injection H as -> H. destruct (IH a' H) as [-> ->]. done.
Qed.

Lemma append_assoc_str a b c : (a +:+ b) +:+ c = a +:+ (b +:+ c).
Proof.
  induction a as [|x a IH]; [done|].
  change (String x ((a +:+ b) +:+ c) = String x (a +:+ b +:+ c)). by f_equal.
Qed.

Lemma append_inj_r a a' r : a +:+ r = a' +:+ r -> a = a'.
Proof.
  revert a'. induction a as [|c a IH]; intros [|c' a'] H; [done| | |].
  - apply (f_equal String.length) in H.
    change (String.length r = S (String.length (a' +:+ r))) in H.
    rewrite length_append_str in H. lia.
  - apply (f_equal String.length) in H.
    change (S (String.length (a +:+ r)) = String.length r) in H.
    rewrite length_append_str in H. lia.
  - change (String c (a +:+ r) = String c' (a' +:+ r)) in H.
    injection H as -> H. by rewrite (IH a' H).
Qed.

Lemma cache_key_text_inj text text' source_lang target_lang :
  cache_key text source_lang target_lang = cache_key text' source_lang target_lang ->
  text = text'.
Proof. unfold cache_key. apply append_inj_r. Qed.

Example cache_key_collision :
  cache_key "a:b" "c" "ru" = cache_key "a" "b:c" "ru"
  /\ fst (translate_text api_down "a" "b:c" "ru" None
            (snd (translate_text (api_const "x") "a:b" "c" "ru" None empty_world)))
     = "x".
Proof. vm_compute. done. Qed.

(** X9. Cache keys do not collide: for language codes without a colon, two
    requests have the same key only if text, source language and target
    language are the same; and for one language pair the key determines the
    text, colon or not. *)
Theorem cache_key_injective :
  forall (text text' source_lang source_lang' target_lang target_lang' : string),
    (cache_key text source_lang target_lang = cache_key text' source_lang target_lang ->
     text = text')
    /\ (contains_char ":" source_lang = false ->
        contains_char ":" source_lang' = false ->
        contains_char ":" target_lang = false ->
        contains_char ":" target_lang' = false ->
        cache_key text source_lang target_lang
        = cache_key text' source_lang' target_lang' ->
        text = text' /\ source_lang = source_lang' /\ target_lang = target_lang').
Proof.
  intros text text' s s' t t'. split; [apply cache_key_text_inj|].
  intros Hs Hs' Ht Ht' H. unfold cache_key in H.
  assert (Hre : forall x y z : string,
             x +:+ ":" +:+ y +:+ ":" +:+ z = (x +:+ String ":" y) +:+ String ":" z).
  { intros x y z. symmetry.
    exact (append_assoc_str x (String ":" y) (String ":" z)). }
  rewrite !Hre in H.
  destruct (last_colon_unique _ _ _ _ Ht Ht' H) as [H1 ->].
  destruct (last_colon_unique _ _ _ _ Hs Hs' H1) as [-> ->]. done.
Qed.

Lemma cache_key_injective_witness :
  contains_char ":" "en" = false
  /\ contains_char ":" "ru" = false
  /\ (cache_key "a:b" "en" "ru" = cache_key "a:b" "en" "ru" -> "a:b" = "a:b").
Proof.
  split; [reflexivity|]. split; [reflexivity|].
  intros H.
  exact (proj1 (proj2 (cache_key_injective "a:b" "a:b" "en" "en" "ru" "ru")
                  eq_refl eq_refl eq_refl eq_refl H)).
Defined.

(** ** What [translate_text] does to the cache *)

Lemma translate_text_keeps_cache api text source_lang target_lang context w key v :
  translation_cache w !! key = Some v ->
  translation_cache (snd (translate_text api text source_lang target_lang context w))
    !! key = Some v.
Proof.
  intros Hk.
  destruct (Py.truthy (Py.strip text)) eqn:Hb;
    [|by rewrite translate_text_blank].
  destruct (translation_cache w !! cache_key text source_lang target_lang)
    as [cached|] eqn:Hc.
  - by rewrite (translate_text_cached _ _ _ _ _ _ _ Hb Hc).
  - rewrite (translate_text_miss _ _ _ _ _ _ Hb Hc).
    destruct (api _ _); simpl; [|done].
    rewrite lookup_insert_ne; [done|]. intros Heq. subst key. congruence.
Qed.

Lemma individually_keeps_cache api batch source_lang target_lang w key v :
  translation_cache w !! key = Some v ->
  translation_cache (snd (_translate_batch_individually api batch source_lang
                            target_lang w)) !! key = Some v.
Proof.
  unfold _translate_batch_individually. rewrite bind_run. cbn [ret snd].
  revert w. induction batch as [|block rest IH]; intros w Hk; [done|].
  cbn [for_each]. rewrite bind_run. apply IH.
  rewrite bind_run. cbn [get fst snd]. rewrite bind_run. simpl.
  by apply translate_text_keeps_cache.
Qed.

Example batch_overwrites_cache :
  let w := with_cached (cache_key "hello" "en" "es") "old" sample_world in
  translation_cache w !! cache_key "hello" "en" "es" = Some "old"
  /\ translation_cache
       (snd (_translate_batch_with_context (api_const "hola---mundo") [2; 1; 0]%nat
               "en" "es" "" w)) !! cache_key "hello" "en" "es" = Some "hola".
Proof. vm_compute. done. Qed.

(** X10. Single-text translation never replaces a cache entry: whatever is
    cached for a key before [translate_text], or before the block-by-block
    fallback [_translate_batch_individually], is still cached for it
    afterwards.  (A successful batch call is different: it assigns the key
    of every text it translated.) *)
Theorem single_translation_keeps_cache_entries :
  forall (api : Client) (source_lang target_lang : string) (w : World)
         (key v : string),
    translation_cache w !! key = Some v ->
    (forall (text : string) (context : option string),
        translation_cache
          (snd (translate_text api text source_lang target_lang context w)) !! key
        = Some v)
    /\ (forall batch : list loc,
          translation_cache
            (snd (_translate_batch_individually api batch source_lang target_lang w))
            !! key = Some v).
Proof.
  intros api source_lang target_lang w key v Hk. split.
  - intros text context. by apply translate_text_keeps_cache.
  - intros batch. by apply individually_keeps_cache.
Qed.

Lemma single_translation_keeps_cache_entries_witness :
  translation_cache (with_cached "hello:en:es" "old" sample_world) !! "hello:en:es"
  = Some "old"
  /\ translation_cache
       (snd (_translate_batch_individually (api_const "hola") [0; 1; 2]%nat "en" "es"
               (with_cached "hello:en:es" "old" sample_world))) !! "hello:en:es"
     = Some "old".
Proof.
  assert (H : translation_cache (with_cached "hello:en:es" "old" sample_world)
              !! "hello:en:es" = Some "old") by (vm_compute; reflexivity).
  split; [exact H|].
  exact (proj2 (single_translation_keeps_cache_entries (api_const "hola") "en" "es"
                  (with_cached "hello:en:es" "old" sample_world) "hello:en:es" "old" H)
               [0; 1; 2]%nat).
Defined.

(** ** The whole list of blocks *)

Lemma sorted_ext {A K} (lt : K -> K -> bool) (key key' : A -> K) (l : list A) :
  (forall x, key x = key' x) -> Py.sorted lt key l = Py.sorted lt key' l.
Proof.
  intros Hk. induction l as [|x l IH]; [done|]. simpl. rewrite IH.
  generalize (Py.sorted lt key' l). intros s.
  induction s as [|y s IHs]; [done|]. simpl. by rewrite !Hk, IHs.
Qed.

Lemma sort_key_writes touched w w' l :
  writes_translations touched w w' -> sort_key w' l = sort_key w l.
Proof. intros H. unfold sort_key. by rewrite (writes_bbox_of _ _ _ _ H). Qed.

Lemma dict_append_perm pages k v :
  Permutation (concat (map snd (dict_append pages k v)))
              (concat (map snd pages) ++ [v]).
Proof.
  induction pages as [|[k' vs] pages IH]; simpl; [done|].
  destruct (k' =? k)%Z; simpl.
  - rewrite <- !app_assoc. apply Permutation_app_head, Permutation_app_comm.
  - rewrite IH. by rewrite app_assoc.
Qed.

Lemma group_perm (page_of : loc -> Z) (text_blocks : list loc) :
  forall pages,
    Permutation
      (concat (map snd (fold_left (fun pages block =>
                                     dict_append pages (page_of block) block)
                          text_blocks pages)))
      (concat (map snd pages) ++ text_blocks).
Proof.
  induction text_blocks as [|b text_blocks IH]; intros pages; simpl.
  - by rewrite app_nil_r.
  - rewrite IH, dict_append_perm. by rewrite <- app_assoc.
Qed.

Lemma group_by_page_perm w text_blocks :
  Permutation (concat (map snd (group_by_page w text_blocks))) text_blocks.
Proof. unfold group_by_page. by rewrite group_perm. Qed.

Lemma translate_pages_positive config api pages source_lang target_lang acc w :
  0 < TranslatorConfig.batch_size config ->
  fst (translate_pages config api pages source_lang target_lang acc w)
  = Some (acc ++ concat (map (fun pg => Py.sorted tuple_lt (sort_key w) (snd pg)) pages)).
Proof.
  intros Hb. revert acc w.
  induction pages as [|[page_num page_blocks] pages IH]; intros acc w.
  - simpl. by rewrite app_nil_r.
  - cbn [translate_pages]. rewrite bind_run.
    pose proof (_translate_page_blocks_writes config api page_blocks source_lang
                  target_lang w) as Hw.
    rewrite (_translate_page_blocks_run config api page_blocks source_lang
               target_lang w Hb) in *.
    cbn [fst snd] in *. rewrite IH.
    set (w1 := after_batches _ _ _ _ _ _ w) in *.
    assert (Hmap : map (fun pg : Z * list loc => Py.sorted tuple_lt (sort_key w1) (snd pg))
                     pages
                   = map (fun pg => Py.sorted tuple_lt (sort_key w) (snd pg)) pages).
    { apply map_ext. intros [p g]. simpl.
      apply sorted_ext. intros l. by apply (sort_key_writes page_blocks). }
    rewrite Hmap. simpl. by rewrite <- app_assoc.
Qed.

Lemma sorted_concat_perm {A K} (lt : K -> K -> bool) (key : A -> K)
    (pages : list (Z * list A)) :
  Permutation (concat (map (fun pg => Py.sorted lt key (snd pg)) pages))
              (concat (map snd pages)).
Proof.
  induction pages as [|[p g] pages IH]; simpl; [done|].
  by rewrite IH, <- sorted_perm.
Qed.

(** X11. With a batch size of at least one, [translate_text_blocks] returns
    every block it was given exactly once: the pages in order of first
    appearance, the blocks of each page sorted by [(y0, x0)]. *)
Theorem translate_text_blocks_returns_all :
  forall (config : TranslatorConfig.t) (api : Client) (text_blocks : list loc)
         (source_lang target_lang : string) (w : World),
    0 < TranslatorConfig.batch_size config ->
    let result := concat (map (fun pg => Py.sorted tuple_lt (sort_key w) (snd pg))
                            (group_by_page w text_blocks)) in
    fst (translate_text_blocks config api text_blocks source_lang target_lang w)
    = Some result
    /\ Permutation text_blocks result
    /\ length result = length text_blocks.
Proof.
  intros config api text_blocks source_lang target_lang w Hb result.
  assert (Hperm : Permutation text_blocks result).
  { unfold result. by rewrite sorted_concat_perm, group_by_page_perm. }
  split_and!; [|done|by rewrite <- Hperm].
  unfold translate_text_blocks. rewrite bind_run. cbn [get fst snd].
  fold (group_by_page w text_blocks).
  by rewrite translate_pages_positive.
Qed.

Lemma translate_text_blocks_returns_all_witness :
  0 < TranslatorConfig.batch_size TranslatorConfig.default
  /\ fst (translate_text_blocks TranslatorConfig.default (api_const "hola---mundo")
            [0; 1; 2]%nat "en" "es" sample_world) = Some [2; 1; 0]%nat.
Proof.
  assert (H : 0 < TranslatorConfig.batch_size TranslatorConfig.default) by reflexivity.
  split; [exact H|].
  exact (proj1 (translate_text_blocks_returns_all TranslatorConfig.default
                  (api_const "hola---mundo") [0; 1; 2]%nat "en" "es" sample_world H)).
Defined.

Lemma range3_zero_step start stop : Py.range3 start stop 0 = None.
Proof. reflexivity. Qed.

Lemma range3_negative_step n step :
  step < 0 -> Py.range3 0 (Z.of_nat n) step = Some [].
Proof.
  intros Hs. unfold Py.range3.
  destruct (step =? 0)%Z eqn:E0; [apply Z.eqb_eq in E0; lia|].
  destruct (0 <? step)%Z eqn:E1; [apply Z.ltb_lt in E1; lia|].
  assert (Hq : (0 - Z.of_nat n - step - 1) / - step <= 0).
  { destruct (decide (0 <= 0 - Z.of_nat n - step - 1)) as [Hge|Hlt].
    - rewrite Z.div_small; lia.
    - apply Z.lt_le_incl, Z.div_lt_upper_bound; lia. }
  by replace (Z.to_nat ((0 - Z.of_nat n - step - 1) / - step)) with 0%nat by lia.
Qed.

Lemma translate_pages_negative config api pages source_lang target_lang acc w :
  TranslatorConfig.batch_size config < 0 ->
  translate_pages config api pages source_lang target_lang acc w = (Some acc, w).
Proof.
  intros Hb. revert acc.
  induction pages as [|[page_num page_blocks] pages IH]; intros acc; [done|].
  cbn [translate_pages]. rewrite bind_run.
  assert (Hpage : _translate_page_blocks config api page_blocks source_lang
                    target_lang w = (Some [], w)).
  { unfold _translate_page_blocks. rewrite bind_run. cbn [get fst snd].
    by rewrite range3_negative_step. }
  rewrite Hpage. cbn [fst snd]. rewrite IH. by rewrite app_nil_r.
Qed.

(** X12. A batch size below one breaks translation without touching a
    block.  With [batch_size = 0] and at least one block,
    [translate_text_blocks] raises ([range] refuses a zero step); with a
    negative [batch_size] it returns the empty list, so every block is
    dropped from the output.  In both cases no call is made and the world
    is unchanged. *)
Theorem translate_text_blocks_bad_batch_size :
  forall (config : TranslatorConfig.t) (api : Client) (text_blocks : list loc)
         (source_lang target_lang : string) (w : World),
    (TranslatorConfig.batch_size config = 0 -> text_blocks <> [] ->
     translate_text_blocks config api text_blocks source_lang target_lang w
     = (None, w))
    /\ (TranslatorConfig.batch_size config < 0 ->
        translate_text_blocks config api text_blocks source_lang target_lang w
        = (Some [], w)).
Proof.
  intros config api text_blocks source_lang target_lang w. split.
  - intros Hb Hne. unfold translate_text_blocks. rewrite bind_run. cbn [get fst snd].
    fold (group_by_page w text_blocks).
    destruct (group_by_page w text_blocks) as [|[page_num page_blocks] pages] eqn:Hg.
    + exfalso. apply Hne.
      pose proof (group_by_page_perm w text_blocks) as Hp. rewrite Hg in Hp.
      by apply Permutation_nil in Hp.
    + cbn [translate_pages]. rewrite bind_run.
      assert (Hpage : _translate_page_blocks config api page_blocks source_lang
                        target_lang w = (None, w)).
      { unfold _translate_page_blocks. rewrite bind_run. cbn [get fst snd].
        by rewrite Hb. }
      by rewrite Hpage.
  - intros Hb. unfold translate_text_blocks. rewrite bind_run. cbn [get fst snd].
    by apply translate_pages_negative.
Qed.

Lemma translate_text_blocks_bad_batch_size_witness :
  TranslatorConfig.batch_size (TranslatorConfig.mk true 0.8 6.0 0) = 0
  /\ [0; 1; 2]%nat <> []
  /\ translate_text_blocks (TranslatorConfig.mk true 0.8 6.0 0) (api_const "hola")
       [0; 1; 2]%nat "en" "es" sample_world = (None, sample_world).
Proof.
  assert (Hne : [0; 1; 2]%nat <> []) by discriminate.
  split; [reflexivity|]. split; [exact Hne|].
  exact (proj1 (translate_text_blocks_bad_batch_size (TranslatorConfig.mk true 0.8 6.0 0)
                  (api_const "hola") [0; 1; 2]%nat "en" "es" sample_world)
               eq_refl Hne).
Defined.

(** ** How many calls a translation can cost *)

Lemma translate_text_calls_le api text source_lang target_lang context w :
  (api_calls (snd (translate_text api text source_lang target_lang context w))
   <= S (api_calls w))%nat.
Proof.
  unfold translate_text. destruct (negb _); [simpl; lia|].
  rewrite bind_run. simpl. destruct (translation_cache w !! _); [simpl; lia|].
  rewrite bind_run. simpl. destruct (api _ _); simpl; lia.
Qed.

Lemma individually_calls_le api batch source_lang target_lang w :
  (api_calls (snd (_translate_batch_individually api batch source_lang target_lang w))
   <= api_calls w + length batch)%nat.
Proof.
  unfold _translate_batch_individually. rewrite bind_run. cbn [ret snd].
  revert w. induction batch as [|block rest IH]; intros w; [simpl; lia|].
  cbn [for_each]. rewrite bind_run. etrans; [apply IH|].
  rewrite bind_run. cbn [get fst snd]. rewrite bind_run. simpl.
  pose proof (translate_text_calls_le api (text_of w block) source_lang target_lang
                None w). lia.
Qed.

Lemma batch_calls_le api batch source_lang target_lang context w :
  (api_calls (snd (_translate_batch_with_context api batch source_lang target_lang
                     context w))
   <= api_calls w + 2 * length batch)%nat.
Proof.
  rewrite _translate_batch_with_context_run.
  destruct (batch_texts w batch) as [|t ts] eqn:Ht; [simpl; lia|].
  assert (Hlen : (1 <= length batch)%nat).
  { destruct batch; [discriminate Ht|simpl; lia]. }
  cbv zeta. destruct (api _ _); cbn [snd].
  - rewrite apply_translations_calls. simpl. lia.
  - etrans; [apply individually_calls_le|]. simpl. lia.
Qed.

Lemma batches_calls_le api sorted_blocks batch_size source_lang target_lang starts acc w :
  (api_calls (snd (translate_batches api sorted_blocks batch_size source_lang
                     target_lang starts acc w))
   <= api_calls w
      + 2 * length (concat (map (fun i => Py.slice sorted_blocks i (i + batch_size))
                              starts)))%nat.
Proof.
  revert acc w. induction starts as [|i starts IH]; intros acc w; [simpl; lia|].
  rewrite translate_batches_cons. etrans; [apply IH|].
  pose proof (batch_calls_le api (Py.slice sorted_blocks i (i + batch_size))
                source_lang target_lang
                (_build_context w sorted_blocks i batch_size) w).
  simpl. rewrite length_app. lia.
Qed.

Lemma page_calls_le config api page_blocks source_lang target_lang w :
  (api_calls (snd (_translate_page_blocks config api page_blocks source_lang
                     target_lang w))
   <= api_calls w + 2 * length page_blocks)%nat.
Proof.
  destruct (Z.lt_trichotomy (TranslatorConfig.batch_size config) 0) as [Hneg|[H0|Hpos]].
  - unfold _translate_page_blocks. rewrite bind_run. cbn [get fst snd].
    rewrite range3_negative_step by done. rewrite bind_run. simpl. lia.
  - unfold _translate_page_blocks. rewrite bind_run. cbn [get fst snd].
    rewrite H0. simpl. lia.
  - unfold _translate_page_blocks. rewrite bind_run. cbn [get fst snd].
    rewrite (range3_batches _ _ Hpos). rewrite bind_run. cbn [ret snd].
    etrans; [apply batches_calls_le|].
    rewrite concat_batches by done.
    by rewrite <- (Permutation_length (sorted_perm tuple_lt (sort_key w) page_blocks)).
Qed.

Lemma pages_calls_le config api pages source_lang target_lang acc w :
  (api_calls (snd (translate_pages config api pages source_lang target_lang acc w))
   <= api_calls w + 2 * length (concat (map snd pages)))%nat.
Proof.
  revert acc w. induction pages as [|[page_num page_blocks] pages IH]; intros acc w;
    [simpl; lia|].
  cbn [translate_pages]. rewrite bind_run.
  pose proof (page_calls_le config api page_blocks source_lang target_lang w) as Hp.
  simpl. rewrite length_app.
  destruct (fst (_translate_page_blocks config api page_blocks source_lang
                   target_lang w)) as [page_translated|].
  - etrans; [apply IH|]. lia.
  - simpl. lia.
Qed.

(** X13. Translating a list of blocks costs at most two remote calls per
    block, whatever the service answers and whatever the configuration: one
    batch call for each batch, and one more call per block when a batch call
    fails. *)
Theorem translation_call_bound :
  forall (config : TranslatorConfig.t) (api : Client) (text_blocks : list loc)
         (source_lang target_lang : string) (w : World),
    (api_calls (snd (translate_text_blocks config api text_blocks source_lang
                       target_lang w))
     <= api_calls w + 2 * length text_blocks)%nat
    /\ (forall (batch : list loc) (context : string),
          (api_calls (snd (_translate_batch_with_context api batch source_lang
                             target_lang context w))
           <= api_calls w + 1 + length batch)%nat).
Proof.
  intros config api text_blocks source_lang target_lang w. split.
  - unfold translate_text_blocks. rewrite bind_run. cbn [get fst snd].
    etrans; [apply pages_calls_le|].
    fold (group_by_page w text_blocks).
    by rewrite (Permutation_length (group_by_page_perm w text_blocks)).
  - intros batch context. rewrite _translate_batch_with_context_run.
    destruct (batch_texts w batch) as [|t ts]; [simpl; lia|].
    cbv zeta. destruct (api _ _); cbn [snd].
    + rewrite apply_translations_calls. simpl. lia.
    + etrans; [apply individually_calls_le|]. simpl. lia.
Qed.

Example calls_when_service_is_down :
  api_calls (snd (translate_text_blocks TranslatorConfig.default api_down
                    [0; 1; 2]%nat "en" "es" sample_world)) = 3%nat.
Proof. vm_compute. done. Qed.

(** ** A batch fills the cache *)

Lemma apply_translations_cache_other batch translations source_lang target_lang key :
  forall k w,
    (forall l, l ∈ batch -> has_text w l = true ->
               key <> cache_key (text_of w l) source_lang target_lang) ->
    translation_cache
      (snd (apply_translations batch translations source_lang target_lang k w)) !! key
    = translation_cache w !! key.
Proof.
  induction batch as [|block rest IH]; intros k w Hkey; [done|].
  rewrite apply_translations_cons.
  assert (Hrest : forall k' w', writes_translations [block] w w' ->
            translation_cache
              (snd (apply_translations rest translations source_lang target_lang k' w'))
              !! key = translation_cache w' !! key).
  { intros k' w' Hw. apply IH. intros l Hl Ht.
    rewrite (writes_text_of _ _ _ l Hw).
    apply Hkey; [by right|]. by rewrite <- (writes_has_text _ _ _ l Hw). }
  destruct (has_text w block) eqn:Hb; [destruct (k <? length translations)%nat|].
  - rewrite Hrest.
    + simpl. rewrite lookup_insert_ne; [done|].
      intros Heq. apply (Hkey block); [by left|done|done].
    + eapply writes_trans; [apply set_translated_text_writes|].
      apply writes_nil, cache_store_writes.
  - rewrite Hrest; [done|apply set_translated_text_writes].
  - rewrite Hrest; [done|apply set_translated_text_writes].
Qed.

Lemma apply_translations_caches batch translations source_lang target_lang :
  forall k w,
    NoDup (batch_texts w batch) ->
    (k + length (batch_texts w batch) <= length translations)%nat ->
    let w' := snd (apply_translations batch translations source_lang target_lang k w) in
    forall l, l ∈ batch -> has_text w l = true ->
      translation_cache w' !! cache_key (text_of w l) source_lang target_lang
      = Some (TextBlock.translated_text (blocks w' l)).
Proof.
  induction batch as [|block rest IH]; intros k w Hnd Hlen; cbv zeta.
  - intros l Hl. by apply elem_of_nil in Hl.
  - rewrite apply_translations_cons.
    unfold batch_texts in Hnd, Hlen. cbn [List.filter] in Hnd, Hlen.
    destruct (has_text w block) eqn:Hb.
    + cbn [map length] in Hnd, Hlen. apply NoDup_cons in Hnd as [Hfresh Hnd].
      assert ((k <? length translations)%nat = true) as -> by (apply Nat.ltb_lt; lia).
      set (tr := nth k translations "").
      set (w2 := snd (cache_store (cache_key (text_of w block) source_lang target_lang)
                        tr (snd (set_translated_text block tr w)))).
      assert (H2 : writes_translations [block] w w2).
      { eapply writes_trans; [apply set_translated_text_writes|].
        apply writes_nil, cache_store_writes. }
      assert (Htexts : batch_texts w2 rest = batch_texts w rest)
        by apply (batch_texts_writes _ _ _ _ H2).
      assert (Hnotin : block ∉ rest).
      { intros Hin. apply Hfresh. apply list_elem_of_fmap.
        exists block. split; [done|].
        apply list_elem_of_In, List.filter_In. split; [by apply list_elem_of_In|done]. }
      intros l Hl Ht. apply elem_of_cons in Hl as [->|Hl].
      * rewrite apply_translations_cache_other.
        -- rewrite (wt_other _ _ _ (apply_translations_writes rest translations
                                      source_lang target_lang (S k) w2) block Hnotin).
           unfold w2. simpl. rewrite lookup_insert_eq. by rewrite fn_lookup_insert.
        -- intros l Hl Hl' Heq. apply cache_key_text_inj in Heq.
           apply Hfresh. rewrite Heq, (writes_text_of _ _ _ l H2).
           apply list_elem_of_fmap. exists l. split; [done|].
           apply list_elem_of_In, List.filter_In.
           split; [by apply list_elem_of_In|].
           by rewrite <- (writes_has_text _ _ _ l H2).
      * rewrite <- (writes_text_of _ _ _ l H2).
        apply (IH (S k) w2); [by rewrite Htexts| |done|].
        -- rewrite Htexts. unfold batch_texts. lia.
        -- by rewrite (writes_has_text _ _ _ l H2).
    + set (w1 := snd (set_translated_text block (text_of w block) w)).
      assert (H1 : writes_translations [block] w w1)
        by apply set_translated_text_writes.
      assert (Htexts : batch_texts w1 rest = batch_texts w rest)
        by apply (batch_texts_writes _ _ _ _ H1).
      intros l Hl Ht. apply elem_of_cons in Hl as [->|Hl]; [congruence|].
      rewrite <- (writes_text_of _ _ _ l H1).
      apply (IH k w1); [by rewrite Htexts|by rewrite Htexts|done|].
      by rewrite (writes_has_text _ _ _ l H1).
Qed.

(** X14. After a batch call that succeeded on a batch whose texts are all
    different, every translated block is in the cache under its own key:
    asking [translate_text] for the text of such a block, with the same
    languages, returns the block's translated text without a remote call and
    without changing anything. *)
Theorem batch_fills_the_cache :
  forall (api api' : Client) (batch : list loc)
         (source_lang target_lang context : string) (w : World) (reply : string),
    NoDup (batch_texts w batch) ->
    api (api_calls w)
      (BatchRequest (batch_texts w batch) source_lang target_lang context)
    = Some reply ->
    let w' := snd (_translate_batch_with_context api batch source_lang target_lang
                     context w) in
    forall (l : loc) (context' : option string),
      l ∈ batch -> has_text w l = true ->
      translate_text api' (text_of w l) source_lang target_lang context' w'
      = (TextBlock.translated_text (blocks w' l), w').
Proof.
  intros api api' batch source_lang target_lang context w reply Hnd Hapi w' l context'
         Hl Ht.
  apply translate_text_cached; [exact Ht|].
  subst w'. rewrite _translate_batch_with_context_run.
  destruct (batch_texts w batch) as [|t ts] eqn:Htexts.
  - exfalso. assert (Hin : text_of w l ∈ batch_texts w batch).
    { apply list_elem_of_fmap. exists l. split; [done|].
      apply list_elem_of_In, List.filter_In. split; [by apply list_elem_of_In|done]. }
    rewrite Htexts in Hin. by apply elem_of_nil in Hin.
  - cbv zeta. rewrite Hapi. cbn [snd].
    set (w1 := snd (create_completion api _ w)).
    assert (H1 : writes_translations [] w w1) by apply create_completion_writes.
    assert (Ht1 : batch_texts w1 batch = t :: ts).
    { by rewrite (batch_texts_writes _ _ _ _ H1). }
    rewrite <- (writes_text_of _ _ _ l H1).
    apply apply_translations_caches.
    + by rewrite Ht1.
    + rewrite Ht1, parse_length by apply Nat2Z.is_nonneg. rewrite Nat2Z.id. simpl. lia.
    + done.
    + by rewrite (writes_has_text _ _ _ l H1).
Qed.

Lemma batch_fills_the_cache_witness :
  NoDup (batch_texts sample_world [2; 1; 0]%nat)
  /\ translate_text api_down "world" "en" "es" None
       (snd (_translate_batch_with_context (api_const "hola---mundo") [2; 1; 0]%nat
               "en" "es" "" sample_world))
     = ("mundo",
        snd (_translate_batch_with_context (api_const "hola---mundo") [2; 1; 0]%nat
               "en" "es" "" sample_world)).
Proof.
  assert (Hnd : NoDup (batch_texts sample_world [2; 1; 0]%nat))
    by (refine (bool_decide_unpack _ _); exact I).
  assert (Hin : 0%nat ∈ [2; 1; 0]%nat) by (do 2 right; by left).
  split; [exact Hnd|].
  exact (batch_fills_the_cache (api_const "hola---mundo") api_down [2; 1; 0]%nat
           "en" "es" "" sample_world "hola---mundo" Hnd eq_refl 0%nat None Hin eq_refl).
Defined.

(** ** The context of a batch *)

Lemma length_context_texts w all_blocks lo hi :
  (length (context_texts w all_blocks lo hi) <= Z.to_nat (hi - lo))%nat.
Proof.
  unfold context_texts, Py.slice. rewrite length_map.
  etrans; [apply List.filter_length_le|]. rewrite length_take. lia.
Qed.

Lemma context_texts_nonempty w all_blocks lo hi :
  Forall (fun part => Py.is_empty part = false) (context_texts w all_blocks lo hi).
Proof.
  unfold context_texts. apply Forall_forall. intros part Hin.
  apply list_elem_of_fmap in Hin as (b & -> & Hb).
  apply list_elem_of_In, List.filter_In in Hb as [_ Hb].
  unfold has_text, Py.truthy in Hb. by apply negb_true_iff in Hb.
Qed.

Lemma join_nonempty sep part parts :
  Py.is_empty part = false -> Py.is_empty (Py.join sep (part :: parts)) = false.
Proof.
  intros Hp. destruct part as [|c part]; [done|].
  unfold Py.join. simpl. by destruct parts.
Qed.

(** X15. For a batch that starts at an index [current_index >= 0] and has
    a size [batch_size >= 0], as in every call the translator makes, the
    context is taken from at most six blocks - the three before the batch
    and the three after it - and it is the empty string exactly when none
    of them has text; the first batch of a page has no block before it. *)
Theorem build_context_neighbours :
  forall (w : World) (all_blocks : list loc) (current_index batch_size : Z),
    0 <= current_index ->
    0 <= batch_size ->
    let before :=
      context_texts w all_blocks (Z.max 0 (current_index - 3)) current_index in
    let after :=
      context_texts w all_blocks (current_index + batch_size)
        (Z.min (Z.of_nat (length all_blocks)) (current_index + batch_size + 3)) in
    (length (before ++ after) <= 6)%nat
    /\ (_build_context w all_blocks current_index batch_size = ""
        <-> before ++ after = [])
    /\ (current_index = 0 -> before = []).
Proof.
  intros w all_blocks current_index batch_size Hi Hb before after.
  split_and!.
  - rewrite length_app.
    pose proof (length_context_texts w all_blocks (Z.max 0 (current_index - 3))
                  current_index).
    pose proof (length_context_texts w all_blocks (current_index + batch_size)
                  (Z.min (Z.of_nat (length all_blocks))
                     (current_index + batch_size + 3))).
    fold before in H. fold after in H0. lia.
  - unfold _build_context. fold before. fold after.
    destruct (before ++ after) as [|part parts] eqn:E; [done|].
    split; [|done]. intros Hjoin. exfalso.
    assert (Hne : Py.is_empty part = false).
    { assert (Hall : Forall (fun part => Py.is_empty part = false) (before ++ after)).
      { apply Forall_app. split; apply context_texts_nonempty. }
      rewrite E in Hall. by inversion Hall. }
    pose proof (join_nonempty " " part parts Hne) as Hj. by rewrite Hjoin in Hj.
  - intros ->. reflexivity.
Qed.

Example build_context_ex :
  _build_context sample_world [2; 1; 0]%nat 1 1 = "hello world"
  /\ _build_context sample_world [2; 1; 0]%nat 0 1 = "world"
  /\ _build_context sample_world [1]%nat 0 1 = "".
Proof. vm_compute. done. Qed.

Lemma build_context_neighbours_witness :
  0 <= 1
  /\ 0 <= 1
  /\ (_build_context sample_world [2; 1; 0]%nat 1 1 = ""
      <-> context_texts sample_world [2; 1; 0]%nat (Z.max 0 (1 - 3)) 1
          ++ context_texts sample_world [2; 1; 0]%nat (1 + 1)
               (Z.min (Z.of_nat (length [2; 1; 0]%nat)) (1 + 1 + 3)) = []).
Proof.
  assert (H : 0 <= 1) by discriminate.
  split; [exact H|]. split; [exact H|].
  exact (proj1 (proj2 (build_context_neighbours sample_world [2; 1; 0]%nat 1 1 H H))).
Defined.

(** ** Lines and their width *)

(** The greedy loop keeps every closed line, and the line under
    construction, within the limit unless it is a single word. *)
Lemma greedy_lines_fit (ok : string -> Prop)
    (step : list string * list string -> string -> list string * list string) :
  (forall lines cur word,
      (step (lines, cur) word = (lines, cur ++ [word])
       /\ ok (Py.join " " (cur ++ [word])))
      \/ (cur <> [] /\ step (lines, cur) word = (lines ++ [Py.join " " cur], [word]))
      \/ (cur = [] /\ step (lines, cur) word = (lines ++ [word], []))) ->
  forall words st,
    Forall is_word words ->
    Forall (fun l => ok l \/ is_word l) (fst st) ->
    (snd st = [] \/ ok (Py.join " " (snd st)) \/ is_word (Py.join " " (snd st))) ->
    Forall (fun l => ok l \/ is_word l) (flush_line (fold_left step words st)).
Proof.
  intros Hstep words.
  induction words as [|word words IH]; intros [lines cur] Hwords Hlines Hcur.
  - simpl in *. destruct cur as [|c cur]; [exact Hlines|].
    apply Forall_app. split; [exact Hlines|].
    constructor; [|constructor].
    destruct Hcur as [?|Hcur]; [discriminate|exact Hcur].
  - inversion Hwords as [|? ? Hword Hrest]; subst.
    change (fold_left step (word :: words) (lines, cur))
      with (fold_left step words (step (lines, cur) word)).
    simpl in Hlines, Hcur.
    destruct (Hstep lines cur word) as [[-> Hok]|[[Hne ->]|[-> ->]]].
    + apply IH; simpl; auto.
    + apply IH; simpl; auto.
      apply Forall_app. split; [exact Hlines|].
      constructor; [|constructor].
      destruct Hcur as [?|Hcur]; [done|exact Hcur].
    + apply IH; simpl; auto.
      apply Forall_app. split; [exact Hlines|].
      constructor; [by right|constructor].
Qed.

(** X16. Every line that [split_text_to_fit] returns is within [max_width]
    by the function's own estimate, unless it is a single word: only a word
    that is too long on its own ever exceeds the limit. *)
Theorem split_text_to_fit_lines_fit :
  forall (text : string) (max_width font_size avg_char_width : Q),
    Forall (line_fits (fun line => estimate_text_width line font_size avg_char_width)
                      max_width)
           (split_text_to_fit text max_width font_size avg_char_width).
Proof.
  intros text max_width font_size avg_char_width.
  unfold split_text_to_fit, line_fits.
  apply (greedy_lines_fit
           (fun l => (estimate_text_width l font_size avg_char_width <= max_width)%Q)).
  - intros lines cur word. unfold split_step.
    destruct (Qle_bool _ _) eqn:Hfit.
    + left. split; [reflexivity|]. by apply Qle_bool_iff.
    + right. destruct cur; [right|left]; done.
  - apply split_ws_words.
  - constructor.
  - by left.
Qed.

Example split_text_to_fit_ex :
  split_text_to_fit "a bb incomprehensibilities c" 30 10 0.5
  = ["a bb"; "incomprehensibilities"; "c"]
  /\ (estimate_text_width "incomprehensibilities" 10 0.5 == 105)%Q.
Proof. split; reflexivity. Qed.

(** X17. Every line that [_wrap_text] returns is within [max_width] by the
    estimate of 0.55 of the font size per character, unless it is a single
    word.  The result is the empty list exactly for blank text, and it is
    always the list the greedy loop built: the fallback [[text]] is never
    taken. *)
Theorem _wrap_text_lines_fit :
  forall (text : string) (font_size max_width : Q),
    let lines := _wrap_text text font_size max_width in
    Forall (line_fits (wrap_width font_size) max_width) lines
    /\ (lines = [] <-> Py.truthy (Py.strip text) = false)
    /\ lines = flush_line (fold_left (_wrap_step font_size max_width)
                             (Py.split_ws text) ([], [])).
Proof.
  intros text font_size max_width lines.
  assert (Hfit : Forall (line_fits (wrap_width font_size) max_width)
                   (flush_line (fold_left (_wrap_step font_size max_width)
                                  (Py.split_ws text) ([], [])))).
  { unfold line_fits.
    apply (greedy_lines_fit (fun l => (wrap_width font_size l <= max_width)%Q)).
    - intros ls cur word. unfold _wrap_step.
      destruct (Qle_bool _ _) eqn:Hfit.
      + left. split; [reflexivity|]. by apply Qle_bool_iff.
      + right. destruct cur; [right|left]; done.
    - apply split_ws_words.
    - constructor.
    - by left. }
  assert (Hloop : lines = flush_line (fold_left (_wrap_step font_size max_width)
                                        (Py.split_ws text) ([], []))).
  { subst lines. unfold _wrap_text.
    destruct (Py.truthy (Py.strip text)) eqn:Hne; simpl.
    - destruct (flush_line _) eqn:Hl; [|reflexivity].
      exfalso.
      pose proof (wraps_flush_fold (_wrap_step font_size max_width) text
                    (_wrap_step_move font_size max_width)) as Hw.
      rewrite Hl in Hw.
      eapply wraps_nonempty; [exact Hw| |reflexivity].
      intros Hnil. apply strip_blank_iff in Hnil. congruence.
    - apply strip_blank_iff in Hne. by rewrite Hne. }
  split_and!; [by rewrite Hloop| |exact Hloop].
  split.
  - intros Hnil.
    destruct (Py.truthy (Py.strip text)) eqn:Hne; [|reflexivity].
    exfalso. subst lines. unfold _wrap_text in Hnil. rewrite Hne in Hnil.
    simpl in Hnil. by destruct (flush_line _).
  - intros Hblank. subst lines. unfold _wrap_text. by rewrite Hblank.
Qed.

Example _wrap_text_ex :
  _wrap_text "a bb incomprehensibilities c" 10 30
  = ["a bb"; "incomprehensibilities"; "c"]
  /\ _wrap_text "   " 10 30 = [].
Proof. split; reflexivity. Qed.

(** ** Writing the lines of a block *)

Lemma write_lines_lookup lines x y line_height y1 fontfile font_size color k op :
  write_lines lines x y line_height y1 fontfile font_size color !! k = Some op ->
  exists line : string,
    op = write_text (x, nth_baseline y line_height k) line fontfile font_size color
    /\ lines !! k = Some line
    /\ (nth_baseline y line_height k <= y1)%Q.
Proof.
  revert y k. induction lines as [|l rest IH]; intros y k Hk; [done|].
  cbn [write_lines] in Hk.
  destruct (Qlt_bool y1 y) eqn:Hy; [done|].
  apply Qlt_bool_false in Hy.
  destruct k as [|k].
  - injection Hk as <-. by exists l.
  - destruct (IH _ _ Hk) as (line & -> & Hl & Hle). by exists line.
Qed.

Lemma nth_baseline_mono y line_height k :
  (0 <= line_height)%Q -> (y <= nth_baseline y line_height k)%Q.
Proof.
  intros Hlh. revert y. induction k as [|k IH]; intros y; simpl.
  - apply Qle_refl.
  - specialize (IH (y + line_height)%Q). lra.
Qed.

Lemma write_lines_all lines x y line_height y1 fontfile font_size color :
  (0 <= line_height)%Q ->
  length (write_lines lines x y line_height y1 fontfile font_size color)
  = length lines
  <-> lines = []
      \/ (nth_baseline y line_height (length lines - 1) <= y1)%Q.
Proof.
  intros Hlh. revert y. induction lines as [|l rest IH]; intros y.
  - simpl. split; auto.
  - cbn [write_lines]. destruct (Qlt_bool y1 y) eqn:Hy.
    + apply Qlt_bool_true in Hy. split; [discriminate|].
      intros [?|Hle]; [discriminate|]. exfalso.
      pose proof (nth_baseline_mono y line_height (length (l :: rest) - 1) Hlh).
      lra.
    + apply Qlt_bool_false in Hy.
      cbn [length]. rewrite Nat.succ_inj_wd, IH.
      destruct rest as [|l2 rest].
      * simpl. split; [by right|by left].
      * cbn [length]. replace (S (S (length rest)) - 1)%nat with (S (length rest)) by lia.
        replace (S (length rest) - 1)%nat with (length rest) by lia.
        cbn [nth_baseline].
        split; (intros [?|Hle]; [discriminate|by right]).
Qed.

Section Drawing.

Variable config : TranslatorConfig.t.

(** X18. With a Unicode font, whatever [_add_translated_text] puts on the
    page for a block is a line of the wrapped text, written at the left
    edge of the box plus one, in the block's colour and the adjusted font
    size: the [k]-th operation writes the [k]-th line, [k] line heights
    below the first baseline [y0 + 0.75 * font_size], and never with a
    baseline under the bottom edge of the box. *)
Theorem translated_lines_stay_in_box :
  forall (fontfile : string) (w : World) (text_block : loc) (k : nat) (op : DrawOp),
    _add_translated_text config (Some fontfile) w text_block !! k = Some op ->
    let b := blocks w text_block in
    let bbox := boxes w (TextBlock.bbox b) in
    let text := rendered_text b in
    let font_size :=
      if TranslatorConfig.adjust_font_size config
      then _calculate_font_size config text bbox (TextBlock.size b)
      else TextBlock.size b in
    let y :=
      nth_baseline (BoundingBox.y0 bbox + font_size * 0.75)%Q (font_size * 1.2)%Q k in
    exists line : string,
      op = write_text ((BoundingBox.x0 bbox + 1)%Q, y) line fontfile font_size
             (TextBlock.color b)
      /\ _wrap_text text font_size (BoundingBox.width bbox - 2) !! k = Some line
      /\ (y <= BoundingBox.y1 bbox)%Q.
Proof.
  intros fontfile w text_block k op Hop b bbox text font_size y.
  unfold _add_translated_text in Hop.
  fold b in Hop. fold text in Hop.
  destruct (Py.truthy (Py.strip text)); [|done].
  cbn [negb fst snd] in Hop. fold bbox in Hop. fold font_size in Hop.
  apply write_lines_lookup in Hop as (line & -> & Hline & Hle).
  by exists line.
Qed.

(** X19. With a Unicode font and a font size that is not negative, a block
    shows all lines of its wrapped text exactly when the last of them
    still has its baseline inside the box; otherwise the lines from the
    first one that would start under the bottom edge are dropped. *)
Theorem all_lines_are_written_iff :
  forall (fontfile : string) (w : World) (text_block : loc),
    let b := blocks w text_block in
    let bbox := boxes w (TextBlock.bbox b) in
    let text := rendered_text b in
    let font_size :=
      if TranslatorConfig.adjust_font_size config
      then _calculate_font_size config text bbox (TextBlock.size b)
      else TextBlock.size b in
    let lines := _wrap_text text font_size (BoundingBox.width bbox - 2) in
    Py.truthy (Py.strip text) = true ->
    (0 <= font_size)%Q ->
    length (_add_translated_text config (Some fontfile) w text_block) = length lines
    <-> (nth_baseline (BoundingBox.y0 bbox + font_size * 0.75) (font_size * 1.2)
           (length lines - 1)
         <= BoundingBox.y1 bbox)%Q.
Proof.
  intros fontfile w text_block b bbox text font_size lines Hne Hfs.
  unfold _add_translated_text.
  fold b. fold text. rewrite Hne.
  cbn [negb fst snd]. fold bbox. fold font_size. fold lines.
  rewrite write_lines_all by lra.
  split; [|by right].
  intros [Hnil|Hle]; [|exact Hle].
  exfalso. pose proof (_wrap_text_wraps text font_size (BoundingBox.width bbox - 2)) as Hw.
  eapply wraps_nonempty; [exact Hw| |exact Hnil].
  intros Hws. apply strip_blank_iff in Hws. congruence.
Qed.

End Drawing.

Lemma translated_lines_stay_in_box_witness :
  _add_translated_text TranslatorConfig.default (Some "DejaVuSans.ttf")
    sample_world 2%nat !! 0%nat
  = Some (write_text (11, 57.200)%Q "hello" "DejaVuSans.ttf" 9.6 (0, 0, 0)%Q)
  /\ (nth_baseline (50 + 9.6 * 0.75) (9.6 * 1.2) 0 <= 62)%Q.
Proof.
  assert (H : _add_translated_text TranslatorConfig.default (Some "DejaVuSans.ttf")
                sample_world 2%nat !! 0%nat
              = Some (write_text (11, 57.200)%Q "hello" "DejaVuSans.ttf" 9.6
                        (0, 0, 0)%Q)) by (vm_compute; reflexivity).
  split; [exact H|].
  destruct (translated_lines_stay_in_box TranslatorConfig.default "DejaVuSans.ttf"
              sample_world 2%nat 0%nat _ H)
    as (line & _ & _ & Hle).
  exact Hle.
Defined.

Lemma all_lines_are_written_iff_witness :
  Py.truthy (Py.strip (rendered_text (blocks sample_world 2%nat))) = true
  /\ (0 <= 9.6)%Q
  /\ length (_add_translated_text TranslatorConfig.default (Some "DejaVuSans.ttf")
               sample_world 2%nat) = 1%nat.
Proof.
  assert (Hne : Py.truthy (Py.strip (rendered_text (blocks sample_world 2%nat))) = true)
    by reflexivity.
  assert (Hfs : (0 <= 9.6)%Q) by discriminate.
  split; [exact Hne|]. split; [exact Hfs|].
  apply (proj2 (all_lines_are_written_iff TranslatorConfig.default "DejaVuSans.ttf"
                  sample_world 2%nat Hne Hfs)).
  discriminate.
Defined.

Example tall_text_is_cut :
  _wrap_text "one two three" 12 30 = ["one"; "two"; "three"]
  /\ write_lines ["one"; "two"; "three"] 11 59 14.4 62 "f" 12 (0, 0, 0)%Q
     = [write_text (11, 59)%Q "one" "f" 12 (0, 0, 0)%Q].
Proof. split; reflexivity. Qed.

(** ** The font size never grows *)

Lemma Qmin_py_le_r a b : (Qmin_py a b <= b)%Q.
Proof.
  unfold Qmin_py. destruct (Qlt_bool b a) eqn:E.
  - apply Qle_refl.
  - apply Qlt_bool_false in E.
    destruct (Qlt_le_dec b a) as [Hlt|Hle]; [|exact Hle].
    apply Qlt_bool_true in Hlt. unfold Qlt_bool in *. congruence.
Qed.

Lemma Qmin_py_le_l a b : (Qmin_py a b <= a)%Q.
Proof.
  unfold Qmin_py. destruct (Qlt_bool b a) eqn:E.
  - apply Qlt_bool_true in E. by apply Qlt_le_weak.
  - apply Qle_refl.
Qed.

Lemma Qmax_py_cases a b : Qmax_py a b = a \/ Qmax_py a b = b.
Proof. unfold Qmax_py. destruct (Qlt_bool a b); auto. Qed.

(** X20. With [max_font_reduction <= 1] and an original size that is not
    negative, [_calculate_font_size] never returns more than the original
    size, unless it returns [min_font_size] itself: text is shrunk or left
    alone, and only the floor can lift a size. *)
Theorem font_size_never_grows :
  forall (config : TranslatorConfig.t) (text : string) (bbox : BoundingBox.t)
         (original_size : Q),
    (TranslatorConfig.max_font_reduction config <= 1)%Q ->
    (0 <= original_size)%Q ->
    let new_size := _calculate_font_size config text bbox original_size in
    ((new_size <= original_size)%Q
     \/ new_size = TranslatorConfig.min_font_size config)
    /\ ((TranslatorConfig.min_font_size config <= original_size)%Q ->
        (new_size <= original_size)%Q).
Proof.
  intros config text bbox original_size Hred Hsize new_size.
  assert (Hscale : (Qmax_py (fit_scale text bbox original_size)
                      (TranslatorConfig.max_font_reduction config) <= 1)%Q).
  { destruct (Qmax_py_cases (fit_scale text bbox original_size)
                (TranslatorConfig.max_font_reduction config)) as [-> | ->]; [|exact Hred].
    unfold fit_scale. eapply Qle_trans; [apply Qmin_py_le_r|discriminate]. }
  assert (Hshrunk : (original_size
                     * Qmax_py (fit_scale text bbox original_size)
                         (TranslatorConfig.max_font_reduction config)
                     <= original_size)%Q).
  { set (s := Qmax_py _ _) in *.
    assert (s * original_size <= 1 * original_size)%Q
      by (apply Qmult_le_compat_r; assumption).
    lra. }
  assert (Hcases : (new_size <= original_size)%Q
                   \/ new_size = TranslatorConfig.min_font_size config).
  { subst new_size. unfold _calculate_font_size.
    destruct (negb (Py.truthy (Py.strip text))); [left; apply Qle_refl|].
    destruct (fits text bbox original_size); [left; apply Qle_refl|].
    cbv zeta.
    destruct (Qmax_py_cases
                (original_size * Qmax_py (fit_scale text bbox original_size)
                                   (TranslatorConfig.max_font_reduction config))
                (TranslatorConfig.min_font_size config)) as [-> | ->];
      [left; exact Hshrunk|by right]. }
  split; [exact Hcases|].
  intros Hmin. destruct Hcases as [Hle| ->]; [exact Hle|exact Hmin].
Qed.

Lemma font_size_never_grows_witness :
  (TranslatorConfig.max_font_reduction TranslatorConfig.default <= 1)%Q
  /\ (0 <= 12)%Q
  /\ (_calculate_font_size TranslatorConfig.default "a long line of text"
        (BoundingBox.mk 0 0 100 20) 12 <= 12)%Q.
Proof.
  assert (Hred : (TranslatorConfig.max_font_reduction TranslatorConfig.default <= 1)%Q)
    by discriminate.
  assert (Hsize : (0 <= 12)%Q) by discriminate.
  split; [exact Hred|]. split; [exact Hsize|].
  apply (proj2 (font_size_never_grows TranslatorConfig.default "a long line of text"
                  (BoundingBox.mk 0 0 100 20) 12 Hred Hsize)).
  discriminate.
Defined.

Example font_size_grows_with_a_wide_reduction :
  (_calculate_font_size (TranslatorConfig.mk true 1.5 6.0 10) "a long line of text"
     (BoundingBox.mk 0 0 100 20) 12 == 18)%Q.
Proof. reflexivity. Qed.

(** ** The side-by-side page *)

Lemma drawn_rects_app ops1 ops2 :
  drawn_rects (ops1 ++ ops2) = drawn_rects ops1 ++ drawn_rects ops2.
Proof.
  induction ops1 as [|op ops1 IH]; [done|].
  destruct op; simpl; by rewrite IH.
Qed.

Lemma write_lines_no_rect lines x y line_height y1 fontfile font_size color :
  drawn_rects (write_lines lines x y line_height y1 fontfile font_size color) = [].
Proof.
  revert y. induction lines as [|l rest IH]; intros y; [done|].
  cbn [write_lines]. destruct (Qlt_bool y1 y); [done|]. simpl. apply IH.
Qed.

Lemma allocated_preserved w w' block :
  preserves_heap w w' -> allocated w block ->
  allocated w' block /\ bbox_of w' block = bbox_of w block.
Proof.
  intros Hp [Hb Hr].
  pose proof (ph_blocks _ _ Hp _ Hb) as Hblock.
  pose proof (ph_boxes _ _ Hp _ Hr) as Hbox.
  pose proof (ph_next_block _ _ Hp). pose proof (ph_next_box _ _ Hp).
  split.
  - split; [lia|]. rewrite Hblock. lia.
  - unfold bbox_of. by rewrite Hblock, Hbox.
Qed.

Section Layout.

Variable config : TranslatorConfig.t.
Variable unicode_font : option string.

Lemma _add_translated_text_no_rect w text_block :
  drawn_rects (_add_translated_text config unicode_font w text_block) = [].
Proof.
  unfold _add_translated_text.
  destruct (negb _); [done|].
  destruct unicode_font; [|done].
  apply write_lines_no_rect.
Qed.

Lemma draw_translations_rects blocks_of_page offset_x w :
  Forall (allocated w) blocks_of_page ->
  drawn_rects (fst (draw_translations config unicode_font blocks_of_page offset_x w))
  = map (fun b => cover_rect (bbox_of w b) offset_x) blocks_of_page.
Proof.
  revert w. induction blocks_of_page as [|text_block rest IH]; intros w Hall; [done|].
  inversion Hall as [|? ? Hb Hrest]; subst.
  cbn [draw_translations]. run_monad.
  destruct (shifted_copy_preserves text_block offset_x w) as (Hp & _).
  cbv zeta in Hp.
  cbn [drawn_rects map]. f_equal.
  rewrite drawn_rects_app, _add_translated_text_no_rect. cbn [app].
  rewrite IH.
  - apply map_ext_in. intros b Hin.
    apply List.Forall_forall with (x := b) in Hrest; [|exact Hin].
    by destruct (allocated_preserved _ _ _ Hp Hrest) as [_ ->].
  - eapply Forall_impl; [exact Hrest|].
    intros b Hbr. by destruct (allocated_preserved _ _ _ Hp Hbr).
Qed.

(** X21. A side-by-side page is twice as wide as the original plus the
    separator of 10 and as high as the original, and shows the original
    page first.  For blocks that are objects of the heap, its right half
    gets exactly one white rectangle per block of that page, blank and
    untranslated blocks included, in reading order: the block's own box
    moved right by the page width plus 10 and grown by 1 on every side. *)
Theorem side_by_side_page_layout :
  forall (text_blocks : list loc) (page_info : PageInfo.t) (w : World),
    Forall (allocated w) text_blocks ->
    let page := fst (side_by_side_page config unicode_font text_blocks page_info w) in
    let offset_x := (PageInfo.width page_info + 10)%Q in
    Page.width page = (PageInfo.width page_info * 2 + 10)%Q
    /\ Page.height page = PageInfo.height page_info
    /\ shown_page page = Some (PageInfo.page_number page_info)
    /\ drawn_rects (Page.ops page)
       = map (fun b => cover_rect (bbox_of w b) offset_x)
             (page_text_blocks w text_blocks (PageInfo.page_number page_info))
    /\ length (drawn_rects (Page.ops page))
       = length (List.filter
                   (fun b => (TextBlock.page (blocks w b)
                              =? PageInfo.page_number page_info)%Z) text_blocks).
Proof.
  intros text_blocks page_info w Hall page offset_x.
  assert (Hrects : drawn_rects (Page.ops page)
                   = map (fun b => cover_rect (bbox_of w b) offset_x)
                       (page_text_blocks w text_blocks
                          (PageInfo.page_number page_info))).
  { subst page. unfold side_by_side_page. run_monad.
    cbn [Page.ops app drawn_rects].
    apply draw_translations_rects.
    apply Forall_forall. intros b Hb.
    unfold page_text_blocks in Hb. apply sorted_elem_of in Hb.
    apply list_elem_of_In, List.filter_In in Hb as [Hb _].
    apply (proj1 (Forall_forall _ _) Hall). by apply list_elem_of_In. }
  split_and!; try exact Hrects.
  - subst page. unfold side_by_side_page. by run_monad.
  - subst page. unfold side_by_side_page. by run_monad.
  - subst page. unfold side_by_side_page. by run_monad.
  - rewrite Hrects, length_map. unfold page_text_blocks.
    symmetry. apply Permutation_length, sorted_perm.
Qed.

End Layout.

Lemma side_by_side_page_layout_witness :
  Forall (allocated sample_world) [0; 1; 2]%nat
  /\ drawn_rects
       (Page.ops (fst (side_by_side_page TranslatorConfig.default None [0; 1; 2]%nat
                         (PageInfo.mk 0 100 200 0) sample_world)))
     = map (fun b => cover_rect (bbox_of sample_world b) (100 + 10))
           (page_text_blocks sample_world [0; 1; 2]%nat 0).
Proof.
  assert (H : Forall (allocated sample_world) [0; 1; 2]%nat).
  { repeat constructor. }
  split; [exact H|].
  exact (proj1 (proj2 (proj2 (proj2
           (side_by_side_page_layout TranslatorConfig.default None [0; 1; 2]%nat
              (PageInfo.mk 0 100 200 0) sample_world H))))).
Defined.

Example side_by_side_page_ex :
  drawn_rects
    (Page.ops (fst (side_by_side_page TranslatorConfig.default None [0; 1; 2]%nat
                      (PageInfo.mk 0 100 200 0) sample_world)))
  = [ (10 + (100 + 10) - 1, 50 - 1, 90 + (100 + 10) + 1, 62 + 1)%Q;
      (10 + (100 + 10) - 1, 75 - 1, 90 + (100 + 10) + 1, 87 + 1)%Q;
      (10 + (100 + 10) - 1, 100 - 1, 90 + (100 + 10) + 1, 112 + 1)%Q ].
Proof. reflexivity. Qed.

(** ** Batch files *)

Section BatchFiles.

Variable config : TranslatorConfig.t.
Variable unicode_font : option string.
Variable text_blocks : list loc.

Lemma process_batches_lookup pages pages_per_batch batch_indices w k f :
  fst (process_batches config unicode_font pages text_blocks pages_per_batch
         batch_indices w) !! k = Some f ->
  exists batch_idx : Z,
    batch_indices !! k = Some batch_idx
    /\ fst f = (batch_idx * pages_per_batch + 1,
                Z.min (batch_idx * pages_per_batch + pages_per_batch)
                      (Z.of_nat (length pages)))
    /\ length (snd f)
       = length (List.filter
                   (fun p =>
                      (batch_idx * pages_per_batch <=? PageInfo.page_number p)%Z
                      && (PageInfo.page_number p
                          <? Z.min (batch_idx * pages_per_batch + pages_per_batch)
                                   (Z.of_nat (length pages)))%Z) pages).
Proof.
  revert w k. induction batch_indices as [|batch_idx rest IH]; intros w k Hk; [done|].
  cbn [process_batches] in Hk. rewrite !bind_run in Hk. cbn [ret fst snd] in Hk.
  destruct k as [|k].
  - injection Hk as <-. exists batch_idx. split_and!; try done.
    cbn [snd]. unfold create_side_by_side_pdf. apply compose_pages_length.
  - simpl in Hk. apply IH in Hk as (idx & Hidx & Hf). by exists idx.
Qed.

Lemma length_process_batches pages pages_per_batch batch_indices w :
  length (fst (process_batches config unicode_font pages text_blocks pages_per_batch
                 batch_indices w)) = length batch_indices.
Proof.
  revert w. induction batch_indices as [|batch_idx rest IH]; intros w; [done|].
  cbn [process_batches]. rewrite !bind_run. cbn [ret fst snd length]. by rewrite IH.
Qed.

End BatchFiles.

Lemma batch_index_in_range n b k :
  0 < b -> 0 <= n -> Z.of_nat k < (n + b - 1) / b -> Z.of_nat k * b < n.
Proof.
  intros Hb Hn Hk.
  pose proof (Z.div_mod (n + b - 1) b ltac:(lia)) as Hdm.
  pose proof (Z.mod_pos_bound (n + b - 1) b Hb). nia.
Qed.

(** X22. For [pages_per_batch >= 1] and the pages of a document as the
    extractor numbers them, batch processing produces
    [ceil(total / pages_per_batch)] files; the [k]-th is named for the
    pages [k * pages_per_batch + 1 .. min((k + 1) * pages_per_batch, total)],
    holds exactly that many pages and is never empty.  So the names run from
    1 to the page count without gap or overlap. *)
Theorem batch_files_tile_the_pages :
  forall (config : TranslatorConfig.t) (unicode_font : option string)
         (page_rects : list (Q * Q * Z)) (text_blocks : list loc)
         (pages_per_batch : Z) (w : World),
    1 <= pages_per_batch ->
    let pages := extract_pages page_rects in
    let total_pages := Z.of_nat (length page_rects) in
    exists batch_files : list BatchFile,
      fst (process_large_pdf_in_batches config unicode_font pages text_blocks
             pages_per_batch w) = Some batch_files
      /\ Z.of_nat (length batch_files)
         = (total_pages + pages_per_batch - 1) / pages_per_batch
      /\ forall (k : nat) (first last : Z) (doc : Document),
           batch_files !! k = Some ((first, last), doc) ->
           first = Z.of_nat k * pages_per_batch + 1
           /\ last = Z.min (Z.of_nat k * pages_per_batch + pages_per_batch) total_pages
           /\ first <= last
           /\ Z.of_nat (length doc) = last - first + 1.
Proof.
  intros config unicode_font page_rects text_blocks pages_per_batch w Hb
         pages total_pages.
  assert (Hlen : Z.of_nat (length pages) = total_pages).
  { unfold pages, total_pages. by rewrite length_extract_pages. }
  assert (Hnum : numbered 0 pages) by apply extract_pages_numbered.
  unfold process_large_pdf_in_batches.
  destruct (pages_per_batch =? 0)%Z eqn:E0; [apply Z.eqb_eq in E0; lia|].
  rewrite bind_run. cbn [ret fst snd].
  eexists. split; [reflexivity|].
  rewrite Hlen.
  set (num_batches := (total_pages + pages_per_batch - 1) / pages_per_batch).
  assert (Hnb : 0 <= num_batches).
  { unfold num_batches. apply Z.div_pos; lia. }
  split.
  - rewrite length_process_batches. unfold Py.range.
    rewrite length_map, length_seq. lia.
  - intros k first last doc Hk.
    apply process_batches_lookup in Hk as (batch_idx & Hidx & Hname & Hdoc).
    unfold Py.range in Hidx. rewrite list_lookup_fmap in Hidx.
    destruct (seq 0 (Z.to_nat num_batches) !! k) as [k'|] eqn:Hseq; [|done].
    apply lookup_seq in Hseq as [-> Hlt]. simpl in Hidx, Hlt.
    injection Hidx as <-.
    cbn [fst snd] in Hname, Hdoc. rewrite Hlen in Hname, Hdoc.
    injection Hname as -> ->.
    assert (Hin : Z.of_nat k * pages_per_batch < total_pages).
    { apply batch_index_in_range;
        [lia|unfold total_pages; lia|fold num_batches; lia]. }
    split_and!; try done; [lia|].
    rewrite Hdoc. rewrite <- Hlen.
    rewrite (batch_pages_window pages pages_per_batch k ltac:(lia) Hnum).
    rewrite length_take, length_drop. lia.
Qed.

Lemma batch_files_tile_the_pages_witness :
  1 <= 2
  /\ exists batch_files : list BatchFile,
       fst (process_large_pdf_in_batches TranslatorConfig.default None
              (extract_pages [(100%Q, 200%Q, 0); (100%Q, 200%Q, 0); (100%Q, 200%Q, 0)])
              [0; 1; 2]%nat 2 sample_world) = Some batch_files
       /\ Z.of_nat (length batch_files) = (3 + 2 - 1) / 2.
Proof.
  assert (H : 1 <= 2) by discriminate.
  split; [exact H|].
  destruct (batch_files_tile_the_pages TranslatorConfig.default None
              [(100%Q, 200%Q, 0); (100%Q, 200%Q, 0); (100%Q, 200%Q, 0)] [0; 1; 2]%nat 2
              sample_world H) as (batch_files & Hfiles & Hcount & _).
  exists batch_files. split; [exact Hfiles|exact Hcount].
Defined.

Example batch_files_ex :
  option_map (map fst)
    (fst (process_large_pdf_in_batches TranslatorConfig.default None
            (extract_pages [(100%Q, 200%Q, 0); (100%Q, 200%Q, 0); (100%Q, 200%Q, 0)])
            [0; 1; 2]%nat 2 sample_world))
  = Some [(1, 2); (3, 3)].
Proof. reflexivity. Qed.

(** ** The extractor *)

Lemma split_ws_app_nil a b :
  Py.split_ws (a +:+ b) = [] <-> Py.split_ws a = [] /\ Py.split_ws b = [].
Proof.
  induction a as [|c a IH]; [simpl; tauto|].
  change (String c a +:+ b) with (String c (a +:+ b)).
  cbn [Py.split_ws]. destruct (Py.isspace c); [exact IH|].
  split.
  - intros H. exfalso.
    destruct (Py.starts_word (a +:+ b)); [destruct (Py.split_ws (a +:+ b))|]; done.
  - intros [H _]. exfalso.
    destruct (Py.starts_word a); [destruct (Py.split_ws a)|]; done.
Qed.

Lemma nonblank_app a b :
  Py.truthy (Py.strip (a +:+ b))
  = Py.truthy (Py.strip a) || Py.truthy (Py.strip b).
Proof.
  destruct (Py.truthy (Py.strip (a +:+ b))) eqn:E1,
           (Py.truthy (Py.strip a)) eqn:E2,
           (Py.truthy (Py.strip b)) eqn:E3; try done; exfalso.
  - apply strip_blank_iff in E2, E3.
    assert (H : Py.split_ws (a +:+ b) = []) by (by apply split_ws_app_nil).
    apply strip_blank_iff in H. congruence.
  - apply strip_blank_iff, split_ws_app_nil in E1 as [Ha _].
    apply strip_blank_iff in Ha. congruence.
  - apply strip_blank_iff, split_ws_app_nil in E1 as [Ha _].
    apply strip_blank_iff in Ha. congruence.
  - apply strip_blank_iff, split_ws_app_nil in E1 as [_ Hb].
    apply strip_blank_iff in Hb. congruence.
Qed.

(** Blank spans change nothing. *)
Lemma fold_span_step_kept spans st :
  fold_left span_step spans st
  = fold_left span_step (List.filter contributes spans) st.
Proof.
  revert st. induction spans as [|span spans IH]; intros st; [done|].
  cbn [fold_left List.filter].
  destruct (contributes span) eqn:Hc.
  - cbn [fold_left]. apply IH.
  - rewrite <- IH. f_equal. unfold span_step.
    unfold contributes, span_text in Hc. by rewrite Hc.
Qed.

Lemma span_step_text st span :
  contributes span = true ->
  line_text (span_step st span) = line_text st +:+ span_text span.
Proof.
  intros Hc. unfold span_step. unfold contributes, span_text in *. rewrite Hc.
  cbn [negb]. by destruct (line_font st), (Span.bbox span) as [[[[? ?] ?] ?]|].
Qed.

Lemma fold_span_step_text kept st :
  Forall (fun span => contributes span = true) kept ->
  line_text (fold_left span_step kept st) = line_text st +:+ joined_text kept.
Proof.
  revert st. induction kept as [|span kept IH]; intros st Hall.
  - simpl. unfold joined_text. simpl.
    induction (line_text st) as [|c s IHs]; [done|].
    change (String c s = String c (s +:+ "")). by f_equal.
  - inversion Hall as [|? ? Hc Hrest]; subst.
    cbn [fold_left]. rewrite (IH _ Hrest), (span_step_text _ _ Hc).
    by rewrite append_assoc_str.
Qed.

Lemma span_step_format_kept st span f :
  line_font st = Some f ->
  line_font (span_step st span) = line_font st
  /\ line_size (span_step st span) = line_size st
  /\ line_color (span_step st span) = line_color st.
Proof.
  intros Hf. unfold span_step.
  destruct (negb _); [done|]. rewrite Hf.
  by destruct (Span.bbox span) as [[[[? ?] ?] ?]|].
Qed.

Lemma fold_span_step_format_kept kept st f :
  line_font st = Some f ->
  line_font (fold_left span_step kept st) = line_font st
  /\ line_size (fold_left span_step kept st) = line_size st
  /\ line_color (fold_left span_step kept st) = line_color st.
Proof.
  revert st. induction kept as [|span kept IH]; intros st Hf; [done|].
  cbn [fold_left].
  destruct (span_step_format_kept st span f Hf) as (H1 & H2 & H3).
  destruct (IH (span_step st span)) as (I1 & I2 & I3); [congruence|].
  split_and!; congruence.
Qed.

Lemma span_step_format_first st span :
  contributes span = true ->
  line_font st = None ->
  line_font (span_step st span)
  = Some (normalize_font_name (default "Arial" (Span.font span)))
  /\ line_size (span_step st span) = Some (default 12.0%Q (Span.size span))
  /\ line_color (span_step st span)
     = Some (_int_to_rgb (default 0 (Span.color span))).
Proof.
  intros Hc Hf. unfold span_step. unfold contributes, span_text in Hc.
  rewrite Hc, Hf. cbn [negb].
  by destruct (Span.bbox span) as [[[[? ?] ?] ?]|].
Qed.

Lemma encloses_trans_rect (o0 o1 o2 o3 m0 m1 m2 m3 : Q) r :
  (o0 <= m0)%Q -> (o1 <= m1)%Q -> (m2 <= o2)%Q -> (m3 <= o3)%Q ->
  encloses (Geometry.from_tuple (m0, m1, m2, m3)) r ->
  encloses (Geometry.from_tuple (o0, o1, o2, o3)) r.
Proof.
  destruct r as [[[r0 r1] r2] r3]. unfold encloses. simpl. lra.
Qed.

(** The box of the line encloses the box it had before and the box of
    every span that contributed. *)
Lemma fold_span_step_bbox kept :
  Forall (fun span => contributes span = true) kept ->
  forall st,
    match line_bbox (fold_left span_step kept st) with
    | Some rect =>
        from_option (encloses (Geometry.from_tuple rect)) True (line_bbox st)
        /\ Forall (fun span =>
                     from_option (encloses (Geometry.from_tuple rect)) True
                                 (Span.bbox span)) kept
    | None =>
        line_bbox st = None
        /\ Forall (fun span => Span.bbox span = None) kept
    end.
Proof.
  induction kept as [|span kept IH]; intros Hall st.
  - cbn [fold_left]. destruct (line_bbox st) as [[[[l0 l1] l2] l3]|]; [|done].
    split; [|constructor]. simpl. unfold encloses. simpl. lra.
  - inversion Hall as [|? ? Hc Hrest]; subst.
    cbn [fold_left]. specialize (IH Hrest (span_step st span)).
    assert (Hstep : line_bbox (span_step st span)
              = match Span.bbox span with
                | Some (s0, s1, s2, s3) =>
                    match line_bbox st with
                    | None => Some (s0, s1, s2, s3)
                    | Some (l0, l1, l2, l3) =>
                        Some (Qmin_py l0 s0, Qmin_py l1 s1, Qmax_py l2 s2, Qmax_py l3 s3)
                    end
                | None => line_bbox st
                end).
    { unfold span_step. unfold contributes, span_text in Hc. rewrite Hc. cbn [negb].
      by destruct (line_font st), (Span.bbox span) as [[[[? ?] ?] ?]|]. }
    destruct (line_bbox (fold_left span_step kept (span_step st span)))
      as [[[[o0 o1] o2] o3]|].
    + destruct IH as [Hprev Hkept]. rewrite Hstep in Hprev.
      destruct (Span.bbox span) as [[[[s0 s1] s2] s3]|] eqn:Hs.
      * destruct (line_bbox st) as [[[[l0 l1] l2] l3]|] eqn:Hl.
        -- simpl in Hprev. unfold encloses in Hprev. simpl in Hprev.
           pose proof (Qmin_py_le_l l0 s0). pose proof (Qmin_py_le_r l0 s0).
           pose proof (Qmin_py_le_l l1 s1). pose proof (Qmin_py_le_r l1 s1).
           pose proof (Qmax_py_l l2 s2). pose proof (Qmax_py_r l2 s2).
           pose proof (Qmax_py_l l3 s3). pose proof (Qmax_py_r l3 s3).
           split; [simpl; unfold encloses; simpl; lra|].
           constructor; [|exact Hkept].
           rewrite Hs. simpl. unfold encloses. simpl. lra.
        -- split; [done|]. constructor; [|exact Hkept]. by rewrite Hs.
      * split; [exact Hprev|]. constructor; [|exact Hkept]. by rewrite Hs.
    + destruct IH as [Hprev Hkept]. rewrite Hstep in Hprev.
      destruct (Span.bbox span) as [[[[s0 s1] s2] s3]|] eqn:Hs.
      * by destruct (line_bbox st) as [[[[l0 l1] l2] l3]|].
      * split; [exact Hprev|]. by constructor.
Qed.

Lemma filter_contributes spans :
  Forall (fun span => contributes span = true) (List.filter contributes spans).
Proof.
  apply List.Forall_forall. intros span Hin. by apply List.filter_In in Hin as [_ ?].
Qed.

Lemma joined_text_nonblank kept :
  Forall (fun span => contributes span = true) kept ->
  kept <> [] ->
  Py.truthy (Py.strip (joined_text kept)) = true.
Proof.
  intros Hall Hne. destruct kept as [|span kept]; [done|].
  inversion Hall as [|? ? Hc _]; subst.
  unfold joined_text. cbn [map fold_right]. rewrite nonblank_app.
  unfold contributes in Hc. by rewrite Hc.
Qed.

Lemma or_font_nonempty line_font : or_font line_font <> "".
Proof.
  unfold or_font. destruct line_font as [f|]; [|done].
  destruct f; [done|]. simpl. done.
Qed.

Lemma or_size_nonzero line_size : ~ (or_size line_size == 0)%Q.
Proof.
  unfold or_size. destruct line_size as [s|]; [|done].
  destruct (Qeq_bool s 0) eqn:E; [done|].
  intros H. apply Qeq_bool_iff in H. congruence.
Qed.

Lemma extract_line_run page_num spans w :
  extract_line page_num spans w
  = let st := fold_left span_step spans (mkLineVars "" None None None None) in
    match line_bbox st with
    | Some bbox =>
        if Py.truthy (Py.strip (line_text st))
        then ([next_block w],
              snd (new_text_block (line_text st) (Geometry.from_tuple bbox)
                     (or_font (line_font st)) (or_size (line_size st))
                     (default (0.0, 0.0, 0.0)%Q (line_color st)) page_num w))
        else ([], w)
    | None => ([], w)
    end.
Proof.
  unfold extract_line. cbv zeta.
  destruct (line_bbox _); [|done].
  destruct (Py.truthy _); [|done].
  by rewrite bind_run.
Qed.

(** X23. A line of the text dict gives at most one block.  It gives none
    exactly when no span of the line that is not blank has a box.  The
    block's text is the texts of the spans that are not blank, one after
    the other - a span of white space is left out, also between two
    others -, its box encloses the box of each of these spans, and font,
    size and colour are those of the first of them, with ["Arial"] for an
    empty font name and 12 for a size of zero. *)
Theorem extract_line_text_and_box :
  forall (page_num : Z) (spans : list Span.t) (w : World),
    let kept := List.filter contributes spans in
    let result := extract_line page_num spans w in
    let w' := snd result in
    match fst result with
    | [] => w' = w /\ Forall (fun span => Span.bbox span = None) kept
    | l :: others =>
        others = [] /\ l = next_block w
        /\ text_of w' l = joined_text kept
        /\ Forall (fun span =>
                     from_option (encloses (bbox_of w' l)) True (Span.bbox span)) kept
        /\ match kept with
           | first :: _ =>
               TextBlock.font (blocks w' l)
               = or_font (Some (normalize_font_name (default "Arial" (Span.font first))))
               /\ TextBlock.size (blocks w' l)
                  = or_size (Some (default 12.0%Q (Span.size first)))
               /\ TextBlock.color (blocks w' l)
                  = _int_to_rgb (default 0 (Span.color first))
           | [] => False
           end
    end.
Proof.
  intros page_num spans w kept result w'.
  subst w' result. rewrite extract_line_run. cbv zeta.
  rewrite (fold_span_step_kept spans). fold kept.
  pose proof (filter_contributes spans) as Hkept. fold kept in Hkept.
  set (st0 := mkLineVars "" None None None None).
  pose proof (fold_span_step_bbox kept Hkept st0) as Hbox.
  pose proof (fold_span_step_text kept st0 Hkept) as Htext.
  change (line_text st0 +:+ joined_text kept) with (joined_text kept) in Htext.
  destruct (line_bbox (fold_left span_step kept st0)) as [rect|] eqn:Hrect.
  - destruct Hbox as [_ Hbox]. rewrite Htext.
    destruct (Py.truthy (Py.strip (joined_text kept))) eqn:Hne.
    + cbn [fst snd new_text_block]. unfold text_of, bbox_of.
      cbn [blocks boxes]. rewrite fn_lookup_insert.
      cbn [TextBlock.text TextBlock.bbox TextBlock.font TextBlock.size TextBlock.color].
      rewrite fn_lookup_insert.
      split_and!; try done.
      destruct kept as [|first rest] eqn:Hk; [done|].
      inversion Hkept as [|? ? Hc _]; subst.
      destruct (span_step_format_first st0 first Hc eq_refl) as (F1 & F2 & F3).
      cbn [fold_left].
      destruct (fold_span_step_format_kept rest (span_step st0 first) _ F1)
        as (K1 & K2 & K3).
      rewrite K1, K2, K3, F1, F2, F3. done.
    + cbn [fst snd]. split; [done|].
      destruct kept as [|first rest]; [constructor|].
      rewrite joined_text_nonblank in Hne; done.
  - cbn [fst snd]. by destruct Hbox.
Qed.

Example extract_line_ex :
  let spans :=
    [ Span.mk (Some "Hello") (Some "ABCDEE+Times-Bold") (Some 11%Q) (Some 255)
              (Some (10, 20, 40, 32)%Q);
      Span.mk (Some " ") (Some "Times") (Some 11%Q) (Some 0) (Some (40, 20, 43, 32)%Q);
      Span.mk (Some "world") None (Some 9%Q) (Some 0) (Some (43, 21, 70, 33)%Q) ] in
  let result := extract_line 3 spans empty_world in
  fst result = [0%nat]
  /\ text_of (snd result) 0%nat = "Helloworld"
  /\ TextBlock.font (blocks (snd result) 0%nat) = "Times"
  /\ bbox_of (snd result) 0%nat = BoundingBox.mk 10 20 70 33.
Proof. vm_compute. done. Qed.

(** Runs that create blocks, one after the other. *)
Lemma creates_nil on_page w : creates on_page w ([], w).
Proof.
  unfold creates. simpl. split_and!; try done; try lia; apply preserves_refl.
Qed.

Lemma creates_app on_page w r1 r2 :
  creates on_page w r1 ->
  creates on_page (snd r1) r2 ->
  creates on_page w (fst r1 ++ fst r2, snd r2).
Proof.
  intros (A1 & B1 & N1 & X1 & P1 & E1) (A2 & B2 & N2 & X2 & P2 & E2).
  assert (Hold : forall l, l ∈ fst r1 -> blocks (snd r2) l = blocks (snd r1) l).
  { intros l Hl. apply (ph_blocks _ _ P2).
    rewrite A1 in Hl. apply elem_of_seq in Hl. lia. }
  unfold creates. cbn [fst snd]. rewrite length_app.
  split_and!.
  - rewrite seq_app. f_equal; [exact A1|]. rewrite <- N1. exact A2.
  - rewrite map_app, seq_app. f_equal.
    + rewrite <- B1. apply map_ext_in. intros l Hl.
      rewrite Hold; [done|]. by apply list_elem_of_In.
    + rewrite <- X1. exact B2.
  - lia.
  - lia.
  - eapply preserves_trans; eauto.
  - apply Forall_app. split; [|exact E2].
    apply Forall_forall. intros l Hl. rewrite (Hold l Hl).
    by apply (proj1 (Forall_forall _ _) E1).
Qed.

Lemma creates_extract_line page_num spans w :
  creates (fun p => p = page_num) w (extract_line page_num spans w).
Proof.
  rewrite extract_line_run. cbv zeta.
  rewrite (fold_span_step_kept spans).
  destruct (line_bbox _) as [rect|]; [|apply creates_nil].
  destruct (Py.truthy _) eqn:Hne; [|apply creates_nil].
  unfold creates. cbn [fst snd new_text_block length seq map blocks boxes
                         next_block next_box].
  rewrite !fn_lookup_insert. cbn [TextBlock.bbox].
  split_and!; try done; try lia.
  - split; cbn [blocks boxes next_block next_box translation_cache api_calls];
      try done; try lia.
    + intros l Hl. rewrite fn_lookup_insert_ne; [done|lia].
    + intros r Hr. rewrite fn_lookup_insert_ne; [done|lia].
  - constructor; [|constructor]. rewrite fn_lookup_insert.
    unfold extracted. cbn [TextBlock.text TextBlock.translated_text TextBlock.font
                             TextBlock.size TextBlock.page].
    split_and!; try done; [apply or_font_nonempty|apply or_size_nonzero].
Qed.

Lemma creates_extract_lines page_num lines w :
  creates (fun p => p = page_num) w (extract_lines page_num lines w).
Proof.
  revert w. induction lines as [|spans rest IH]; intros w; [apply creates_nil|].
  cbn [extract_lines]. rewrite !bind_run. cbn [ret].
  apply (creates_app _ w (extract_line page_num spans w)
           (extract_lines page_num rest (snd (extract_line page_num spans w)))).
  - apply creates_extract_line.
  - apply IH.
Qed.

Lemma creates_extract_text_blocks page_num dict_blocks w :
  creates (fun p => p = page_num) w (extract_text_blocks page_num dict_blocks w).
Proof.
  revert w. induction dict_blocks as [|block rest IH]; intros w; [apply creates_nil|].
  cbn [extract_text_blocks].
  destruct (Block.type block) as [[| |]|]; try apply IH.
  rewrite !bind_run. cbn [ret].
  apply (creates_app _ w (extract_lines page_num (Block.lines block) w)
           (extract_text_blocks page_num rest
              (snd (extract_lines page_num (Block.lines block) w)))).
  - apply creates_extract_lines.
  - apply IH.
Qed.

Lemma creates_weaken (on_page on_page' : Z -> Prop) w r :
  (forall p, on_page p -> on_page' p) ->
  creates on_page w r -> creates on_page' w r.
Proof.
  intros Himp (A & B & N & X & P & E). unfold creates. split_and!; try done.
  eapply Forall_impl; [exact E|].
  intros l (E1 & E2 & E3 & E4 & E5). unfold extracted. split_and!; auto.
Qed.

(** X24. The blocks that [extract_text_blocks] returns for a page are new
    objects, each with a box of its own that no other block shares, in the
    order they were made, and nothing that existed before is changed.
    Every one has a text that is not blank, an empty [translated_text], a
    font name that is not empty, a size that is not zero and the number of
    the page. *)
Theorem extracted_blocks_are_new :
  forall (page_num : Z) (dict_blocks : list Block.t) (w : World),
    let result := extract_text_blocks page_num dict_blocks w in
    let w' := snd result in
    let n := length (fst result) in
    fst result = seq (next_block w) n
    /\ map (fun l => TextBlock.bbox (blocks w' l)) (fst result) = seq (next_box w) n
    /\ NoDup (fst result)
    /\ Forall (allocated w') (fst result)
    /\ preserves_heap w w'
    /\ Forall (fun l => extracted (fun p => p = page_num) (blocks w' l)) (fst result).
Proof.
  intros page_num dict_blocks w result w' n.
  destruct (creates_extract_text_blocks page_num dict_blocks w)
    as (A & B & N & X & P & E).
  fold result in A, B, N, X, P, E. fold w' in B, N, X, P, E. fold n in A, B, N, X.
  split_and!; try done.
  - rewrite A. apply NoDup_seq.
  - apply Forall_forall. intros l Hl.
    apply list_elem_of_lookup in Hl as [i Hi].
    assert (Hb : TextBlock.bbox (blocks w' l) = (next_box w + i)%nat
                 /\ (i < n)%nat /\ l = (next_block w + i)%nat).
    { pose proof Hi as Hi'. rewrite A in Hi'. apply lookup_seq in Hi' as [-> Hlt].
      split_and!; try done.
      assert (Hm : map (fun l => TextBlock.bbox (blocks w' l)) (fst result) !! i
                   = Some (TextBlock.bbox (blocks w' (next_block w + i)%nat))).
      { change (map ?f ?l) with (f <$> l). by rewrite list_lookup_fmap, Hi. }
      rewrite B in Hm. apply lookup_seq in Hm as [Hm _]. done. }
    destruct Hb as (Hb & Hlt & ->). split; [lia|]. rewrite Hb. lia.
Qed.

Example extract_text_blocks_ex :
  let line1 := [Span.mk (Some "Title") (Some "Arial") (Some 14%Q) (Some 0)
                        (Some (10, 10, 60, 24)%Q)] in
  let line2 := [Span.mk (Some "   ") (Some "Arial") (Some 14%Q) (Some 0)
                        (Some (10, 30, 60, 44)%Q)] in
  let line3 := [Span.mk (Some "body") (Some "") (Some 0%Q) None
                        (Some (10, 50, 60, 64)%Q)] in
  let dict_blocks :=
    [Block.mk (Some 0) [line1; line2]; Block.mk (Some 1) [line1];
     Block.mk (Some 0) [line3]] in
  let result := extract_text_blocks 0 dict_blocks sample_world in
  fst result = [3; 4]%nat
  /\ map (text_of (snd result)) (fst result) = ["Title"; "body"]
  /\ TextBlock.font (blocks (snd result) 4%nat) = "Arial"
  /\ (TextBlock.size (blocks (snd result) 4%nat) == 12)%Q.
Proof. vm_compute. done. Qed.
